(** * object_database/server.py: the transaction engine and the subscription router

    A shallow embedding of [Server] and [ConnectedChannel] of
    [object_database/server.py], and the properties of the commit path
    ([_handleNewTransaction]), of the snapshotter ([_handleSubscription]) and
    of the connection registry ([addConnection], [dropConnection]).

    Python dicts are [gmap]s, Python sets are [gset]s, the integers are [Z].
    A handler that can raise is a function from the server state to the state
    it leaves behind and either the returned value or the exception: what the
    handler has mutated before it raises stays mutated, as in Python. *)

From stdpp Require Import base strings gmap functions.
From Stdlib Require Import ZArith Lia Ascii.
From stdpp Require Import list.

#[local] Set Warnings "-clear-no-such-hyp".

Local Open Scope string_scope.
Local Open Scope list_scope.
Local Open Scope Z_scope.

(** ** Data *)

Abbreviation key := string.
Abbreviation ident := string.
Abbreviation value := string.
Abbreviation guid := string.

(** A transport channel.  One [ConnectedChannel] is built per channel by
    [addConnection], so the object is named by the channel it wraps. *)
Abbreviation chan := nat.

(** A type definition of a schema: [typedef.fields] and [typedef.indices]. *)
Record TypeDefinition := mkTypeDefinition {
  fields : list string;
  indices : list string
}.

(** [msg.definition] of [DefineSchema]: typename -> type definition. *)
Abbreviation SchemaDefinition := (gmap string TypeDefinition).

(** [ServerToClient] of [object_database/messages.py], with the fields that
    [server.py] fills in. *)
Inductive ServerToClient :=
| Initialize (transaction_num : Z) (connIdentity : ident)
| TransactionResult (transaction_guid : guid) (success : bool)
| FlushResponse (g : guid)
| Subscription (schema : string) (typename : option string)
    (fieldname_and_value : option (string * string))
    (values : gmap key (option value)) (sets : gmap key (gset ident))
    (tid : Z) (identities : option (list ident))
| SubscriptionIncrease (schema typename : string)
    (fieldname_and_value : string * string) (identities : list ident)
| Transaction (writes : gmap key (option value))
    (set_adds set_removes : gmap key (gset ident)) (transaction_id : Z).

(** [ClientToServer], with the fields that [server.py] reads. *)
Inductive ClientToServer :=
| Heartbeat
| Flush (g : guid)
| DefineSchema (name : string) (definition : SchemaDefinition)
| Subscribe (schema : string) (typename : option string)
    (fieldname_and_value : option (string * string))
| NewTransaction (transaction_guid : guid)
    (writes : gmap key (option value))
    (set_adds set_removes : gmap key (list ident))
    (key_versions index_versions : list key) (as_of_version : Z).

(** [class ConnectedChannel].  [channel] is the index of the object in the
    store of the server state below; what is written to it is kept there. *)
Record ConnectedChannel := mkConnectedChannel {
  initial_tid : Z;
  connectionObject : ident;
  lastHeartbeat : Z;
  definedSchemas : gmap string SchemaDefinition;
  subscribedTypes : gset (string * string);
  subscribedIds : gset ident;
  subscribedIndexKeys : gset key
}.

Definition set_lastHeartbeat (t : Z) (cc : ConnectedChannel) : ConnectedChannel :=
  mkConnectedChannel (initial_tid cc) (connectionObject cc) t
    (definedSchemas cc) (subscribedTypes cc) (subscribedIds cc)
    (subscribedIndexKeys cc).

Definition set_definedSchemas (d : gmap string SchemaDefinition)
    (cc : ConnectedChannel) : ConnectedChannel :=
  mkConnectedChannel (initial_tid cc) (connectionObject cc) (lastHeartbeat cc)
    d (subscribedTypes cc) (subscribedIds cc) (subscribedIndexKeys cc).

Definition set_subscribedTypes (s : gset (string * string))
    (cc : ConnectedChannel) : ConnectedChannel :=
  mkConnectedChannel (initial_tid cc) (connectionObject cc) (lastHeartbeat cc)
    (definedSchemas cc) s (subscribedIds cc) (subscribedIndexKeys cc).

Definition set_subscribedIds (s : gset ident)
    (cc : ConnectedChannel) : ConnectedChannel :=
  mkConnectedChannel (initial_tid cc) (connectionObject cc) (lastHeartbeat cc)
    (definedSchemas cc) (subscribedTypes cc) s (subscribedIndexKeys cc).

Definition set_subscribedIndexKeys (s : gset key)
    (cc : ConnectedChannel) : ConnectedChannel :=
  mkConnectedChannel (initial_tid cc) (connectionObject cc) (lastHeartbeat cc)
    (definedSchemas cc) (subscribedTypes cc) (subscribedIds cc) s.

(** ** The collaborators of the server *)

(** [object_database/keymapping.py] is not part of the sources: its
    functions are parameters of the development.  [otype] stands for the
    classes of a schema ([core_schema.Connection] is the one the server
    uses); the tuples are the ones [server.py] unpacks. *)
Class KeyMapping := {
  otype : Type;
  core_schema_Connection : otype;
  data_key : otype → ident → string → key;
  index_key : otype → string → bool → key;
  index_value_to_hash : bool → string;
  data_key_from_names : string → string → ident → string → key;
  index_key_from_names_encoded : string → string → string → string → key;
  index_group : string → string → string → key;
  index_group_and_hashval_to_index_key : key → string → key;
  data_reverse_index_key : ident → string → key;
  split_data_key : key → string * string * ident;
  split_index_key : key → string * string;
  split_index_key_full : key → string * string * string * string;
  split_index_key_to_fieldname_and_hash : key → string * string
}.

(** The key-value store the server is built on: the three calls the server
    makes, on a store that answers every call.  [getSeveral] returns one
    value per key, [None] for a key that is absent; [setSeveral] returns the
    sets that became non-empty and the sets that became empty. *)
Class KVStore := {
  kvstore : Type;
  kv_get : kvstore → key → option value;
  getSetMembers : kvstore → key → gset ident;
  setSeveral : kvstore → gmap key (option value) → gmap key (gset ident) →
               gmap key (gset ident) → kvstore * (list key * list key)
}.

Definition getSeveral `{KVStore} (s : kvstore) (keys : list key)
    : list (option value) :=
  map (kv_get s) keys.

(** ** Exceptions *)

Inductive exn := AssertionError | AttributeError | KeyError.

Inductive result (A : Type) :=
| Return (a : A)
| Raise (e : exn).
Arguments Return {A} a.
Arguments Raise {A} e.

(** ** Dictionaries of sets *)

Section Buckets.
Context {K : Type} `{Countable K} {E : Type} `{Countable E}.

(** [m.get(k, ())] as a set. *)
Definition bucket (m : gmap K (gset E)) (k : K) : gset E :=
  default ∅ (m !! k).

(** [m.setdefault(k, set()).add(e)] *)
Definition setdefault_add (k : K) (e : E) (m : gmap K (gset E))
    : gmap K (gset E) :=
  <[k := bucket m k ∪ {[e]}]> m.

(** [m[k].discard(e)] followed by [if not m[k]: del m[k]], for a key that
    is present. *)
Definition discard_del (k : K) (e : E) (m : gmap K (gset E))
    : gmap K (gset E) :=
  let s := bucket m k ∖ {[e]} in
  if decide (s = ∅) then delete k m else <[k := s]> m.

(** [m[k].discard(e)], for a key that is present. *)
Definition discard (k : K) (e : E) (m : gmap K (gset E))
    : gmap K (gset E) :=
  <[k := bucket m k ∖ {[e]}]> m.
End Buckets.

(** [d.update({ks[i]: vs[i] for i in range(len(ks))})] *)
Definition update_zip {V : Type} (ks : list key) (vs : list V)
    (d : gmap key V) : gmap key V :=
  foldl (λ d kv, <[kv.1 := kv.2]> d) d (zip ks vs).

(** [{k: v for k, v in d.items() if v}] on a dictionary of sets. *)
Definition drop_empty (d : gmap key (gset ident)) : gmap key (gset ident) :=
  filter (λ kv, kv.2 ≠ ∅) d.

(** ** The server *)

Section Server.
Context `{KM : KeyMapping} `{KV : KVStore}.

(** [class Server].  The fields of the source keep their names;
    [_clientChannels] keeps the keys of the dict, whose values are the
    objects of [objects]; [written] is what [channel.write] has received,
    oldest message first. *)
Record Server := mkServer {
  _kvstore : kvstore;
  objects : chan → ConnectedChannel;
  written : chan → list ServerToClient;
  _clientChannels : gset chan;
  _cur_transaction_num : Z;
  _version_numbers : gmap key Z;
  _type_to_channel : gmap (string * string) (gset chan);
  _index_to_channel : gmap key (gset chan);
  _id_to_channel : gmap ident (gset chan)
}.

Definition set_kvstore (x : kvstore) (st : Server) : Server :=
  mkServer x (objects st) (written st) (_clientChannels st)
    (_cur_transaction_num st) (_version_numbers st) (_type_to_channel st)
    (_index_to_channel st) (_id_to_channel st).

Definition set_objects (x : chan → ConnectedChannel) (st : Server) : Server :=
  mkServer (_kvstore st) x (written st) (_clientChannels st)
    (_cur_transaction_num st) (_version_numbers st) (_type_to_channel st)
    (_index_to_channel st) (_id_to_channel st).

Definition set_written (x : chan → list ServerToClient) (st : Server) : Server :=
  mkServer (_kvstore st) (objects st) x (_clientChannels st)
    (_cur_transaction_num st) (_version_numbers st) (_type_to_channel st)
    (_index_to_channel st) (_id_to_channel st).

Definition set_clientChannels (x : gset chan) (st : Server) : Server :=
  mkServer (_kvstore st) (objects st) (written st) x
    (_cur_transaction_num st) (_version_numbers st) (_type_to_channel st)
    (_index_to_channel st) (_id_to_channel st).

Definition set_cur_transaction_num (x : Z) (st : Server) : Server :=
  mkServer (_kvstore st) (objects st) (written st) (_clientChannels st)
    x (_version_numbers st) (_type_to_channel st)
    (_index_to_channel st) (_id_to_channel st).

Definition set_version_numbers (x : gmap key Z) (st : Server) : Server :=
  mkServer (_kvstore st) (objects st) (written st) (_clientChannels st)
    (_cur_transaction_num st) x (_type_to_channel st)
    (_index_to_channel st) (_id_to_channel st).

Definition set_type_to_channel (x : gmap (string * string) (gset chan))
    (st : Server) : Server :=
  mkServer (_kvstore st) (objects st) (written st) (_clientChannels st)
    (_cur_transaction_num st) (_version_numbers st) x
    (_index_to_channel st) (_id_to_channel st).

Definition set_index_to_channel (x : gmap key (gset chan)) (st : Server)
    : Server :=
  mkServer (_kvstore st) (objects st) (written st) (_clientChannels st)
    (_cur_transaction_num st) (_version_numbers st) (_type_to_channel st)
    x (_id_to_channel st).

Definition set_id_to_channel (x : gmap ident (gset chan)) (st : Server)
    : Server :=
  mkServer (_kvstore st) (objects st) (written st) (_clientChannels st)
    (_cur_transaction_num st) (_version_numbers st) (_type_to_channel st)
    (_index_to_channel st) x.

(** A handler that may raise. *)
Definition M (A : Type) : Type := Server → Server * result A.

Definition ret {A} (a : A) : M A := λ st, (st, Return a).
Definition raise {A} (e : exn) : M A := λ st, (st, Raise e).
Definition bind {A B} (m : M A) (f : A → M B) : M B :=
  λ st, match m st with
        | (st', Return a) => f a st'
        | (st', Raise e) => (st', Raise e)
        end.
Definition get : M Server := λ st, (st, Return st).
Definition modify (f : Server → Server) : M unit := λ st, (f st, Return tt).

Notation "'let*' x ':=' m 'in' f" := (bind m (λ x, f))
  (at level 10, x pattern, m at level 100, f at level 200).
Notation "m ';;' f" := (bind m (λ _, f))
  (at level 100, f at level 200, right associativity).

(** [for x in l: f(x)], which stops at the first exception. *)
Fixpoint forM_ {A} (f : A → M unit) (l : list A) : M unit :=
  match l with
  | [] => ret tt
  | x :: l' => f x ;; forM_ f l'
  end.

(** A mutation of the [ConnectedChannel] object of channel [c]. *)
Definition modify_channel (c : chan) (f : ConnectedChannel → ConnectedChannel)
    (st : Server) : Server :=
  set_objects (<[c := f (objects st c)]> (objects st)) st.

(** [connectedChannel.channel.write(msg)] *)
Definition write (c : chan) (msg : ServerToClient) (st : Server) : Server :=
  set_written (<[c := written st c ++ [msg]]> (written st)) st.

(** [ConnectedChannel.sendTransaction] *)
Definition sendTransaction (c : chan) (msg : ServerToClient) (st : Server)
    : Server :=
  write c msg st.

(** [ConnectedChannel.sendInitializationMessage] *)
Definition sendInitializationMessage (c : chan) (st : Server) : Server :=
  write c (Initialize (initial_tid (objects st c))
                      (connectionObject (objects st c))) st.

(** [ConnectedChannel.sendTransactionSuccess] *)
Definition sendTransactionSuccess (c : chan) (g : guid) (success : bool)
    (st : Server) : Server :=
  write c (TransactionResult g success) st.

(** [Server._removeOldDeadConnections] *)
Definition _removeOldDeadConnections (kv0 : kvstore) : kvstore :=
  let connection_index := index_key core_schema_Connection " exists" true in
  let oldIds := getSetMembers kv0 connection_index in
  if decide (oldIds ≠ ∅) then
    (setSeveral kv0
       (list_to_map
          ((λ identity, (data_key core_schema_Connection identity " exists",
                         @None value)) <$> elements oldIds))
       ∅
       {[connection_index := oldIds]}).1
  else kv0.

(** [ConnectedChannel.__init__], at time [now]. *)
Definition new_ConnectedChannel (now : Z) (initial_tid : Z)
    (connectionObject : ident) : ConnectedChannel :=
  mkConnectedChannel initial_tid connectionObject now ∅ ∅ ∅ ∅.

(** [Server.__init__]: the state of a server started on the store [kv0].
    No channel has been written to, and the objects of the store of
    [ConnectedChannel]s are still to be built. *)
Definition init (kv0 : kvstore) : Server :=
  mkServer (_removeOldDeadConnections kv0)
    (λ _, new_ConnectedChannel 0 0 "") (λ _, []) ∅ 0 ∅ ∅ ∅ ∅.

(** [Server._broadcastSubscriptionIncrease] *)
Definition _broadcastSubscriptionIncrease (channel : chan) (indexKey : key)
    (newIds : gset ident) (st : Server) : Server :=
  let newIds := elements newIds in
  let '(schema_name, typename, fieldname, fieldval) :=
    split_index_key_full indexKey in
  write channel
    (SubscriptionIncrease schema_name typename (fieldname, fieldval) newIds)
    st.

(** [Server.indexReverseLookupKvs] *)
Definition indexReverseLookupKvs (adds removes : gmap key (gset ident))
    : gmap key (option value) :=
  let res : gmap key (option value) := ∅ in
  let res :=
    foldl (λ res '(indexKey, identities),
             let '(fieldname, valuehash) :=
               split_index_key_to_fieldname_and_hash indexKey in
             foldl (λ res ident_,
                      <[data_reverse_index_key ident_ fieldname := None]> res)
                   res (elements identities))
          res (map_to_list removes) in
  foldl (λ res '(indexKey, identities),
           let '(fieldname, valuehash) :=
             split_index_key_to_fieldname_and_hash indexKey in
           foldl (λ res ident_,
                    <[data_reverse_index_key ident_ fieldname
                      := Some valuehash]> res)
                 res (elements identities))
        res (map_to_list adds).

(** [Server._increaseBroadcastTransactionToInclude]: the dictionaries
    [key_value] and [set_adds], which the source updates in place, are
    returned.  [channel.definedSchemas.get(schema_name)] is [None] for a
    schema the channel has not defined, and [.get(typename)] then raises;
    a type the definition lacks gives [typedef = None], and
    [typedef.fields] raises. *)
Definition _increaseBroadcastTransactionToInclude (st : Server)
    (channel : chan) (indexKey : key) (newIds : gset ident)
    (key_value : gmap key (option value)) (set_adds : gmap key (gset ident))
    : result (gmap key (option value) * gmap key (gset ident)) :=
  let '(schema_name, typename, fieldname, fieldval) :=
    split_index_key_full indexKey in
  match definedSchemas (objects st channel) !! schema_name with
  | None => Raise AttributeError
  | Some definition =>
    match definition !! typename with
    | None => Raise AttributeError
    | Some typedef =>
      let valsToGet :=
        field_to_pull ← fields typedef;
        ident_ ← elements newIds;
        [data_key_from_names schema_name typename ident_ field_to_pull] in
      let results := getSeveral (_kvstore st) valsToGet in
      let key_value := update_zip valsToGet results key_value in
      let reverseKeys :=
        index_name ← indices typedef;
        ident_ ← elements newIds;
        [data_reverse_index_key ident_ index_name] in
      let reverseVals := getSeveral (_kvstore st) reverseKeys in
      let reverseKVMap := update_zip reverseKeys reverseVals ∅ in
      let set_adds :=
        foldl (λ set_adds index_name,
          foldl (λ set_adds ident_,
            match reverseKVMap !! data_reverse_index_key ident_ index_name with
            | Some (Some fieldval) =>
                let ik := index_key_from_names_encoded
                            schema_name typename index_name fieldval in
                setdefault_add ik ident_ set_adds
            | _ => set_adds
            end) set_adds (elements newIds))
          set_adds (indices typedef) in
      Return (key_value, set_adds)
    end
  end.

(** [self._id_to_channel.setdefault(new_id, set()).add(channel)] and
    [channel.subscribedIds.add(new_id)]: the two statements with which
    [_handleSubscription] and the index expansion of a commit enrol a
    channel on an identity. *)
Definition enrol_identity (channel : chan) (new_id : ident) (st : Server)
    : Server :=
  let st := set_id_to_channel
              (setdefault_add new_id channel (_id_to_channel st)) st in
  modify_channel channel
    (λ cc, set_subscribedIds (subscribedIds cc ∪ {[new_id]}) cc) st.

(** The body of [for add_index, added_identities in set_adds.items()] in
    the block [if sourceChannel: ...] of [_handleNewTransaction]. *)
Definition writer_expansion_entry (sourceChannel : chan) (st : Server)
    (entry : key * gset ident) : Server :=
  let '(add_index, added_identities) := entry in
  let '(schema_name, typename, fieldname, fieldval) :=
    split_index_key_full add_index in
  if decide (fieldname = " exists") then
    if decide ((schema_name, typename)
               ∈ subscribedTypes (objects st sourceChannel))
    then st
    else
      let st := modify_channel sourceChannel
                  (λ cc, set_subscribedIds
                           (subscribedIds cc ∪ added_identities) cc) st in
      let st := foldl (λ st new_id,
                  set_id_to_channel
                    (setdefault_add new_id sourceChannel
                       (_id_to_channel st)) st)
                  st (elements added_identities) in
      _broadcastSubscriptionIncrease sourceChannel add_index
        added_identities st
  else st.

(** The block [if sourceChannel: ...] of [_handleNewTransaction]: the
    writer is subscribed to the objects it creates in a type it is not
    subscribed to. *)
Definition writer_expansion (sourceChannel : chan)
    (set_adds : gmap key (gset ident)) (st : Server) : Server :=
  foldl (writer_expansion_entry sourceChannel) st (map_to_list set_adds).

(** The entries [k] of [subset] with [subset[k]] not empty. *)
Definition written_entries (subset : gmap key (gset ident))
    : list (key * gset ident) :=
  filter (λ kv, kv.2 ≠ ∅) (map_to_list subset).

Definition keysWritingTo (key_value : gmap key (option value)) : gset key :=
  list_to_set (map_to_list key_value).*1.

Definition setsWritingTo (set_adds set_removes : gmap key (gset ident))
    : gset key :=
  list_to_set (written_entries set_adds ++ written_entries set_removes).*1.

Definition schemaTypePairsWriting (key_value : gmap key (option value))
    (set_adds set_removes : gmap key (gset ident)) : gset (string * string) :=
  list_to_set ((λ kv, let '(schema_name, typename, ident_) :=
                        split_data_key kv.1 in (schema_name, typename))
               <$> map_to_list key_value)
  ∪ list_to_set ((λ kv, split_index_key kv.1)
                 <$> (written_entries set_adds ++ written_entries set_removes)).

Definition identities_mentioned (key_value : gmap key (option value))
    (set_adds set_removes : gmap key (gset ident)) : gset ident :=
  list_to_set ((λ kv, let '(schema_name, typename, ident_) :=
                        split_data_key kv.1 in ident_)
               <$> map_to_list key_value)
  ∪ ⋃ ((written_entries set_adds ++ written_entries set_removes).*2).

(** The check of the version numbers: [True] when the transaction
    conflicts, which makes [_handleNewTransaction] return [False]. *)
Definition conflict (version_numbers : gmap key Z) (checks : list key)
    (as_of_version : Z) : bool :=
  existsb (λ key_,
             let last_tid := default (-1) (version_numbers !! key_) in
             bool_decide (as_of_version < last_tid)) checks.

(** [for key in keys: self._version_numbers[key] = transaction_id] *)
Definition stamp (keys : gset key) (transaction_id : Z)
    (version_numbers : gmap key Z) : gmap key Z :=
  foldl (λ vn key_, <[key_ := transaction_id]> vn) version_numbers
    (elements keys).

(** The split of the sets that [setSeveral] reports, by index group. *)
Definition group_by_index (sets : list key) : gmap key (gset ident) :=
  foldl (λ acc s, let '(index_key_, index_val) := split_index_key s in
                  <[index_key_ := bucket acc index_key_ ∪ {[index_val]}]> acc)
        ∅ sets.

(** The two calls of [setSeveral] of a commit. *)
Definition apply_to_kvstore (key_value : gmap key (option value))
    (set_adds set_removes : gmap key (gset ident)) (kv0 : kvstore)
    : kvstore :=
  let target_kvs :=
    indexReverseLookupKvs set_adds set_removes ∪ key_value in
  let '(kv1, (new_sets, dropped_sets)) :=
    setSeveral kv0 target_kvs set_adds set_removes in
  let indexSetAdds := group_by_index new_sets in
  let indexSetRemoves := group_by_index dropped_sets in
  (setSeveral kv1 ∅ indexSetAdds indexSetRemoves).1.

(** The body of [for channel in self._index_to_channel.get(index_key)]. *)
Definition expand_channel (index_key_ : key) (adds : gset ident)
    (acc : Server * gset ident) (channel : chan) : Server * gset ident :=
  let '(st, idsToAddToTransaction) := acc in
  let newIds := adds ∖ subscribedIds (objects st channel) in
  let st := foldl (λ st new_id, enrol_identity channel new_id st) st
              (elements newIds) in
  let st := _broadcastSubscriptionIncrease channel index_key_ newIds st in
  (st, idsToAddToTransaction ∪ newIds).

(** [for index_key, adds in list(set_adds.items())]: the keys are those
    [set_adds] has when the loop starts; [adds] is the set object of
    [set_adds], so what [_increaseBroadcastTransactionToInclude] has added
    to it in an earlier round is seen.  The channels of a bucket are
    visited in the order of [elements], and [channel] after the inner loop
    is the last one visited. *)
Fixpoint index_expansion (index_keys : list key)
    (key_value : gmap key (option value)) (set_adds : gmap key (gset ident))
    : M (gmap key (option value) * gmap key (gset ident)) :=
  match index_keys with
  | [] => ret (key_value, set_adds)
  | index_key_ :: rest =>
    let adds := bucket set_adds index_key_ in
    let* st := get in
    match _index_to_channel st !! index_key_ with
    | None => index_expansion rest key_value set_adds
    | Some channels =>
      let '(st', idsToAddToTransaction) :=
        foldl (expand_channel index_key_ adds) (st, ∅) (elements channels) in
      modify (λ _, st') ;;
      match last (elements channels) with
      | Some channel =>
        if decide (idsToAddToTransaction ≠ ∅) then
          match _increaseBroadcastTransactionToInclude st' channel
                  index_key_ idsToAddToTransaction key_value set_adds with
          | Return (key_value, set_adds) =>
              index_expansion rest key_value set_adds
          | Raise e => raise e
          end
        else index_expansion rest key_value set_adds
      | None => index_expansion rest key_value set_adds
      end
    end
  end.

(** The recipients of a transaction and the message they are sent. *)
Definition channelsTriggered (pairs : gset (string * string))
    (identities : gset ident) (st : Server) : gset chan :=
  ⋃ ((λ p, bucket (_type_to_channel st) p) <$> elements pairs)
  ∪ ⋃ ((λ i, bucket (_id_to_channel st) i) <$> elements identities).

Definition broadcast (channels : gset chan) (msg : ServerToClient)
    (st : Server) : Server :=
  foldl (λ st channel, sendTransaction channel msg st) st
    (elements channels).

(** [Server._handleNewTransaction] *)
Definition _handleNewTransaction (sourceChannel : option chan)
    (key_value : gmap key (option value))
    (set_adds set_removes : gmap key (gset ident))
    (keys_to_check_versions indices_to_check_versions : list key)
    (as_of_version : Z) : M bool :=
  modify (λ st, set_cur_transaction_num (_cur_transaction_num st + 1) st) ;;
  let* st := get in
  let transaction_id := _cur_transaction_num st in
  if decide (transaction_id > as_of_version) then
    let set_adds := drop_empty set_adds in
    let set_removes := drop_empty set_removes in
    match sourceChannel with
    | Some c => modify (writer_expansion c set_adds)
    | None => ret tt
    end ;;
    let keysWritingTo_ := keysWritingTo key_value in
    let setsWritingTo_ := setsWritingTo set_adds set_removes in
    let schemaTypePairsWriting_ :=
      schemaTypePairsWriting key_value set_adds set_removes in
    let identities_mentioned_ :=
      identities_mentioned key_value set_adds set_removes in
    let* st := get in
    if conflict (_version_numbers st)
         (keys_to_check_versions ++ indices_to_check_versions)
         as_of_version
    then ret false
    else
      modify (λ st, set_version_numbers
                      (stamp setsWritingTo_ transaction_id
                         (stamp keysWritingTo_ transaction_id
                            (_version_numbers st))) st) ;;
      modify (λ st, set_kvstore
                      (apply_to_kvstore key_value set_adds set_removes
                         (_kvstore st)) st) ;;
      let* (key_value, set_adds) :=
        index_expansion (map_to_list set_adds).*1 key_value set_adds in
      modify (λ st, broadcast
                      (channelsTriggered schemaTypePairsWriting_
                         identities_mentioned_ st)
                      (Transaction key_value set_adds set_removes
                         transaction_id) st) ;;
      ret true
  else raise AssertionError.

(** What [_handleSubscription] gathers: [kvs], [sets] and the
    [identities] of the last type visited. *)
Definition snapshot : Type :=
  gmap key (option value) * gmap key (gset ident) * gset ident.

(** The fan-out update of [_handleSubscription] for one type.  In the
    index branch [msg.typename] is [typename]: a message with a field and
    no type has failed its assertion before the loop. *)
Definition subscribe_fanout (connectedChannel : chan)
    (schema_name typename : string)
    (fieldname_and_value : option (string * string))
    (identities : gset ident) (st : Server) : Server :=
  match fieldname_and_value with
  | Some (fieldname, fieldval) =>
    let st := foldl (λ st ident_, enrol_identity connectedChannel ident_ st)
                st (elements identities) in
    if decide (fieldname ≠ "_identity") then
      let index_key_ := index_key_from_names_encoded
                          schema_name typename fieldname fieldval in
      let st := set_index_to_channel
                  (setdefault_add index_key_ connectedChannel
                     (_index_to_channel st)) st in
      modify_channel connectedChannel
        (λ cc, set_subscribedIndexKeys
                 (subscribedIndexKeys cc ∪ {[index_key_]}) cc) st
    else st
  | None =>
    let st := set_type_to_channel
                (setdefault_add (schema_name, typename) connectedChannel
                   (_type_to_channel st)) st in
    modify_channel connectedChannel
      (λ cc, set_subscribedTypes
               (subscribedTypes cc ∪ {[(schema_name, typename)]}) cc) st
  end.

(** [for fieldname in typedef.fields] of [_handleSubscription]: the cells
    of the identities are read into [kvs]. *)
Definition gather_values (kv0 : kvstore) (schema_name typename : string)
    (typedef : TypeDefinition) (identities : gset ident)
    (kvs : gmap key (option value)) : gmap key (option value) :=
  foldl (λ kvs fieldname,
           let keys := (λ identity,
                          data_key_from_names schema_name typename
                            identity fieldname)
                       <$> elements identities in
           let vals := getSeveral kv0 keys in
           update_zip keys vals kvs)
        kvs (fields typedef).

(** [for fieldname in typedef.indices] of [_handleSubscription]: the sets
    of the index are cut down to the identities and kept in [sets] when
    something is left. *)
Definition gather_sets (kv0 : kvstore) (schema_name typename : string)
    (typedef : TypeDefinition) (identities : gset ident)
    (sets : gmap key (gset ident)) : gmap key (gset ident) :=
  foldl (λ sets fieldname,
           let index_group_ := index_group schema_name typename fieldname in
           let index_vals := getSetMembers kv0 index_group_ in
           foldl (λ sets iv,
                    let index_key_ :=
                      index_group_and_hashval_to_index_key index_group_ iv in
                    let s := getSetMembers kv0 index_key_ ∩ identities in
                    if decide (s = ∅) then delete index_key_ sets
                    else <[index_key_ := s]> sets)
                 sets (elements index_vals))
        sets (indices typedef).

(** The body of [for typename in types_to_subscribe]. *)
Definition subscribe_type (connectedChannel : chan) (schema_name : string)
    (definition : SchemaDefinition)
    (fieldname_and_value : option (string * string))
    (acc : snapshot) (typename : string) : M snapshot :=
  let '(kvs, sets, _) := acc in
  match definition !! typename with
  | None => raise AssertionError
  | Some typedef =>
    let '(field, val) :=
      match fieldname_and_value with
      | None => (" exists", index_value_to_hash true)
      | Some fv => fv
      end in
    let* st := get in
    let identities : gset ident :=
      if decide (field = "_identity") then {[val]}
      else getSetMembers (_kvstore st)
             (index_key_from_names_encoded schema_name typename field val) in
    let kvs := gather_values (_kvstore st) schema_name typename typedef
                 identities kvs in
    let sets := gather_sets (_kvstore st) schema_name typename typedef
                  identities sets in
    modify (subscribe_fanout connectedChannel schema_name typename
              fieldname_and_value identities) ;;
    ret (kvs, sets, identities)
  end.

(** [for typename in types_to_subscribe], which stops at an assertion
    that fails. *)
Fixpoint subscribe_types (connectedChannel : chan) (schema_name : string)
    (definition : SchemaDefinition)
    (fieldname_and_value : option (string * string))
    (acc : snapshot) (types_to_subscribe : list string) : M snapshot :=
  match types_to_subscribe with
  | [] => ret acc
  | typename :: rest =>
    let* acc := subscribe_type connectedChannel schema_name definition
                  fieldname_and_value acc typename in
    subscribe_types connectedChannel schema_name definition
      fieldname_and_value acc rest
  end.

(** [Server._handleSubscription], on the fields of the [Subscribe]
    message. *)
Definition _handleSubscription (connectedChannel : chan)
    (schema_name : string) (typename : option string)
    (fieldname_and_value : option (string * string)) : M unit :=
  let* st := get in
  match definedSchemas (objects st connectedChannel) !! schema_name with
  | None => raise AssertionError
  | Some definition =>
    let* types_to_subscribe :=
      match typename with
      | None =>
        match fieldname_and_value with
        | None => ret (map_to_list definition).*1
        | Some _ => raise AssertionError
        end
      | Some t => ret [t]
      end in
    let* (kvs, sets, identities) :=
      subscribe_types connectedChannel schema_name definition
        fieldname_and_value (∅, ∅, ∅) types_to_subscribe in
    let* st := get in
    modify (write connectedChannel
              (Subscription schema_name typename fieldname_and_value
                 kvs sets (_cur_transaction_num st)
                 (match fieldname_and_value with
                  | None => None
                  | Some _ => Some (elements identities)
                  end)))
  end.

(** [Server._createConnectionEntry]; [identity] is the digest of the
    fresh uuid. *)
Definition _createConnectionEntry (identity : ident) : M ident :=
  let exists_key := data_key core_schema_Connection identity " exists" in
  let exists_index := index_key core_schema_Connection " exists" true in
  let* st := get in
  _handleNewTransaction None
    {[exists_key := Some "true"]}
    {[exists_index := {[identity]}]}
    ∅ [] [] (_cur_transaction_num st) ;;
  ret identity.

(** [Server._dropConnectionEntry] *)
Definition _dropConnectionEntry (entry : ident) : M unit :=
  let identity := entry in
  let exists_key := data_key core_schema_Connection identity " exists" in
  let exists_index := index_key core_schema_Connection " exists" true in
  let* st := get in
  _handleNewTransaction None
    {[exists_key := None]}
    ∅
    {[exists_index := {[identity]}]}
    [] [] (_cur_transaction_num st) ;;
  ret tt.

(** [Server.addConnection], at time [now]: whatever is raised inside is
    caught and logged. *)
Definition addConnection (now : Z) (identity : ident) (channel : chan)
    (st : Server) : Server :=
  match _createConnectionEntry identity st with
  | (st, Raise _) => st
  | (st, Return connectionObject_) =>
    let connectedChannel :=
      new_ConnectedChannel now (_cur_transaction_num st) connectionObject_ in
    let st := set_objects (<[channel := connectedChannel]> (objects st)) st in
    let st := set_clientChannels ({[channel]} ∪ _clientChannels st) st in
    sendInitializationMessage channel st
  end.

(** [self._type_to_channel[schema_name, typename].discard(connectedChannel)] *)
Definition drop_type (channel : chan) (p : string * string) : M unit :=
  let* st := get in
  match _type_to_channel st !! p with
  | None => raise KeyError
  | Some _ =>
    modify (set_type_to_channel (discard p channel (_type_to_channel st)))
  end.

(** The body of [for index_key in connectedChannel.subscribedIndexKeys]. *)
Definition drop_index_key (channel : chan) (index_key_ : key) : M unit :=
  let* st := get in
  match _index_to_channel st !! index_key_ with
  | None => raise KeyError
  | Some _ =>
    modify (set_index_to_channel
              (discard_del index_key_ channel (_index_to_channel st)))
  end.

(** The body of [for identity in connectedChannel.subscribedIds]. *)
Definition drop_identity (channel : chan) (identity : ident) : M unit :=
  let* st := get in
  match _id_to_channel st !! identity with
  | None => raise KeyError
  | Some _ =>
    modify (set_id_to_channel
              (discard_del identity channel (_id_to_channel st)))
  end.

(** [Server.dropConnection] *)
Definition dropConnection (channel : chan) : M unit :=
  let* st := get in
  if decide (channel ∈ _clientChannels st) then
    let connectedChannel := objects st channel in
    forM_ (drop_type channel) (elements (subscribedTypes connectedChannel)) ;;
    forM_ (drop_index_key channel)
      (elements (subscribedIndexKeys connectedChannel)) ;;
    forM_ (drop_identity channel)
      (elements (subscribedIds connectedChannel)) ;;
    let co := connectionObject connectedChannel in
    modify (λ st, set_clientChannels (_clientChannels st ∖ {[channel]}) st) ;;
    _dropConnectionEntry co
  else ret tt.

(** [Server.onClientToServerMessage], at time [now].  An exception of
    [_handleNewTransaction] is caught and reported as a failure; one of
    [_handleSubscription] is not caught. *)
Definition onClientToServerMessage (now : Z) (connectedChannel : chan)
    (msg : ClientToServer) : M unit :=
  match msg with
  | Heartbeat =>
    modify (modify_channel connectedChannel (set_lastHeartbeat now))
  | Flush g => modify (write connectedChannel (FlushResponse g))
  | DefineSchema name definition =>
    modify (modify_channel connectedChannel
              (λ cc, set_definedSchemas
                       (<[name := definition]> (definedSchemas cc)) cc))
  | Subscribe schema_name typename fieldname_and_value =>
    _handleSubscription connectedChannel schema_name typename
      fieldname_and_value
  | NewTransaction transaction_guid writes set_adds set_removes
      key_versions index_versions as_of_version =>
    λ st,
      let '(st, r) :=
        _handleNewTransaction (Some connectedChannel) writes
          (list_to_set <$> filter (λ kv, kv.2 ≠ []) set_adds)
          (list_to_set <$> filter (λ kv, kv.2 ≠ []) set_removes)
          key_versions index_versions as_of_version st in
      let isOK := match r with Return b => b | Raise _ => false end in
      (sendTransactionSuccess connectedChannel transaction_guid isOK st,
       Return tt)
  end.

(** ** Runs of the server

    A connection is added for a channel that is not connected; a message
    is handled for a channel that is; a drop may name any channel. *)
Inductive step : Server → Server → Prop :=
| step_addConnection st now identity channel :
    channel ∉ _clientChannels st →
    step st (addConnection now identity channel st)
| step_dropConnection st channel :
    step st (dropConnection channel st).1
| step_message st now channel msg :
    channel ∈ _clientChannels st →
    step st (onClientToServerMessage now channel msg st).1.

Inductive reachable : Server → Prop :=
| reachable_init kv0 : reachable (init kv0)
| reachable_step st st' : reachable st → step st st' → reachable st'.
End Server.

(** ** A key encoder and a store to run the server on *)

(** The components of a key, which are joined by colons. *)
Fixpoint split_colon (s : string) : list string :=
  match s with
  | EmptyString => [""]
  | String a s' =>
    if Ascii.eqb a ":"%char then "" :: split_colon s'
    else match split_colon s' with
         | [] => [String a ""]
         | w :: ws => String a w :: ws
         end
  end.

Definition component (n : nat) (k : key) : string :=
  nth n (split_colon k) "".

(** Modelled from the spec: the Key Encoder, [object_database/keymapping.py],
    which is not among the sources.  The spec asks for a prefix per family
    of keys (data, index, index group, reverse index) and for parsers that
    recover the components of a key; the components are joined by colons
    here.  A class of a schema is the pair of the names of its schema and of
    its type, [core_schema.Connection] is type "Connection" of schema
    "core", and the hash of a boolean is its name. *)
Definition colon_keys : KeyMapping := {|
  otype := string * string;
  core_schema_Connection := ("core", "Connection");
  index_value_to_hash := λ b : bool, if b then "True" else "False";
  data_key_from_names := λ s t i f, "D:" +:+ s +:+ ":" +:+ t +:+ ":" +:+ i +:+ ":" +:+ f;
  index_key_from_names_encoded :=
    λ s t f v, "I:" +:+ s +:+ ":" +:+ t +:+ ":" +:+ f +:+ ":" +:+ v;
  data_key := λ ty i f,
    "D:" +:+ ty.1 +:+ ":" +:+ ty.2 +:+ ":" +:+ i +:+ ":" +:+ f;
  index_key := λ ty f (b : bool),
    "I:" +:+ ty.1 +:+ ":" +:+ ty.2 +:+ ":" +:+ f +:+ ":" +:+
    (if b then "True" else "False");
  index_group := λ s t f, "G:" +:+ s +:+ ":" +:+ t +:+ ":" +:+ f;
  index_group_and_hashval_to_index_key := λ g v,
    "I:" +:+ component 1 g +:+ ":" +:+ component 2 g +:+ ":" +:+
    component 3 g +:+ ":" +:+ v;
  data_reverse_index_key := λ i f, "R:" +:+ i +:+ ":" +:+ f;
  split_data_key := λ k, (component 1 k, component 2 k, component 3 k);
  split_index_key := λ k,
    ("G:" +:+ component 1 k +:+ ":" +:+ component 2 k +:+ ":" +:+
     component 3 k, component 4 k);
  split_index_key_full := λ k,
    (component 1 k, component 2 k, component 3 k, component 4 k);
  split_index_key_to_fieldname_and_hash := λ k, (component 3 k, component 4 k)
|}.

(** Modelled from the spec: a store that fulfils the contract of the KV
    Store Adapter (the store itself is outside [server.py]): cells and sets
    in memory, [setSeveral] applies the writes, the additions and the
    removals, and reports the sets that became non-empty and those that
    became empty. *)
Record MemStore := mkMemStore {
  cells : gmap key value;
  members : gmap key (gset ident)
}.

Definition mem_setSeveral (s : MemStore) (kvs : gmap key (option value))
    (adds removes : gmap key (gset ident))
    : MemStore * (list key * list key) :=
  let cells' :=
    foldl (λ c kv, match kv.2 with
                   | Some v => <[kv.1 := v]> c
                   | None => delete kv.1 c
                   end) (cells s) (map_to_list kvs) in
  let touched := elements (dom adds ∪ dom removes) in
  let after k := (bucket (members s) k ∪ bucket adds k) ∖ bucket removes k in
  let members' :=
    foldl (λ m k, if decide (after k = ∅) then delete k m
                  else <[k := after k]> m) (members s) touched in
  let new_sets :=
    filter (λ k, bucket (members s) k = ∅ ∧ after k ≠ ∅) touched in
  let dropped_sets :=
    filter (λ k, bucket (members s) k ≠ ∅ ∧ after k = ∅) touched in
  (mkMemStore cells' members', (new_sets, dropped_sets)).

Definition mem_store : KVStore := {|
  kvstore := MemStore;
  kv_get := λ s k, cells s !! k;
  getSetMembers := λ s k, bucket (members s) k;
  setSeveral := mem_setSeveral
|}.

Definition empty_store : @kvstore mem_store := mkMemStore ∅ ∅.

(** ** The commit, block by block, and the invariants of the server *)

Section Blocks.
Context `{KM : KeyMapping} `{KV : KVStore}.

(** The state in which [_handleNewTransaction] checks the version
    numbers: the counter is incremented and the writer is subscribed to
    the objects it creates. *)
Definition before_check (sourceChannel : option chan)
    (set_adds : gmap key (gset ident)) (st : Server) : Server :=
  let st1 := set_cur_transaction_num (_cur_transaction_num st + 1) st in
  match sourceChannel with
  | Some c => writer_expansion c (drop_empty set_adds) st1
  | None => st1
  end.

(** The state in which [_handleNewTransaction] starts the expansion of
    the index subscriptions: the version numbers are stamped and the store
    is written. *)
Definition after_store (key_value : gmap key (option value))
    (set_adds set_removes : gmap key (gset ident)) (transaction_id : Z)
    (st2 : Server) : Server :=
  let sa := drop_empty set_adds in
  let sr := drop_empty set_removes in
  let st3 := set_version_numbers
               (stamp (setsWritingTo sa sr) transaction_id
                  (stamp (keysWritingTo key_value) transaction_id
                     (_version_numbers st2)))
               st2 in
  set_kvstore (apply_to_kvstore key_value sa sr (_kvstore st3)) st3.

(** What the subscription expansions of a commit and its broadcast may
    change: channels are subscribed to more identities and are written
    more messages, and nothing else. *)
Record expands (st st' : Server) : Prop := mkExpands {
  expands_kvstore : _kvstore st' = _kvstore st;
  expands_clientChannels : _clientChannels st' = _clientChannels st;
  expands_cur_transaction_num :
    _cur_transaction_num st' = _cur_transaction_num st;
  expands_version_numbers : _version_numbers st' = _version_numbers st;
  expands_type_to_channel : _type_to_channel st' = _type_to_channel st;
  expands_index_to_channel : _index_to_channel st' = _index_to_channel st;
  expands_id_to_channel :
    ∀ i, bucket (_id_to_channel st) i ⊆ bucket (_id_to_channel st') i;
  expands_written : ∀ c, written st c `prefix_of` written st' c;
  expands_objects : ∀ c,
    set_subscribedIds ∅ (objects st' c) = set_subscribedIds ∅ (objects st c)
    ∧ subscribedIds (objects st c) ⊆ subscribedIds (objects st' c)
}.

(** What [_handleSubscription] leaves alone while it visits the types. *)
Record subscribes (st st' : Server) : Prop := mkSubscribes {
  subscribes_kvstore : _kvstore st' = _kvstore st;
  subscribes_written : written st' = written st;
  subscribes_clientChannels : _clientChannels st' = _clientChannels st;
  subscribes_cur_transaction_num :
    _cur_transaction_num st' = _cur_transaction_num st;
  subscribes_version_numbers : _version_numbers st' = _version_numbers st;
  subscribes_definedSchemas : ∀ c,
    definedSchemas (objects st' c) = definedSchemas (objects st c)
}.

(** What a call of [_handleNewTransaction] may change besides the counter,
    the version numbers and the store: channels are subscribed to more
    identities and are written more messages. *)
Record grows (st st' : Server) : Prop := mkGrows {
  grows_clientChannels : _clientChannels st' = _clientChannels st;
  grows_type_to_channel : _type_to_channel st' = _type_to_channel st;
  grows_index_to_channel : _index_to_channel st' = _index_to_channel st;
  grows_id_to_channel :
    ∀ i, bucket (_id_to_channel st) i ⊆ bucket (_id_to_channel st') i;
  grows_written : ∀ c, written st c `prefix_of` written st' c;
  grows_objects : ∀ c,
    set_subscribedIds ∅ (objects st' c) = set_subscribedIds ∅ (objects st c)
    ∧ subscribedIds (objects st c) ⊆ subscribedIds (objects st' c)
}.

Definition is_SubscriptionIncrease (msg : ServerToClient) : Prop :=
  match msg with
  | SubscriptionIncrease _ _ _ _ => True
  | _ => False
  end.

(** What the subscription of the writer to the objects it creates may
    change: the writer [c] is subscribed to more identities and is written
    [SubscriptionIncrease] messages. *)
Record writer_only (c : chan) (st st' : Server) : Prop := mkWriterOnly {
  writer_only_objects : ∀ c', c' ≠ c → objects st' c' = objects st c';
  writer_only_written : ∀ c', c' ≠ c → written st' c' = written st c';
  writer_only_id_to_channel : ∀ i,
    bucket (_id_to_channel st') i ⊆ bucket (_id_to_channel st) i ∪ {[c]};
  writer_only_messages :
    ∃ l, written st' c = written st c ++ l
         ∧ Forall is_SubscriptionIncrease l
}.

(** The state [dropConnection] reaches after its three loops and
    [del self._clientChannels[channel]], when no loop raises. *)
Definition unsubscribed (channel : chan) (st : Server) : Server :=
  let connectedChannel := objects st channel in
  let st := set_type_to_channel
              (foldl (λ m p, discard p channel m) (_type_to_channel st)
                 (elements (subscribedTypes connectedChannel))) st in
  let st := set_index_to_channel
              (foldl (λ m k, discard_del k channel m) (_index_to_channel st)
                 (elements (subscribedIndexKeys connectedChannel))) st in
  let st := set_id_to_channel
              (foldl (λ m i, discard_del i channel m) (_id_to_channel st)
                 (elements (subscribedIds connectedChannel))) st in
  set_clientChannels (_clientChannels st ∖ {[channel]}) st.

(** No bucket of index_key→channels or identity→channels is empty. *)
Definition buckets_nonempty (st : Server) : Prop :=
  (∀ k s, _index_to_channel st !! k = Some s → s ≠ ∅)
  ∧ (∀ i s, _id_to_channel st !! i = Some s → s ≠ ∅).

(** Version numbers are transaction ids that have been given out. *)
Definition versions_bounded (st : Server) : Prop :=
  ∀ k v, _version_numbers st !! k = Some v → v ≤ _cur_transaction_num st.

(** The fan-out maps hold the connected channels, each under what it is
    subscribed to. *)
Record consistent (st : Server) : Prop := mkConsistent {
  consistent_ids : ∀ c i,
    c ∈ bucket (_id_to_channel st) i
    ↔ c ∈ _clientChannels st ∧ i ∈ subscribedIds (objects st c);
  consistent_types : ∀ c p,
    c ∈ bucket (_type_to_channel st) p
    ↔ c ∈ _clientChannels st ∧ p ∈ subscribedTypes (objects st c);
  consistent_index_keys : ∀ c k,
    c ∈ bucket (_index_to_channel st) k
    ↔ c ∈ _clientChannels st ∧ k ∈ subscribedIndexKeys (objects st c)
}.

(** The identities a subscription to type [typename] matches, as
    [_handleSubscription] computes them. *)
Definition matching_identities (st : Server) (schema_name typename : string)
    (fieldname_and_value : option (string * string)) : gset ident :=
  let '(field, val) :=
    match fieldname_and_value with
    | None => (" exists", index_value_to_hash true)
    | Some fv => fv
    end in
  if decide (field = "_identity") then {[val]}
  else getSetMembers (_kvstore st)
         (index_key_from_names_encoded schema_name typename field val).

(** [list(definition)] for a subscription to a schema, [[msg.typename]] for
    one to a type. *)
Definition types_to_subscribe (definition : SchemaDefinition)
    (typename : option string) : list string :=
  match typename with
  | None => (map_to_list definition).*1
  | Some t => [t]
  end.
(** What the snapshot of a subscription holds: the values are those of
    the store, every cell of a field of a matching identity of a subscribed
    type is there, and the sets are parts of the sets of the store that
    are not empty. *)
Definition snapshot_of (st : Server) (schema_name : string)
    (definition : SchemaDefinition) (fv : option (string * string))
    (types : list string) (snap : snapshot) : Prop :=
  (∀ k v, snap.1.1 !! k = Some v → v = kv_get (_kvstore st) k)
  ∧ (∀ t typedef f i,
       t ∈ types → definition !! t = Some typedef → f ∈ fields typedef →
       i ∈ matching_identities st schema_name t fv →
       snap.1.1 !! data_key_from_names schema_name t i f
       = Some (kv_get (_kvstore st) (data_key_from_names schema_name t i f)))
  ∧ (∀ k s, snap.1.2 !! k = Some s →
            s ≠ ∅ ∧ s ⊆ getSetMembers (_kvstore st) k).

(** The index keys that the loop [for fieldname in typedef.indices] of
    [_handleSubscription] visits for a type: one for every value of the
    index group of every index of the type. *)
Definition index_keys_of_type (st : Server) (schema_name typename : string)
    (typedef : TypeDefinition) : list key :=
  fieldname ← indices typedef;
  iv ← elements (getSetMembers (_kvstore st)
                   (index_group schema_name typename fieldname));
  [index_group_and_hashval_to_index_key
     (index_group schema_name typename fieldname) iv].

(** Type [t], one of [types], visits the index key [k]. *)
Definition visits (st : Server) (schema_name : string)
    (definition : SchemaDefinition) (types : list string) (k : key)
    (t : string) : Prop :=
  t ∈ types
  ∧ ∃ typedef, definition !! t = Some typedef
               ∧ k ∈ index_keys_of_type st schema_name t typedef.

(** [sets[index_key]] after
    [sets[index_key] = getSetMembers(index_key).intersection(identities)]
    and [if not sets[index_key]: del sets[index_key]]. *)
Definition set_entry (st : Server) (k : key) (identities : gset ident)
    : option (gset ident) :=
  let s := getSetMembers (_kvstore st) k ∩ identities in
  if decide (s = ∅) then None else Some s.

(** The sets of the snapshot of a subscription: the index keys in [sets]
    are keys that a subscribed type visits, and a key that a subscribed
    type visits has the entry that a round of a subscribed type that visits
    it has left: the set of the store under the key, cut down to the
    matching identities of that type, when it is not empty. *)
Definition sets_of (st : Server) (schema_name : string)
    (definition : SchemaDefinition) (fv : option (string * string))
    (types : list string) (sets : gmap key (gset ident)) : Prop :=
  (∀ k s, sets !! k = Some s →
          ∃ t, visits st schema_name definition types k t
               ∧ set_entry st k (matching_identities st schema_name t fv)
                 = Some s)
  ∧ (∀ k t, visits st schema_name definition types k t →
            ∃ t', visits st schema_name definition types k t'
                  ∧ sets !! k
                    = set_entry st k
                        (matching_identities st schema_name t' fv)).

End Blocks.

(** ** Runs of the server on the store in memory *)

Section Scenarios.
#[local] Existing Instances colon_keys mem_store.

(** A server started on an empty store. *)
Definition fresh_server : Server := init empty_store.

(** Channel 1 connects, declares schema "S" with the types "T" and "U",
    and subscribes to the whole type "T". *)
Definition typeT : TypeDefinition := mkTypeDefinition ["name"] ["color"].

Definition schemaS : SchemaDefinition := {["T" := typeT; "U" := typeT]}.

Definition S_connected : Server := addConnection 0 "idA" 1%nat fresh_server.

Definition S_defined : Server :=
  (onClientToServerMessage 0 1%nat (DefineSchema "S" schemaS) S_connected).1.

Definition S_subscribed : Server :=
  (onClientToServerMessage 0 1%nat (Subscribe "S" (Some "T") None)
     S_defined).1.

(** The channel is dropped. *)
Definition S_dropped : Server := (dropConnection 1%nat S_subscribed).1.

(** Channel 1 connects, declares schema "core" with the type "Connection",
    subscribes to the index of the connections that exist, and declares
    schema "core" again, now without the type. *)
Definition core_connected : Server := addConnection 0 "idA" 1%nat fresh_server.

Definition core_defined : Server :=
  (onClientToServerMessage 0 1%nat
     (DefineSchema "core"
        {["Connection" := mkTypeDefinition [] [" exists"]]})
     core_connected).1.

Definition core_subscribed : Server :=
  (onClientToServerMessage 0 1%nat
     (Subscribe "core" (Some "Connection") (Some (" exists", "True")))
     core_defined).1.

Definition core_redefined : Server :=
  (onClientToServerMessage 0 1%nat (DefineSchema "core" ∅)
     core_subscribed).1.

(** Channel 1, which has declared schema "S" and is subscribed to nothing,
    creates object "id3" of type "T".  The transaction depends on the cell
    of its own connection as of version 0; the cell was written by
    transaction 1, so the transaction conflicts. *)
Definition conflicting_commit : Server * result bool :=
  _handleNewTransaction (Some 1%nat)
    {["D:S:T:id3:name" := Some "alice"]}
    {["I:S:T: exists:True" := {["id3"]}]}
    ∅ ["D:core:Connection:idA: exists"] [] 0 S_defined.

(** The same transaction without the dependency, as of version 1. *)
Definition creating_commit : Server * result bool :=
  _handleNewTransaction (Some 1%nat)
    {["D:S:T:id3:name" := Some "alice"]}
    {["I:S:T: exists:True" := {["id3"]}]}
    ∅ [] [] 1 S_defined.

(** A transaction with an entry of [set_adds] that adds nothing. *)
Definition empty_add_commit : Server * result bool :=
  _handleNewTransaction (Some 1%nat) ∅ {["I:S:T: exists:True" := ∅]}
    ∅ [] [] 1 S_defined.

(** A transaction as of version 7, which the server has not reached. *)
Definition early_commit : Server * result bool :=
  _handleNewTransaction (Some 1%nat) ∅ {["I:S:T: exists:True" := {["id3"]}]}
    ∅ [] [] 7 S_defined.

(** The transaction that conflicted, sent again as of version 2. *)
Definition commit_after_conflict : Server * result bool :=
  _handleNewTransaction (Some 1%nat)
    {["D:S:T:id3:name" := Some "alice"]}
    {["I:S:T: exists:True" := {["id3"]}]}
    ∅ [] [] 2 conflicting_commit.1.
End Scenarios.

(** ** More predicates on states and messages *)

Section MorePredicates.
Context `{KM : KeyMapping} `{KV : KVStore}.

(** A [Transaction] message with the given id. *)
Definition is_Transaction (t : Z) (msg : ServerToClient) : Prop :=
  match msg with
  | Transaction _ _ _ t' => t' = t
  | _ => False
  end.

(** Between two states every channel has been written
    [SubscriptionIncrease] messages only. *)
Definition announces (st st' : Server) : Prop :=
  ∀ c, ∃ l, written st' c = written st c ++ l
            ∧ Forall is_SubscriptionIncrease l.

(** The counter has not gone below zero and the version numbers are ids of
    transactions: they lie between 1 and the counter. *)
Definition versions_in_range (st : Server) : Prop :=
  0 ≤ _cur_transaction_num st
  ∧ ∀ k v, _version_numbers st !! k = Some v →
           1 ≤ v ≤ _cur_transaction_num st.

(** The effect of one operation of the server on the counter and on the
    version numbers: no transaction, or one, which takes the next id and
    stamps some keys with it. *)
Definition versions_advance (st st' : Server) : Prop :=
  (_cur_transaction_num st' = _cur_transaction_num st
   ∧ _version_numbers st' = _version_numbers st)
  ∨ (_cur_transaction_num st' = _cur_transaction_num st + 1
     ∧ ∀ k, _version_numbers st' !! k = _version_numbers st !! k
            ∨ _version_numbers st' !! k = Some (_cur_transaction_num st + 1)).

(** An entry of a dictionary of index sets [m] that puts an identity of
    reverse key [r] under value hash [valuehash]: the entry has an index
    key of some field with that hash, and [r] is the reverse key of one of
    its identities for that field. *)
Definition points_to (m : gmap key (gset ident)) (r : key)
    (valuehash : value) : Prop :=
  ∃ indexKey identities ident_ fieldname,
    m !! indexKey = Some identities
    ∧ ident_ ∈ identities
    ∧ split_index_key_to_fieldname_and_hash indexKey = (fieldname, valuehash)
    ∧ r = data_reverse_index_key ident_ fieldname.

(** The channel [c] has defined the schema of index key [k], and the
    definition has the type of [k]: what
    [_increaseBroadcastTransactionToInclude] looks up. *)
Definition knows_the_type_of (st : Server) (c : chan) (k : key) : Prop :=
  let '(schema_name, typename, fieldname, fieldval) :=
    split_index_key_full k in
  match definedSchemas (objects st c) !! schema_name with
  | Some definition => is_Some (definition !! typename)
  | None => False
  end.
End MorePredicates.

(** ** More runs of the server on the store in memory *)

Section MoreScenarios.
#[local] Existing Instances colon_keys mem_store.

(** Channel 1, subscribed to type "T" of schema "S", is the subscriber
    of a transaction without a writer that creates object "id3". *)
Definition announced_commit : Server * result bool :=
  _handleNewTransaction None
    {["D:S:T:id3:name" := Some "alice"]}
    {["I:S:T: exists:True" := {["id3"]}]}
    ∅ [] [] 1 S_subscribed.

(** Channel 1, which has declared schema "S", subscribes to the objects
    of type "T" whose color is red; a transaction without a writer then
    puts object "id3" under that index key. *)
Definition slice_subscribed : Server :=
  (onClientToServerMessage 0 1%nat
     (Subscribe "S" (Some "T") (Some ("color", "red"))) S_defined).1.

Definition slice_commit : Server * result bool :=
  _handleNewTransaction None ∅ {["I:S:T:color:red" := {["id3"]}]} ∅ [] [] 1
    slice_subscribed.

(** A transaction that read the name of "id3" as of version 1, sent after
    the transaction that created "id3" was committed with id 2. *)
Definition stale_commit : Server * result bool :=
  _handleNewTransaction (Some 1%nat)
    {["D:S:T:id3:name" := Some "bob"]} ∅ ∅ ["D:S:T:id3:name"] [] 1
    creating_commit.1.

(** Channel 1 creates the red object "id3" of type "T", and then
    subscribes to the type. *)
Definition colored_commit : Server * result bool :=
  _handleNewTransaction (Some 1%nat)
    {["D:S:T:id3:name" := Some "alice"]}
    {["I:S:T: exists:True" := {["id3"]}; "I:S:T:color:red" := {["id3"]}]}
    ∅ [] [] 1 S_defined.

Definition colored_subscribed : Server * result unit :=
  _handleSubscription 1%nat "S" (Some "T") None colored_commit.1.
End MoreScenarios.

(** * Properties *)

(** A decidable fact about a run is settled by computing. *)
Ltac by_computing := apply (bool_decide_unpack _); vm_compute; exact I.

Lemma foldl_invariant {A B} (P : B → Prop) (f : B → A → B) (l : list A) (b : B) :
  P b → (∀ b a, a ∈ l → P b → P (f b a)) → P (foldl f b l).
Proof.
  revert b. induction l as [|x l IH]; intros b Hb Hf; simpl; [done|].
  apply IH.
  - apply Hf; [left | done].
  - intros b' a Ha. apply Hf. by right.
Qed.

(** ** Dictionaries of sets *)

Section BucketFacts.
Context {K E : Type} {EqK : EqDecision K} {CK : Countable K}
  {EqE : EqDecision E} {CE : Countable E}.
Implicit Types (m : gmap K (gset E)) (k : K) (e : E).

Lemma bucket_empty k : bucket (∅ : gmap K (gset E)) k = ∅.
Proof. unfold bucket. by rewrite lookup_empty. Qed.

Lemma bucket_Some m k s : m !! k = Some s → bucket m k = s.
Proof. unfold bucket. by intros ->. Qed.

Lemma bucket_elem_is_Some m k e : e ∈ bucket m k → is_Some (m !! k).
Proof.
  unfold bucket. destruct (m !! k); [eauto|]. simpl. set_solver.
Qed.

Lemma bucket_setdefault_add m k e k' :
  bucket (setdefault_add k e m) k' =
  if decide (k' = k) then bucket m k ∪ {[e]} else bucket m k'.
Proof.
  unfold setdefault_add, bucket at 1. case_decide as Hk.
  - subst. by rewrite lookup_insert_eq.
  - by rewrite lookup_insert_ne.
Qed.

Lemma elem_of_bucket_setdefault_add m k e k' e' :
  e' ∈ bucket (setdefault_add k e m) k' ↔
  e' ∈ bucket m k' ∨ (k' = k ∧ e' = e).
Proof.
  rewrite bucket_setdefault_add. case_decide; subst; set_solver.
Qed.

Lemma bucket_discard m k e k' :
  bucket (discard k e m) k' =
  if decide (k' = k) then bucket m k ∖ {[e]} else bucket m k'.
Proof.
  unfold discard, bucket at 1. case_decide as Hk.
  - subst. by rewrite lookup_insert_eq.
  - by rewrite lookup_insert_ne.
Qed.

Lemma bucket_discard_del m k e k' :
  bucket (discard_del k e m) k' =
  if decide (k' = k) then bucket m k ∖ {[e]} else bucket m k'.
Proof.
  unfold discard_del. cbv zeta. destruct (decide (bucket m k ∖ {[e]} = ∅)) as [He|He].
  - unfold bucket at 1. case_decide as Hk.
    + subst. by rewrite lookup_delete_eq, He.
    + by rewrite lookup_delete_ne.
  - unfold bucket at 1. case_decide as Hk.
    + subst. by rewrite lookup_insert_eq.
    + by rewrite lookup_insert_ne.
Qed.

Lemma lookup_discard_ne m k e k' : k' ≠ k → discard k e m !! k' = m !! k'.
Proof. intros. unfold discard. by rewrite lookup_insert_ne. Qed.

Lemma lookup_discard_del_ne m k e k' :
  k' ≠ k → discard_del k e m !! k' = m !! k'.
Proof.
  intros. unfold discard_del. cbv zeta. case_decide.
  - by rewrite lookup_delete_ne.
  - by rewrite lookup_insert_ne.
Qed.

(** A bucket that [discard_del] leaves in the map is not empty. *)
Lemma discard_del_nonempty m k e k' s :
  (∀ k s, m !! k = Some s → s ≠ ∅) →
  discard_del k e m !! k' = Some s → s ≠ ∅.
Proof.
  intros Hm. unfold discard_del. cbv zeta. case_decide as He.
  - destruct (decide (k' = k)) as [->|Hk].
    + by rewrite lookup_delete_eq.
    + rewrite lookup_delete_ne by done. apply Hm.
  - destruct (decide (k' = k)) as [->|Hk].
    + rewrite lookup_insert_eq. by intros [= <-].
    + rewrite lookup_insert_ne by done. apply Hm.
Qed.

Lemma setdefault_add_nonempty m k e k' s :
  (∀ k s, m !! k = Some s → s ≠ ∅) →
  setdefault_add k e m !! k' = Some s → s ≠ ∅.
Proof.
  intros Hm. unfold setdefault_add.
  destruct (decide (k' = k)) as [->|Hk].
  - rewrite lookup_insert_eq. intros [= <-]. set_solver.
  - rewrite lookup_insert_ne by done. apply Hm.
Qed.

(** [for k in l: m.setdefault(k, set()).add(e)] *)
Lemma bucket_foldl_setdefault_add m (l : list K) e k' :
  bucket (foldl (λ m k, setdefault_add k e m) m l) k' =
  if decide (k' ∈ l) then bucket m k' ∪ {[e]} else bucket m k'.
Proof.
  revert m. induction l as [|k l IH]; intros m.
  - rewrite decide_False by apply not_elem_of_nil. done.
  - change (foldl ?f ?a (?x :: ?t)) with (foldl f (f a x) t).
    rewrite IH, !bucket_setdefault_add.
    destruct (decide (k' = k)) as [->|Hk].
    + rewrite (decide_True (P:=k ∈ k :: l)) by left.
      destruct (decide (k ∈ l)); set_solver.
    + destruct (decide (k' ∈ l)) as [Hl|Hl].
      * by rewrite decide_True by (by right).
      * rewrite decide_False; [done|].
        intros [?|?]%elem_of_cons; done.
Qed.

(** [for k in l: m[k].discard(e)] *)
Lemma bucket_foldl_discard m (l : list K) e k' :
  bucket (foldl (λ m k, discard k e m) m l) k' =
  if decide (k' ∈ l) then bucket m k' ∖ {[e]} else bucket m k'.
Proof.
  revert m. induction l as [|k l IH]; intros m.
  - rewrite decide_False by apply not_elem_of_nil. done.
  - change (foldl ?f ?a (?x :: ?t)) with (foldl f (f a x) t).
    rewrite IH, !bucket_discard.
    destruct (decide (k' = k)) as [->|Hk].
    + rewrite (decide_True (P:=k ∈ k :: l)) by left.
      destruct (decide (k ∈ l)); set_solver.
    + destruct (decide (k' ∈ l)) as [Hl|Hl].
      * by rewrite decide_True by (by right).
      * rewrite decide_False; [done|].
        intros [?|?]%elem_of_cons; done.
Qed.

(** [for k in l: m[k].discard(e); if not m[k]: del m[k]] *)
Lemma bucket_foldl_discard_del m (l : list K) e k' :
  bucket (foldl (λ m k, discard_del k e m) m l) k' =
  if decide (k' ∈ l) then bucket m k' ∖ {[e]} else bucket m k'.
Proof.
  revert m. induction l as [|k l IH]; intros m.
  - rewrite decide_False by apply not_elem_of_nil. done.
  - change (foldl ?f ?a (?x :: ?t)) with (foldl f (f a x) t).
    rewrite IH, !bucket_discard_del.
    destruct (decide (k' = k)) as [->|Hk].
    + rewrite (decide_True (P:=k ∈ k :: l)) by left.
      destruct (decide (k ∈ l)); set_solver.
    + destruct (decide (k' ∈ l)) as [Hl|Hl].
      * by rewrite decide_True by (by right).
      * rewrite decide_False; [done|].
        intros [?|?]%elem_of_cons; done.
Qed.

Lemma foldl_discard_del_nonempty m (l : list K) e :
  (∀ k s, m !! k = Some s → s ≠ ∅) →
  ∀ k s, foldl (λ m k, discard_del k e m) m l !! k = Some s → s ≠ ∅.
Proof.
  intros Hm. apply (foldl_invariant (λ m, ∀ k s, m !! k = Some s → s ≠ ∅));
    [done|].
  intros m' k _ Hm' k' s. by apply discard_del_nonempty.
Qed.
End BucketFacts.

(** ** The blocks of a commit *)

Section Commit.
Context `{KM : KeyMapping} `{KV : KVStore}.
Implicit Types (st : Server) (c : chan).

Lemma objects_modify_channel c f st c' :
  objects (modify_channel c f st) c' =
  if decide (c' = c) then f (objects st c) else objects st c'.
Proof.
  unfold modify_channel. simpl. case_decide as Hc.
  - subst. apply fn_lookup_insert.
  - by apply fn_lookup_insert_ne.
Qed.

Lemma written_write c msg st c' :
  written (write c msg st) c' =
  if decide (c' = c) then written st c ++ [msg] else written st c'.
Proof.
  unfold write. simpl. case_decide as Hc.
  - subst. apply fn_lookup_insert.
  - by apply fn_lookup_insert_ne.
Qed.

Lemma expands_refl st : expands st st.
Proof. by split. Qed.

Lemma expands_trans st1 st2 st3 :
  expands st1 st2 → expands st2 st3 → expands st1 st3.
Proof.
  intros H12 H23. split.
  1-6: by destruct H12, H23; congruence.
  - intros i. etrans; [apply H12 | apply H23].
  - intros c. etrans; [apply H12 | apply H23].
  - intros c. destruct (expands_objects _ _ H12 c), (expands_objects _ _ H23 c).
    split; [congruence | set_solver].
Qed.

Lemma expands_write c msg st : expands st (write c msg st).
Proof.
  split; try done. intros c'. rewrite written_write.
  case_decide; subst; [by apply prefix_app_r | done].
Qed.

Lemma expands_broadcastSubscriptionIncrease c k ids st :
  expands st (_broadcastSubscriptionIncrease c k ids st).
Proof.
  unfold _broadcastSubscriptionIncrease.
  destruct (split_index_key_full k) as [[[??]?]?]. apply expands_write.
Qed.

Lemma expands_enrol_identity c i st : expands st (enrol_identity c i st).
Proof.
  unfold enrol_identity. split; try done.
  - intros i'. simpl. rewrite bucket_setdefault_add.
    case_decide; subst; set_solver.
  - intros c'. rewrite objects_modify_channel. simpl.
    case_decide; subst; [|done]. split; [done | set_solver].
Qed.

Lemma expands_foldl {A} (f : Server → A → Server) (l : list A) st :
  (∀ st a, expands st (f st a)) → expands st (foldl f st l).
Proof.
  intros Hf. apply (foldl_invariant (expands st)); [apply expands_refl|].
  intros st' a _ Hst'. eapply expands_trans; [done | apply Hf].
Qed.

Lemma expands_writer_expansion_entry c st entry :
  expands st (writer_expansion_entry c st entry).
Proof.
  unfold writer_expansion_entry. destruct entry as [add_index added_identities].
  destruct (split_index_key_full add_index)
    as [[[schema_name typename_] fieldname] fieldval].
  destruct (decide (fieldname = " exists")); [|apply expands_refl].
  destruct (decide (_ ∈ _)); [apply expands_refl|].
  eapply expands_trans; [|apply expands_broadcastSubscriptionIncrease].
  eapply expands_trans; [|apply expands_foldl].
  - split; try done. intros c'. rewrite objects_modify_channel.
    case_decide; subst; [|done]. split; [done | simpl; set_solver].
  - intros st'' new_id. split; try done.
    intros i'. simpl. rewrite bucket_setdefault_add.
    case_decide; subst; set_solver.
Qed.

Lemma expands_writer_expansion c set_adds st :
  expands st (writer_expansion c set_adds st).
Proof.
  unfold writer_expansion. apply expands_foldl.
  intros. apply expands_writer_expansion_entry.
Qed.

Lemma expands_expand_channel index_key_ adds st ids c :
  expands st (expand_channel index_key_ adds (st, ids) c).1.
Proof.
  unfold expand_channel. simpl.
  eapply expands_trans; [|apply expands_broadcastSubscriptionIncrease].
  apply expands_foldl. intros. apply expands_enrol_identity.
Qed.

Lemma expands_foldl_expand_channel index_key_ adds l st ids :
  expands st (foldl (expand_channel index_key_ adds) (st, ids) l).1.
Proof.
  apply (foldl_invariant (λ acc, expands st acc.1)); [apply expands_refl|].
  intros [st1 ids1] c _ Hst1. eapply expands_trans; [exact Hst1|].
  apply expands_expand_channel.
Qed.

Lemma expands_index_expansion index_keys key_value set_adds st :
  expands st (index_expansion index_keys key_value set_adds st).1.
Proof.
  revert key_value set_adds st.
  induction index_keys as [|k ks IH]; intros key_value set_adds st; simpl.
  - apply expands_refl.
  - unfold bind, get. simpl.
    destruct (_index_to_channel st !! k) as [channels|]; [|apply IH].
    pose proof (expands_foldl_expand_channel k (bucket set_adds k)
                  (elements channels) st ∅) as Hexp.
    destruct (foldl _ _ _) as [st' ids]. simpl in Hexp.
    unfold modify. simpl.
    destruct (last (elements channels)) as [channel|].
    2: { eapply expands_trans; [done | apply IH]. }
    case_decide.
    2: { eapply expands_trans; [done | apply IH]. }
    destruct (_increaseBroadcastTransactionToInclude _ _ _ _ _ _)
      as [[kv' sa']|e]; simpl.
    + eapply expands_trans; [done | apply IH].
    + done.
Qed.

Lemma expands_broadcast channels msg st :
  expands st (broadcast channels msg st).
Proof.
  unfold broadcast. apply expands_foldl. intros. apply expands_write.
Qed.

Lemma handleNewTransaction_unfold sourceChannel key_value set_adds set_removes
    keys_to_check_versions indices_to_check_versions as_of_version st :
  _handleNewTransaction sourceChannel key_value set_adds set_removes
    keys_to_check_versions indices_to_check_versions as_of_version st =
  let t := _cur_transaction_num st + 1 in
  if decide (t > as_of_version) then
    let st2 := before_check sourceChannel set_adds st in
    if conflict (_version_numbers st2)
         (keys_to_check_versions ++ indices_to_check_versions) as_of_version
    then (st2, Return false)
    else
      let sa := drop_empty set_adds in
      let sr := drop_empty set_removes in
      match index_expansion (map_to_list sa).*1 key_value sa
              (after_store key_value set_adds set_removes t st2) with
      | (st5, Return (key_value', set_adds')) =>
          (broadcast
             (channelsTriggered (schemaTypePairsWriting key_value sa sr)
                (identities_mentioned key_value sa sr) st5)
             (Transaction key_value' set_adds' sr t) st5,
           Return true)
      | (st5, Raise e) => (st5, Raise e)
      end
  else (set_cur_transaction_num t st, Raise AssertionError).
Proof.
  unfold _handleNewTransaction, bind, modify, get, ret, raise, before_check,
    after_store.
  simpl. destruct (decide _) as [Ht|Ht]; [|done].
  destruct sourceChannel as [c|]; simpl.
  - destruct (conflict _ _ _); [done|].
    destruct (index_expansion _ _ _ _) as [st5 [[kv' sa']|e]]; done.
  - destruct (conflict _ _ _); [done|].
    destruct (index_expansion _ _ _ _) as [st5 [[kv' sa']|e]]; done.
Qed.

Lemma expands_before_check sourceChannel set_adds st :
  expands (set_cur_transaction_num (_cur_transaction_num st + 1) st)
    (before_check sourceChannel set_adds st).
Proof.
  unfold before_check. destruct sourceChannel.
  - apply expands_writer_expansion.
  - apply expands_refl.
Qed.

(** The expansion of the index subscriptions raises nothing but the
    [AttributeError] of [_increaseBroadcastTransactionToInclude]. *)
Lemma index_expansion_raises index_keys key_value set_adds st e :
  (index_expansion index_keys key_value set_adds st).2 = Raise e →
  e = AttributeError.
Proof.
  revert key_value set_adds st.
  induction index_keys as [|k ks IH]; intros key_value set_adds st; simpl.
  - done.
  - unfold bind, get, modify. simpl.
    destruct (_index_to_channel st !! k) as [channels|]; [|apply IH].
    destruct (foldl _ _ _) as [st' ids].
    destruct (last (elements channels)) as [channel|]; [|apply IH].
    case_decide; [|apply IH].
    unfold _increaseBroadcastTransactionToInclude.
    destruct (split_index_key_full k) as [[[??]?]?].
    destruct (definedSchemas _ !! _) as [definition|]; simpl;
      [|by intros [= <-]].
    destruct (definition !! _) as [typedef|]; simpl; [|by intros [= <-]].
    apply IH.
Qed.

(** The three ways through [_handleNewTransaction]. *)
Lemma handleNewTransaction_cases sourceChannel key_value set_adds set_removes
    keys_to_check_versions indices_to_check_versions as_of_version st :
  let t := _cur_transaction_num st + 1 in
  let call := _handleNewTransaction sourceChannel key_value set_adds
                set_removes keys_to_check_versions
                indices_to_check_versions as_of_version st in
  let checks := keys_to_check_versions ++ indices_to_check_versions in
  (¬ t > as_of_version ∧ call.2 = Raise AssertionError
   ∧ call.1 = set_cur_transaction_num t st)
  ∨ (t > as_of_version
     ∧ conflict (_version_numbers st) checks as_of_version = true
     ∧ call.2 = Return false
     ∧ call.1 = before_check sourceChannel set_adds st)
  ∨ (t > as_of_version
     ∧ conflict (_version_numbers st) checks as_of_version = false
     ∧ (call.2 = Return true ∨ call.2 = Raise AttributeError)
     ∧ expands (after_store key_value set_adds set_removes t
                  (before_check sourceChannel set_adds st)) call.1).
Proof.
  intros t call checks. subst call.
  rewrite handleNewTransaction_unfold. cbv zeta. fold t. fold checks.
  destruct (decide (t > as_of_version)) as [Ht|Ht]; [|by left].
  right.
  rewrite (expands_version_numbers _ _
             (expands_before_check sourceChannel set_adds st)).
  simpl.
  destruct (conflict _ _ _) eqn:Hc; [by left | right].
  split; [done|]. split; [done|].
  pose proof (expands_index_expansion
                (map_to_list (drop_empty set_adds)).*1 key_value
                (drop_empty set_adds)
                (after_store key_value set_adds set_removes t
                   (before_check sourceChannel set_adds st))) as Hexp.
  pose proof (index_expansion_raises
                (map_to_list (drop_empty set_adds)).*1 key_value
                (drop_empty set_adds)
                (after_store key_value set_adds set_removes t
                   (before_check sourceChannel set_adds st))) as Hr.
  destruct (index_expansion _ _ _ _) as [st5 [[kv' sa']|e]]; simpl in *.
  - split; [by left|]. eapply expands_trans; [done | apply expands_broadcast].
  - split; [right; f_equal; by apply Hr | done].
Qed.

Lemma conflict_true version_numbers checks as_of_version :
  conflict version_numbers checks as_of_version = true ↔
  ∃ k, k ∈ checks ∧ as_of_version < default (-1) (version_numbers !! k).
Proof.
  unfold conflict. rewrite existsb_exists. split.
  - intros (k & Hin & Hk). exists k. split; [by apply list_elem_of_In|].
    by apply bool_decide_eq_true in Hk.
  - intros (k & Hin & Hk). exists k. split; [by apply list_elem_of_In|].
    by apply bool_decide_eq_true.
Qed.
End Commit.

(** ** The subscription handler *)

Section Subscribe.
Context `{KM : KeyMapping} `{KV : KVStore}.
Implicit Types (st : Server) (c : chan).

Lemma subscribes_refl st : subscribes st st.
Proof. by split. Qed.

Lemma subscribes_trans st1 st2 st3 :
  subscribes st1 st2 → subscribes st2 st3 → subscribes st1 st3.
Proof.
  intros H12 H23. split.
  1-5: by destruct H12, H23; congruence.
  intros c. etrans; [apply H23 | apply H12].
Qed.

Lemma subscribes_enrol_identity c i st : subscribes st (enrol_identity c i st).
Proof.
  unfold enrol_identity. split; try done.
  intros c'. rewrite objects_modify_channel. by case_decide; subst.
Qed.

Lemma subscribes_fanout c schema_name typename fv identities st :
  subscribes st (subscribe_fanout c schema_name typename fv identities st).
Proof.
  unfold subscribe_fanout. destruct fv as [[fieldname fieldval]|].
  - assert (subscribes st
              (foldl (λ st ident_, enrol_identity c ident_ st) st
                 (elements identities))) as Hfold.
    { apply (foldl_invariant (subscribes st)); [apply subscribes_refl|].
      intros st' i _ Hst'. eapply subscribes_trans; [done|].
      apply subscribes_enrol_identity. }
    case_decide; [|done].
    eapply subscribes_trans; [done|]. split; try done.
    intros c'. rewrite objects_modify_channel. by case_decide; subst.
  - split; try done.
    intros c'. rewrite objects_modify_channel. by case_decide; subst.
Qed.

(** One round of the loop over the types: the assertion on the type, the
    snapshot of the type and the update of the fan-out maps. *)
Lemma subscribe_type_cases c schema_name definition fv acc typename st :
  let call := subscribe_type c schema_name definition fv acc typename st in
  (definition !! typename = None ∧ call = (st, Raise AssertionError))
  ∨ (is_Some (definition !! typename)
     ∧ call.1 = subscribe_fanout c schema_name typename fv
                  (matching_identities st schema_name typename fv) st
     ∧ ∃ kvs sets,
         call.2 = Return (kvs, sets,
                          matching_identities st schema_name typename fv)).
Proof.
  destruct acc as [[kvs sets] ids0]. intros call. subst call.
  unfold subscribe_type, matching_identities.
  destruct (definition !! typename) as [typedef|]; [right | by left].
  split; [by eexists|].
  destruct (match fv with Some fv0 => fv0 | None => _ end) as [field val].
  unfold bind, get, modify, ret. simpl. split; [done|]. by eexists _, _.
Qed.

Lemma subscribes_subscribe_types c schema_name definition fv acc types st :
  subscribes st (subscribe_types c schema_name definition fv acc types st).1.
Proof.
  revert acc st. induction types as [|t types IH]; intros acc st; simpl.
  - apply subscribes_refl.
  - unfold bind.
    destruct (subscribe_type_cases c schema_name definition fv acc t st)
      as [(_ & ->)|(_ & Hst & kvs & sets & Hr)].
    + apply subscribes_refl.
    + destruct (subscribe_type _ _ _ _ _ _ _) as [st1 r]. simpl in *. subst.
      eapply subscribes_trans; [apply subscribes_fanout | apply IH].
Qed.

(** The loop raises exactly when it meets a type the definition lacks; it
    has then subscribed the types before it. *)
Lemma subscribe_types_returns c schema_name definition fv acc types st :
  (∀ t, t ∈ types → is_Some (definition !! t)) →
  ∃ snap, (subscribe_types c schema_name definition fv acc types st).2
          = Return snap.
Proof.
  revert acc st. induction types as [|t types IH]; intros acc st Hall; simpl.
  - by eexists.
  - unfold bind.
    destruct (subscribe_type_cases c schema_name definition fv acc t st)
      as [(Hnone & _)|(_ & Hst & kvs & sets & Hr)].
    + destruct (Hall t) as [? Hsome]; [left | congruence].
    + destruct (subscribe_type _ _ _ _ _ _ _) as [st1 r]. simpl in *. subst.
      apply IH. intros t' Ht'. apply Hall. by right.
Qed.

Lemma subscribe_types_raises c schema_name definition fv acc types st e :
  (subscribe_types c schema_name definition fv acc types st).2 = Raise e →
  e = AssertionError ∧ ∃ t, t ∈ types ∧ definition !! t = None.
Proof.
  revert acc st. induction types as [|t types IH]; intros acc st; simpl.
  - done.
  - unfold bind.
    destruct (subscribe_type_cases c schema_name definition fv acc t st)
      as [(Hnone & ->)|(_ & Hst & kvs & sets & Hr)].
    + simpl. intros [= <-]. split; [done|]. exists t. split; [left | done].
    + destruct (subscribe_type _ _ _ _ _ _ _) as [st1 r]. simpl in *. subst.
      intros (-> & t' & Ht' & Hnone)%IH. split; [done|].
      exists t'. split; [by right | done].
Qed.

(** The identities of the snapshot are those of the last type visited. *)
Lemma subscribe_types_singleton c schema_name definition fv acc t st snap :
  (subscribe_types c schema_name definition fv acc [t] st).2 = Return snap →
  snap.2 = matching_identities st schema_name t fv
  ∧ (subscribe_types c schema_name definition fv acc [t] st).1
    = subscribe_fanout c schema_name t fv
        (matching_identities st schema_name t fv) st.
Proof.
  simpl. unfold bind.
  destruct (subscribe_type_cases c schema_name definition fv acc t st)
    as [(_ & ->)|(_ & Hst & kvs & sets & Hr)]; [done|].
  destruct (subscribe_type _ _ _ _ _ _ _) as [st1 r]. simpl in *. subst.
  unfold ret. simpl. by intros [= <-].
Qed.

(** [_handleSubscription], assertion by assertion. *)
Lemma handleSubscription_unfold c schema_name typename fv st :
  _handleSubscription c schema_name typename fv st =
  match definedSchemas (objects st c) !! schema_name with
  | None => (st, Raise AssertionError)
  | Some definition =>
    match typename, fv with
    | None, Some _ => (st, Raise AssertionError)
    | _, _ =>
      match subscribe_types c schema_name definition fv (∅, ∅, ∅)
              (types_to_subscribe definition typename) st with
      | (st1, Return (kvs, sets, identities)) =>
        (write c
           (Subscription schema_name typename fv kvs sets
              (_cur_transaction_num st1)
              (match fv with
               | None => None
               | Some _ => Some (elements identities)
               end)) st1,
         Return tt)
      | (st1, Raise e) => (st1, Raise e)
      end
    end
  end.
Proof.
  unfold _handleSubscription, bind, get, modify, ret, raise,
    types_to_subscribe.
  destruct (definedSchemas (objects st c) !! schema_name) as [definition|];
    [|done].
  destruct typename as [t|], fv as [fv|]; cbv beta iota; try done.
  all: by destruct (subscribe_types _ _ _ _ _ _ _) as [st1 [[[kvs sets] ids]|e]].
Qed.

(** ** What the snapshot holds *)

Lemma lookup_update_zip_getSeveral (kv0 : kvstore) (keys : list key)
    (kvs : gmap key (option value)) k :
  update_zip keys (getSeveral kv0 keys) kvs !! k
  = if decide (k ∈ keys) then Some (kv_get kv0 k) else kvs !! k.
Proof.
  unfold update_zip, getSeveral. revert kvs.
  induction keys as [|k0 keys IH]; intros kvs.
  - by rewrite decide_False by apply not_elem_of_nil.
  - cbn [map zip zip_with].
    change (foldl ?f ?a (?x :: ?r)) with (foldl f (f a x) r). rewrite IH.
    cbn [fst snd].
    destruct (decide (k ∈ keys)) as [Hl|Hl].
    + by rewrite decide_True by (by right).
    + destruct (decide (k = k0)) as [->|Hk].
      * rewrite decide_True by left. apply lookup_insert_eq.
      * rewrite lookup_insert_ne by done. rewrite decide_False; [done|].
        by intros [?|?]%elem_of_cons.
Qed.

(** A value of the snapshot is the value of the store, and the cells of
    the fields of the identities are in the snapshot. *)
Lemma gather_values_sound kv0 schema_name typename typedef identities kvs :
  (∀ k v, kvs !! k = Some v → v = kv_get kv0 k) →
  ∀ k v, gather_values kv0 schema_name typename typedef identities kvs !! k
         = Some v → v = kv_get kv0 k.
Proof.
  intros Hkvs. unfold gather_values.
  apply (foldl_invariant (λ kvs, ∀ k v, kvs !! k = Some v → v = kv_get kv0 k));
    [done|].
  intros kvs' f _ Hkvs' k v. rewrite lookup_update_zip_getSeveral.
  case_decide; [by intros [= <-] | apply Hkvs'].
Qed.

Lemma gather_values_keeps kv0 schema_name typename typedef identities kvs k :
  kvs !! k = Some (kv_get kv0 k) →
  gather_values kv0 schema_name typename typedef identities kvs !! k
  = Some (kv_get kv0 k).
Proof.
  intros Hk. unfold gather_values.
  apply (foldl_invariant (λ kvs, kvs !! k = Some (kv_get kv0 k))); [done|].
  intros kvs' f _ Hkvs'. rewrite lookup_update_zip_getSeveral.
  by case_decide.
Qed.

Lemma gather_values_complete kv0 schema_name typename typedef identities kvs
    f i :
  f ∈ fields typedef → i ∈ identities →
  gather_values kv0 schema_name typename typedef identities kvs
  !! data_key_from_names schema_name typename i f
  = Some (kv_get kv0 (data_key_from_names schema_name typename i f)).
Proof.
  intros Hf Hi. unfold gather_values. revert kvs.
  induction (fields typedef) as [|f0 fs IH]; intros kvs;
    [by apply elem_of_nil in Hf|].
  change (foldl ?g ?a (?x :: ?r)) with (foldl g (g a x) r).
  apply elem_of_cons in Hf as [->|Hf]; [|by apply IH].
  apply (foldl_invariant
           (λ kvs, kvs !! data_key_from_names schema_name typename i f0
                   = Some (kv_get kv0
                             (data_key_from_names schema_name typename i f0)))).
  - rewrite lookup_update_zip_getSeveral, decide_True; [done|].
    apply list_elem_of_fmap. exists i. split; [done|].
    by apply elem_of_elements.
  - intros kvs' f _ Hkvs'. rewrite lookup_update_zip_getSeveral.
    by case_decide.
Qed.

(** A set of the snapshot is not empty and is part of the set of the
    store. *)
Lemma gather_sets_sound kv0 schema_name typename typedef identities sets :
  (∀ k s, sets !! k = Some s → s ≠ ∅ ∧ s ⊆ getSetMembers kv0 k) →
  ∀ k s, gather_sets kv0 schema_name typename typedef identities sets !! k
         = Some s → s ≠ ∅ ∧ s ⊆ getSetMembers kv0 k.
Proof.
  intros Hsets. unfold gather_sets.
  apply (foldl_invariant
           (λ sets, ∀ k s, sets !! k = Some s
                           → s ≠ ∅ ∧ s ⊆ getSetMembers kv0 k)); [done|].
  intros sets1 f _ Hsets1.
  apply (foldl_invariant
           (λ sets, ∀ k s, sets !! k = Some s
                           → s ≠ ∅ ∧ s ⊆ getSetMembers kv0 k)); [done|].
  intros sets2 iv _ Hsets2 k s. cbv zeta. case_decide as Hempty.
  - destruct (decide (k = index_group_and_hashval_to_index_key
                            (index_group schema_name typename f) iv))
      as [->|Hk].
    + by rewrite lookup_delete_eq.
    + rewrite lookup_delete_ne by done. apply Hsets2.
  - destruct (decide (k = index_group_and_hashval_to_index_key
                            (index_group schema_name typename f) iv))
      as [->|Hk].
    + rewrite lookup_insert_eq. intros [= <-]. split; [done | set_solver].
    + rewrite lookup_insert_ne by done. apply Hsets2.
Qed.

(** One round of the loop, for a type of the definition. *)
Lemma subscribe_type_returns c schema_name definition fv kvs sets ids0
    typename typedef st :
  definition !! typename = Some typedef →
  subscribe_type c schema_name definition fv (kvs, sets, ids0) typename st
  = (subscribe_fanout c schema_name typename fv
       (matching_identities st schema_name typename fv) st,
     Return
       (gather_values (_kvstore st) schema_name typename typedef
          (matching_identities st schema_name typename fv) kvs,
        gather_sets (_kvstore st) schema_name typename typedef
          (matching_identities st schema_name typename fv) sets,
        matching_identities st schema_name typename fv)).
Proof.
  intros Ht. unfold subscribe_type, matching_identities. rewrite Ht.
  by destruct (match fv with Some fv0 => fv0 | None => _ end) as [field val].
Qed.

Lemma matching_identities_ext st st' schema_name typename fv :
  _kvstore st' = _kvstore st →
  matching_identities st' schema_name typename fv
  = matching_identities st schema_name typename fv.
Proof. unfold matching_identities. by intros ->. Qed.

Lemma subscribe_types_snapshot c schema_name definition fv types st0 :
  ∀ done_ acc st snap,
    _kvstore st = _kvstore st0 →
    snapshot_of st0 schema_name definition fv done_ acc →
    (subscribe_types c schema_name definition fv acc types st).2
    = Return snap →
    snapshot_of st0 schema_name definition fv (done_ ++ types) snap.
Proof.
  induction types as [|t types IH]; intros done_ acc st snap Hkv Hacc.
  - simpl. intros [= <-]. by rewrite app_nil_r.
  - simpl. unfold bind. destruct acc as [[kvs sets] ids0].
    destruct (definition !! t) as [typedef|] eqn:Ht.
    2: { destruct (subscribe_type_cases c schema_name definition fv
                     (kvs, sets, ids0) t st)
           as [(_ & ->)|([? Hsome] & _)]; [done | congruence]. }
    rewrite (subscribe_type_returns _ _ _ _ _ _ _ _ _ _ Ht).
    intros Hsnap. replace (done_ ++ t :: types) with ((done_ ++ [t]) ++ types)
      by (by rewrite <- app_assoc).
    eapply IH; [| |exact Hsnap].
    + by rewrite (subscribes_kvstore _ _
                    (subscribes_fanout c schema_name t fv
                       (matching_identities st schema_name t fv) st)).
    + destruct Hacc as (Hsound & Hcomplete & Hsets). rewrite Hkv.
      rewrite (matching_identities_ext st0 st) by done.
      split; [|split]; cbn [fst snd].
      * by apply gather_values_sound.
      * intros t' typedef' f i [Ht'|Ht']%elem_of_app Hdef Hf Hi.
        -- apply gather_values_keeps. by eapply Hcomplete.
        -- apply list_elem_of_singleton in Ht' as ->.
           assert (typedef' = typedef) as -> by congruence.
           by apply gather_values_complete.
      * by apply gather_sets_sound.
Qed.
End Subscribe.

(** ** The subscription of the writer to the objects it creates *)

Section Writer.
Context `{KM : KeyMapping} `{KV : KVStore}.
Implicit Types (st : Server) (c : chan).

Lemma grows_refl st : grows st st.
Proof. by split. Qed.

Lemma grows_trans st1 st2 st3 : grows st1 st2 → grows st2 st3 → grows st1 st3.
Proof.
  intros H12 H23. split.
  1-3: by destruct H12, H23; congruence.
  - intros i. etrans; [apply H12 | apply H23].
  - intros c. etrans; [apply H12 | apply H23].
  - intros c. destruct (grows_objects _ _ H12 c), (grows_objects _ _ H23 c).
    split; [congruence | set_solver].
Qed.

Lemma expands_grows st st' : expands st st' → grows st st'.
Proof. intros []. by split. Qed.

Lemma grows_after_store key_value set_adds set_removes t st :
  grows st (after_store key_value set_adds set_removes t st).
Proof. by split. Qed.

Lemma grows_before_check sourceChannel set_adds st :
  grows st (before_check sourceChannel set_adds st).
Proof.
  eapply grows_trans;
    [|apply expands_grows, (expands_before_check sourceChannel set_adds st)].
  by split.
Qed.

(** Whatever a call of [_handleNewTransaction] does, the subscriptions and
    the messages of the state in which it checks the versions are kept. *)
Lemma handleNewTransaction_grows sourceChannel key_value set_adds set_removes
    keys_to_check_versions indices_to_check_versions as_of_version st :
  let call := _handleNewTransaction sourceChannel key_value set_adds
                set_removes keys_to_check_versions
                indices_to_check_versions as_of_version st in
  grows st call.1
  ∧ (_cur_transaction_num st + 1 > as_of_version →
     grows (before_check sourceChannel set_adds st) call.1).
Proof.
  intros call. subst call.
  destruct (handleNewTransaction_cases sourceChannel key_value set_adds
              set_removes keys_to_check_versions indices_to_check_versions
              as_of_version st)
    as [(Ht & _ & ->)|[(_ & _ & _ & ->)|(_ & _ & _ & Hexp)]].
  - split; [by split | done].
  - split; [apply grows_before_check | intros; apply grows_refl].
  - assert (grows (before_check sourceChannel set_adds st)
              (_handleNewTransaction sourceChannel key_value set_adds
                 set_removes keys_to_check_versions
                 indices_to_check_versions as_of_version st).1) as Hg.
    { eapply grows_trans; [apply grows_after_store | by apply expands_grows]. }
    split; [|done]. eapply grows_trans; [apply grows_before_check | done].
Qed.

Lemma foldl_set_id_to_channel c (l : list ident) st :
  foldl (λ st new_id,
           set_id_to_channel
             (setdefault_add new_id c (_id_to_channel st)) st) st l
  = set_id_to_channel
      (foldl (λ m new_id, setdefault_add new_id c m) (_id_to_channel st) l) st.
Proof.
  revert st. induction l as [|i l IH]; intros st.
  - by destruct st.
  - change (foldl ?f ?a (?x :: ?t)) with (foldl f (f a x) t).
    by rewrite IH.
Qed.

(** An entry of [set_adds] that adds to the " exists" index of a type the
    writer is not subscribed to. *)
Lemma writer_expansion_entry_qualifies c st add_index added_identities
    schema_name typename fieldval :
  split_index_key_full add_index
  = (schema_name, typename, " exists", fieldval) →
  (schema_name, typename) ∉ subscribedTypes (objects st c) →
  writer_expansion_entry c st (add_index, added_identities)
  = write c
      (SubscriptionIncrease schema_name typename (" exists", fieldval)
         (elements added_identities))
      (set_id_to_channel
         (foldl (λ m new_id, setdefault_add new_id c m) (_id_to_channel st)
            (elements added_identities))
         (modify_channel c
            (λ cc, set_subscribedIds (subscribedIds cc ∪ added_identities) cc)
            st)).
Proof.
  intros Hsplit Htype. unfold writer_expansion_entry. rewrite Hsplit.
  rewrite decide_True by done. rewrite decide_False by done.
  rewrite foldl_set_id_to_channel.
  unfold _broadcastSubscriptionIncrease. by rewrite Hsplit.
Qed.

Lemma writer_expansion_entry_cases c st add_index added_identities :
  writer_expansion_entry c st (add_index, added_identities) = st
  ∨ ∃ schema_name typename fieldval,
      split_index_key_full add_index
      = (schema_name, typename, " exists", fieldval)
      ∧ (schema_name, typename) ∉ subscribedTypes (objects st c).
Proof.
  unfold writer_expansion_entry.
  destruct (split_index_key_full add_index)
    as [[[schema_name typename] fieldname] fieldval].
  destruct (decide (fieldname = " exists")) as [->|]; [|by left].
  destruct (decide (_ ∈ _)); [by left | right]. by eexists _, _, _.
Qed.

Lemma writer_only_refl c st : writer_only c st st.
Proof.
  split; try done; [set_solver|]. exists []. by rewrite app_nil_r.
Qed.

Lemma writer_only_trans c st1 st2 st3 :
  writer_only c st1 st2 → writer_only c st2 st3 → writer_only c st1 st3.
Proof.
  intros [Ho1 Hw1 Hi1 (l1 & Hl1 & HF1)] [Ho2 Hw2 Hi2 (l2 & Hl2 & HF2)]. split.
  - intros c' Hc'. by rewrite Ho2, Ho1.
  - intros c' Hc'. by rewrite Hw2, Hw1.
  - intros i. specialize (Hi1 i). specialize (Hi2 i). set_solver.
  - exists (l1 ++ l2). split; [|by apply Forall_app].
    by rewrite Hl2, Hl1, app_assoc.
Qed.

Lemma writer_only_writer_expansion_entry c st entry :
  writer_only c st (writer_expansion_entry c st entry).
Proof.
  destruct entry as [add_index added_identities].
  destruct (writer_expansion_entry_cases c st add_index added_identities)
    as [->|(schema_name & typename & fieldval & Hsplit & Htype)];
    [apply writer_only_refl|].
  rewrite (writer_expansion_entry_qualifies _ _ _ _ _ _ _ Hsplit Htype).
  split.
  - intros c' Hc'. simpl. by apply fn_lookup_insert_ne.
  - intros c' Hc'. simpl. by apply fn_lookup_insert_ne.
  - intros i. simpl. rewrite bucket_foldl_setdefault_add.
    case_decide; set_solver.
  - eexists [_]. simpl. rewrite fn_lookup_insert. split; [done|].
    by apply Forall_singleton.
Qed.

Lemma writer_only_writer_expansion c set_adds st :
  writer_only c st (writer_expansion c set_adds st).
Proof.
  unfold writer_expansion.
  apply (foldl_invariant (writer_only c st)); [apply writer_only_refl|].
  intros st' entry _ Hst'. eapply writer_only_trans; [done|].
  apply writer_only_writer_expansion_entry.
Qed.

(** The writer is subscribed to the identities of an entry that
    qualifies, and is told so. *)
Lemma writer_expansion_enrols c (entries : list (key * gset ident)) st
    add_index added_identities schema_name typename fieldval :
  (add_index, added_identities) ∈ entries →
  split_index_key_full add_index
  = (schema_name, typename, " exists", fieldval) →
  (schema_name, typename) ∉ subscribedTypes (objects st c) →
  let st' := foldl (writer_expansion_entry c) st entries in
  added_identities ⊆ subscribedIds (objects st' c)
  ∧ (∀ i, i ∈ added_identities → c ∈ bucket (_id_to_channel st') i)
  ∧ ∃ l1 l2,
      written st' c
      = written st c ++ l1
        ++ [SubscriptionIncrease schema_name typename (" exists", fieldval)
              (elements added_identities)] ++ l2.
Proof.
  intros Hin Hsplit. revert st.
  induction entries as [|entry entries IH]; intros st Htype;
    [by apply elem_of_nil in Hin|].
  change (foldl ?f ?a (?x :: ?t)) with (foldl f (f a x) t). cbv zeta.
  apply elem_of_cons in Hin as [<-|Hin].
  - pose proof (expands_foldl (writer_expansion_entry c) entries
                  (writer_expansion_entry c st (add_index, added_identities))
                  (expands_writer_expansion_entry c)) as Hexp.
    revert Hexp.
    rewrite (writer_expansion_entry_qualifies _ _ _ _ _ _ _ Hsplit Htype).
    intros Hexp.
    destruct (expands_objects _ _ Hexp c) as [_ Hids].
    pose proof (expands_id_to_channel _ _ Hexp) as Hbuckets.
    destruct (expands_written _ _ Hexp c) as [l2 Hl2].
    simpl in Hids, Hbuckets, Hl2.
    rewrite fn_lookup_insert in Hids. rewrite fn_lookup_insert in Hl2.
    simpl in Hids. split; [set_solver|]. split.
    + intros i Hi. apply Hbuckets. rewrite bucket_foldl_setdefault_add.
      rewrite decide_True by (by apply elem_of_elements). set_solver.
    + exists [], l2. by rewrite Hl2, <- !app_assoc.
  - pose proof (expands_writer_expansion_entry c st entry) as Hexp.
    destruct (IH Hin (writer_expansion_entry c st entry))
      as (Hids & Hbuckets & l1 & l2 & Hw).
    { destruct (expands_objects _ _ Hexp c) as [Heq _].
      apply (f_equal subscribedTypes) in Heq. simpl in Heq. by rewrite Heq. }
    split; [done|]. split; [done|].
    destruct (expands_written _ _ Hexp c) as [l0 Hl0].
    exists (l0 ++ l1), l2. by rewrite Hw, Hl0, <- !app_assoc.
Qed.
End Writer.

(** ** The invariants of the server *)

Section Invariant.
Context `{KM : KeyMapping} `{KV : KVStore}.
Implicit Types (st : Server) (c : chan).

(** [consistent] looks at the fan-out maps, at the connected channels and
    at the subscriptions of the channels only. *)
Lemma consistent_ext st st' :
  _clientChannels st' = _clientChannels st →
  _id_to_channel st' = _id_to_channel st →
  _type_to_channel st' = _type_to_channel st →
  _index_to_channel st' = _index_to_channel st →
  (∀ c, subscribedIds (objects st' c) = subscribedIds (objects st c)
        ∧ subscribedTypes (objects st' c) = subscribedTypes (objects st c)
        ∧ subscribedIndexKeys (objects st' c)
          = subscribedIndexKeys (objects st c)) →
  consistent st → consistent st'.
Proof.
  intros HCC Hid Hty Hix Hobj [Hi Ht Hk]. split.
  - intros c i. destruct (Hobj c) as (-> & _ & _). rewrite HCC, Hid. apply Hi.
  - intros c p. destruct (Hobj c) as (_ & -> & _). rewrite HCC, Hty. apply Ht.
  - intros c k. destruct (Hobj c) as (_ & _ & ->). rewrite HCC, Hix. apply Hk.
Qed.

Lemma consistent_write c msg st : consistent st → consistent (write c msg st).
Proof. by apply consistent_ext. Qed.

Lemma consistent_broadcastSubscriptionIncrease c k ids st :
  consistent st → consistent (_broadcastSubscriptionIncrease c k ids st).
Proof.
  unfold _broadcastSubscriptionIncrease.
  destruct (split_index_key_full k) as [[[??]?]?]. apply consistent_write.
Qed.

Lemma consistent_broadcast channels msg st :
  consistent st → consistent (broadcast channels msg st).
Proof.
  intros Hst. unfold broadcast. apply (foldl_invariant consistent); [done|].
  intros st' c _. apply consistent_write.
Qed.

Lemma consistent_enrol_identity c i st :
  c ∈ _clientChannels st → consistent st → consistent (enrol_identity c i st).
Proof.
  intros Hc [Hi Ht Hk]. unfold enrol_identity. split.
  - intros c' i'. rewrite objects_modify_channel. simpl.
    rewrite elem_of_bucket_setdefault_add, Hi.
    case_decide; subst; simpl; set_solver.
  - intros c' p. rewrite objects_modify_channel. simpl. rewrite Ht.
    by case_decide; subst.
  - intros c' k. rewrite objects_modify_channel. simpl. rewrite Hk.
    by case_decide; subst.
Qed.

Lemma consistent_foldl_enrol_identity c (l : list ident) st :
  c ∈ _clientChannels st → consistent st →
  consistent (foldl (λ st i, enrol_identity c i st) st l)
  ∧ _clientChannels (foldl (λ st i, enrol_identity c i st) st l)
    = _clientChannels st.
Proof.
  intros Hc Hst.
  apply (foldl_invariant
           (λ st', consistent st' ∧ _clientChannels st' = _clientChannels st));
    [done|].
  intros st' i _ [Hst' HCC]. split; [|done].
  apply consistent_enrol_identity; [by rewrite HCC | done].
Qed.

Lemma consistent_writer_expansion_entry c st entry :
  c ∈ _clientChannels st → consistent st →
  consistent (writer_expansion_entry c st entry).
Proof.
  intros Hc Hst. destruct entry as [add_index added_identities].
  destruct (writer_expansion_entry_cases c st add_index added_identities)
    as [->|(schema_name & typename & fieldval & Hsplit & Htype)]; [done|].
  rewrite (writer_expansion_entry_qualifies _ _ _ _ _ _ _ Hsplit Htype).
  apply consistent_write. destruct Hst as [Hi Ht Hk]. split.
  - intros c' i'. cbn [objects set_id_to_channel _id_to_channel _clientChannels].
    rewrite objects_modify_channel. simpl.
    rewrite bucket_foldl_setdefault_add.
    destruct (decide (i' ∈ elements added_identities)) as [Hin|Hin];
      rewrite elem_of_elements in Hin;
      case_decide; subst; simpl;
      repeat rewrite elem_of_union; rewrite ?Hi; set_solver.
  - intros c' p. cbn [objects set_id_to_channel].
    rewrite objects_modify_channel. simpl. rewrite Ht.
    by case_decide; subst.
  - intros c' k. cbn [objects set_id_to_channel].
    rewrite objects_modify_channel. simpl. rewrite Hk.
    by case_decide; subst.
Qed.

Lemma consistent_writer_expansion c set_adds st :
  c ∈ _clientChannels st → consistent st →
  consistent (writer_expansion c set_adds st).
Proof.
  intros Hc Hst. unfold writer_expansion.
  apply (foldl_invariant
           (λ st', consistent st' ∧ _clientChannels st' = _clientChannels st));
    [done|].
  intros st' entry _ [Hst' HCC]. split.
  - apply consistent_writer_expansion_entry; [by rewrite HCC | done].
  - by rewrite (expands_clientChannels _ _
                  (expands_writer_expansion_entry c st' entry)).
Qed.

Lemma consistent_expand_channel index_key_ adds st ids c :
  c ∈ _clientChannels st → consistent st →
  consistent (expand_channel index_key_ adds (st, ids) c).1.
Proof.
  intros Hc Hst. unfold expand_channel. simpl.
  apply consistent_broadcastSubscriptionIncrease.
  by apply consistent_foldl_enrol_identity.
Qed.

Lemma consistent_foldl_expand_channel index_key_ adds (l : list chan) st ids :
  (∀ c, c ∈ l → c ∈ _clientChannels st) → consistent st →
  consistent (foldl (expand_channel index_key_ adds) (st, ids) l).1.
Proof.
  intros Hl Hst.
  apply (foldl_invariant
           (λ acc, consistent acc.1 ∧ _clientChannels acc.1 = _clientChannels st));
    [done|].
  intros [st' ids'] c Hc [Hst' HCC]. cbn [fst] in *. split.
  - apply consistent_expand_channel; [rewrite HCC; by apply Hl | done].
  - by rewrite (expands_clientChannels _ _
                  (expands_expand_channel index_key_ adds st' ids' c)).
Qed.

Lemma consistent_index_expansion index_keys key_value set_adds st :
  consistent st →
  consistent (index_expansion index_keys key_value set_adds st).1.
Proof.
  revert key_value set_adds st.
  induction index_keys as [|k ks IH]; intros key_value set_adds st Hst; simpl.
  - done.
  - unfold bind, get. simpl.
    destruct (_index_to_channel st !! k) as [channels|] eqn:Hk; [|by apply IH].
    pose proof (consistent_foldl_expand_channel k (bucket set_adds k)
                  (elements channels) st ∅) as Hfold.
    destruct (foldl _ _ _) as [st' ids]. simpl in Hfold.
    assert (consistent st') as Hst'.
    { apply Hfold; [|done]. intros c Hc%elem_of_elements.
      apply (consistent_index_keys _ Hst c k).
      by rewrite (bucket_Some _ _ _ Hk). }
    unfold modify. simpl.
    destruct (last (elements channels)) as [channel|]; [|by apply IH].
    case_decide; [|by apply IH].
    destruct (_increaseBroadcastTransactionToInclude _ _ _ _ _ _)
      as [[kv' sa']|e]; simpl; [by apply IH | done].
Qed.

(** A commit keeps the fan-out maps and the subscriptions of the channels
    in step, for a writer that is connected. *)
Lemma consistent_handleNewTransaction sourceChannel key_value set_adds
    set_removes keys_to_check_versions indices_to_check_versions
    as_of_version st :
  (∀ c, sourceChannel = Some c → c ∈ _clientChannels st) →
  consistent st →
  consistent (_handleNewTransaction sourceChannel key_value set_adds
                set_removes keys_to_check_versions
                indices_to_check_versions as_of_version st).1.
Proof.
  intros Hsrc Hst.
  assert (consistent (before_check sourceChannel set_adds st)) as Hst2.
  { unfold before_check. destruct sourceChannel as [c|].
    - apply consistent_writer_expansion; [by apply Hsrc|].
      by apply (consistent_ext st).
    - by apply (consistent_ext st). }
  rewrite handleNewTransaction_unfold. cbv zeta.
  case_decide; [|by apply (consistent_ext st)].
  destruct (conflict _ _ _); [done|].
  pose proof (consistent_index_expansion
                (map_to_list (drop_empty set_adds)).*1 key_value
                (drop_empty set_adds)
                (after_store key_value set_adds set_removes
                   (_cur_transaction_num st + 1)
                   (before_check sourceChannel set_adds st))) as Hexp.
  destruct (index_expansion _ _ _ _) as [st5 [[kv' sa']|e]]; simpl in *.
  - apply consistent_broadcast, Hexp.
    by apply (consistent_ext (before_check sourceChannel set_adds st)).
  - apply Hexp.
    by apply (consistent_ext (before_check sourceChannel set_adds st)).
Qed.
End Invariant.

(** ** The connection registry and the dispatch of the messages *)

Section Registry.
Context `{KM : KeyMapping} `{KV : KVStore}.
Implicit Types (st : Server) (c : chan).

Lemma consistent_subscribe_fanout c schema_name typename fv identities st :
  c ∈ _clientChannels st → consistent st →
  consistent (subscribe_fanout c schema_name typename fv identities st).
Proof.
  intros Hc Hst. unfold subscribe_fanout.
  destruct fv as [[fieldname fieldval]|].
  - destruct (consistent_foldl_enrol_identity c (elements identities) st Hc Hst)
      as [[Hi Ht Hk] HCC].
    case_decide; [|by split]. split.
    + intros c' i. rewrite objects_modify_channel. simpl. rewrite Hi.
      by case_decide; subst.
    + intros c' p. rewrite objects_modify_channel. simpl. rewrite Ht.
      by case_decide; subst.
    + intros c' k. rewrite objects_modify_channel. simpl.
      rewrite elem_of_bucket_setdefault_add, Hk, HCC.
      case_decide; subst; simpl; set_solver.
  - destruct Hst as [Hi Ht Hk]. split.
    + intros c' i. rewrite objects_modify_channel. simpl. rewrite Hi.
      by case_decide; subst.
    + intros c' p. rewrite objects_modify_channel. simpl.
      rewrite elem_of_bucket_setdefault_add, Ht.
      case_decide; subst; simpl; set_solver.
    + intros c' k. rewrite objects_modify_channel. simpl. rewrite Hk.
      by case_decide; subst.
Qed.

Lemma consistent_subscribe_types c schema_name definition fv acc types st :
  c ∈ _clientChannels st → consistent st →
  consistent (subscribe_types c schema_name definition fv acc types st).1.
Proof.
  revert acc st. induction types as [|t types IH]; intros acc st Hc Hst; simpl.
  - done.
  - unfold bind.
    destruct (subscribe_type_cases c schema_name definition fv acc t st)
      as [(_ & ->)|(_ & Hst1 & kvs & sets & Hr)]; [done|].
    destruct (subscribe_type _ _ _ _ _ _ _) as [st1 r]. simpl in *. subst.
    apply IH.
    + by rewrite (subscribes_clientChannels _ _
                    (subscribes_fanout c schema_name t fv
                       (matching_identities st schema_name t fv) st)).
    + by apply consistent_subscribe_fanout.
Qed.

Lemma consistent_handleSubscription c schema_name typename fv st :
  c ∈ _clientChannels st → consistent st →
  consistent (_handleSubscription c schema_name typename fv st).1.
Proof.
  intros Hc Hst. rewrite handleSubscription_unfold.
  destruct (definedSchemas (objects st c) !! schema_name) as [definition|];
    [|done].
  pose proof (consistent_subscribe_types c schema_name definition fv
                (∅, ∅, ∅) (types_to_subscribe definition typename) st Hc Hst)
    as Hsub.
  destruct typename as [t|], fv as [fv|]; try done.
  all: destruct (subscribe_types _ _ _ _ _ _ _) as [st1 [[[kvs sets] ids]|e]];
    cbn [fst snd] in *; [by apply consistent_write | done].
Qed.

(** The loops of [dropConnection] raise no [KeyError] when the keys are in
    the maps. *)
Lemma forM_drop_type c (l : list (string * string)) st :
  (∀ p, p ∈ l → is_Some (_type_to_channel st !! p)) →
  forM_ (drop_type c) l st
  = (set_type_to_channel
       (foldl (λ m p, discard p c m) (_type_to_channel st) l) st, Return tt).
Proof.
  revert st. induction l as [|p l IH]; intros st Hl.
  - by destruct st.
  - change (foldl ?f ?a (?x :: ?t)) with (foldl f (f a x) t).
    cbn [forM_]. unfold bind at 1. unfold drop_type at 1.
    unfold bind, get, modify.
    destruct (Hl p) as [s Hs]; [left|]. rewrite Hs. rewrite IH; [done|].
    intros p' Hp'. simpl. destruct (decide (p' = p)) as [->|Hne].
    + unfold discard. rewrite lookup_insert_eq. by eexists.
    + rewrite lookup_discard_ne by done. apply Hl. by right.
Qed.

Lemma forM_drop_index_key c (l : list key) st :
  NoDup l →
  (∀ k, k ∈ l → is_Some (_index_to_channel st !! k)) →
  forM_ (drop_index_key c) l st
  = (set_index_to_channel
       (foldl (λ m k, discard_del k c m) (_index_to_channel st) l) st,
     Return tt).
Proof.
  revert st. induction l as [|k l IH]; intros st Hnd Hl.
  - by destruct st.
  - change (foldl ?f ?a (?x :: ?t)) with (foldl f (f a x) t).
    apply NoDup_cons in Hnd as [Hk Hnd].
    cbn [forM_]. unfold bind at 1. unfold drop_index_key at 1.
    unfold bind, get, modify.
    destruct (Hl k) as [s Hs]; [left|]. rewrite Hs. rewrite IH; [done|done|].
    intros k' Hk'. simpl. rewrite lookup_discard_del_ne by set_solver.
    apply Hl. by right.
Qed.

Lemma forM_drop_identity c (l : list ident) st :
  NoDup l →
  (∀ i, i ∈ l → is_Some (_id_to_channel st !! i)) →
  forM_ (drop_identity c) l st
  = (set_id_to_channel
       (foldl (λ m i, discard_del i c m) (_id_to_channel st) l) st,
     Return tt).
Proof.
  revert st. induction l as [|i l IH]; intros st Hnd Hl.
  - by destruct st.
  - change (foldl ?f ?a (?x :: ?t)) with (foldl f (f a x) t).
    apply NoDup_cons in Hnd as [Hi Hnd].
    cbn [forM_]. unfold bind at 1. unfold drop_identity at 1.
    unfold bind, get, modify.
    destruct (Hl i) as [s Hs]; [left|]. rewrite Hs. rewrite IH; [done|done|].
    intros i' Hi'. simpl. rewrite lookup_discard_del_ne by set_solver.
    apply Hl. by right.
Qed.

Lemma dropConnection_unknown c st :
  c ∉ _clientChannels st → dropConnection c st = (st, Return tt).
Proof.
  intros Hc. unfold dropConnection, bind, get. simpl.
  by rewrite decide_False by done.
Qed.

(** In a consistent state [dropConnection] raises no [KeyError]: it
    unsubscribes the channel and commits the transaction that removes the
    connection. *)
Lemma dropConnection_connected c st :
  c ∈ _clientChannels st → consistent st →
  dropConnection c st
  = _dropConnectionEntry (connectionObject (objects st c)) (unsubscribed c st).
Proof.
  intros Hc [Hi Ht Hk]. unfold dropConnection. unfold bind at 1, get at 1.
  rewrite decide_True by done.
  unfold bind at 1. rewrite forM_drop_type.
  2: { intros p Hp%elem_of_elements. apply (bucket_elem_is_Some _ _ c).
       by apply Ht. }
  unfold bind at 1. rewrite forM_drop_index_key.
  2: apply NoDup_elements.
  2: { intros k Hk'%elem_of_elements. apply (bucket_elem_is_Some _ _ c).
       by apply Hk. }
  unfold bind at 1. rewrite forM_drop_identity.
  2: apply NoDup_elements.
  2: { intros i Hi'%elem_of_elements. apply (bucket_elem_is_Some _ _ c).
       by apply Hi. }
  unfold bind at 1, modify at 1. done.
Qed.

Lemma consistent_unsubscribed c st :
  c ∈ _clientChannels st → consistent st → consistent (unsubscribed c st).
Proof.
  intros Hc [Hi Ht Hk]. unfold unsubscribed. split; simpl.
  - intros c' i. rewrite bucket_foldl_discard_del.
    rewrite elem_of_difference, elem_of_singleton.
    case_decide as Hin; rewrite elem_of_elements in Hin.
    + rewrite elem_of_difference, elem_of_singleton, Hi. naive_solver.
    + rewrite Hi. split; [|naive_solver].
      intros [? ?]. split; [|done]. split; [done|]. by intros ->.
  - intros c' p. rewrite bucket_foldl_discard.
    rewrite elem_of_difference, elem_of_singleton.
    case_decide as Hin; rewrite elem_of_elements in Hin.
    + rewrite elem_of_difference, elem_of_singleton, Ht. naive_solver.
    + rewrite Ht. split; [|naive_solver].
      intros [? ?]. split; [|done]. split; [done|]. by intros ->.
  - intros c' k. rewrite bucket_foldl_discard_del.
    rewrite elem_of_difference, elem_of_singleton.
    case_decide as Hin; rewrite elem_of_elements in Hin.
    + rewrite elem_of_difference, elem_of_singleton, Hk. naive_solver.
    + rewrite Hk. split; [|naive_solver].
      intros [? ?]. split; [|done]. split; [done|]. by intros ->.
Qed.

Lemma dropConnectionEntry_state entry st :
  (_dropConnectionEntry entry st).1
  = (_handleNewTransaction None
       {[data_key core_schema_Connection entry " exists" := None]} ∅
       {[index_key core_schema_Connection " exists" true := {[entry]}]}
       [] [] (_cur_transaction_num st) st).1.
Proof.
  unfold _dropConnectionEntry, bind, get, ret.
  by destruct (_handleNewTransaction _ _ _ _ _ _ _ _) as [st' [b|e]].
Qed.

Lemma createConnectionEntry_state identity st :
  (_createConnectionEntry identity st).1
  = (_handleNewTransaction None
       {[data_key core_schema_Connection identity " exists" := Some "true"]}
       {[index_key core_schema_Connection " exists" true := {[identity]}]}
       ∅ [] [] (_cur_transaction_num st) st).1.
Proof.
  unfold _createConnectionEntry, bind, get, ret.
  by destruct (_handleNewTransaction _ _ _ _ _ _ _ _) as [st' [b|e]].
Qed.

Lemma consistent_dropConnection c st :
  consistent st → consistent (dropConnection c st).1.
Proof.
  intros Hst. destruct (decide (c ∈ _clientChannels st)) as [Hc|Hc].
  - rewrite (dropConnection_connected c st Hc Hst), dropConnectionEntry_state.
    apply consistent_handleNewTransaction; [done|].
    by apply consistent_unsubscribed.
  - by rewrite dropConnection_unknown.
Qed.

Lemma consistent_addConnection now identity c st :
  c ∉ _clientChannels st → consistent st →
  consistent (addConnection now identity c st).
Proof.
  intros Hc Hst. unfold addConnection.
  pose proof (createConnectionEntry_state identity st) as Hstate.
  pose proof (consistent_handleNewTransaction None
                {[data_key core_schema_Connection identity " exists"
                  := Some "true"]}
                {[index_key core_schema_Connection " exists" true
                  := {[identity]}]}
                ∅ [] [] (_cur_transaction_num st) st) as Hcons.
  destruct (handleNewTransaction_grows None
                {[data_key core_schema_Connection identity " exists"
                  := Some "true"]}
                {[index_key core_schema_Connection " exists" true
                  := {[identity]}]}
                ∅ [] [] (_cur_transaction_num st) st) as [Hgrows _].
  rewrite <- Hstate in Hcons, Hgrows.
  destruct (_createConnectionEntry identity st) as [st1 [co|e]];
    cbn [fst] in *; [|by apply Hcons].
  apply consistent_write.
  destruct Hcons as [Hi Ht Hk]; [done|done|].
  assert (c ∉ _clientChannels st1) as Hc1
    by (by rewrite (grows_clientChannels _ _ Hgrows)).
  split; simpl.
  - intros c' i. rewrite Hi. destruct (decide (c' = c)) as [->|Hne].
    + rewrite fn_lookup_insert. simpl. set_solver.
    + rewrite fn_lookup_insert_ne by done. set_solver.
  - intros c' p. rewrite Ht. destruct (decide (c' = c)) as [->|Hne].
    + rewrite fn_lookup_insert. simpl. set_solver.
    + rewrite fn_lookup_insert_ne by done. set_solver.
  - intros c' k. rewrite Hk. destruct (decide (c' = c)) as [->|Hne].
    + rewrite fn_lookup_insert. simpl. set_solver.
    + rewrite fn_lookup_insert_ne by done. set_solver.
Qed.

Lemma consistent_onClientToServerMessage now c msg st :
  c ∈ _clientChannels st → consistent st →
  consistent (onClientToServerMessage now c msg st).1.
Proof.
  intros Hc Hst. destruct msg; simpl.
  - apply (consistent_ext st); try done.
    intros c'. rewrite objects_modify_channel. by case_decide; subst.
  - by apply consistent_write.
  - apply (consistent_ext st); try done.
    intros c'. rewrite objects_modify_channel. by case_decide; subst.
  - by apply consistent_handleSubscription.
  - pose proof (consistent_handleNewTransaction (Some c) writes
                  (list_to_set <$> filter (λ kv, kv.2 ≠ []) set_adds)
                  (list_to_set <$> filter (λ kv, kv.2 ≠ []) set_removes)
                  key_versions index_versions as_of_version st) as Hcons.
    destruct (_handleNewTransaction _ _ _ _ _ _ _ _) as [st' r]. simpl in *.
    apply consistent_write, Hcons; [|done]. by intros ? [= <-].
Qed.
End Registry.

(** ** The version numbers *)

Section Versions.
Context `{KM : KeyMapping} `{KV : KVStore}.
Implicit Types (st : Server) (c : chan).

Lemma lookup_foldl_insert (l : list key) (t : Z) (vn : gmap key Z) k :
  foldl (λ vn key_, <[key_ := t]> vn) vn l !! k
  = if decide (k ∈ l) then Some t else vn !! k.
Proof.
  revert vn. induction l as [|k0 l IH]; intros vn.
  - by rewrite decide_False by apply not_elem_of_nil.
  - change (foldl ?f ?a (?x :: ?r)) with (foldl f (f a x) r). rewrite IH.
    destruct (decide (k ∈ l)) as [Hl|Hl].
    + by rewrite decide_True by (by right).
    + destruct (decide (k = k0)) as [->|Hk].
      * rewrite decide_True by left. apply lookup_insert_eq.
      * rewrite lookup_insert_ne by done. rewrite decide_False; [done|].
        by intros [?|?]%elem_of_cons.
Qed.

Lemma stamp_lookup (keys : gset key) (t : Z) (vn : gmap key Z) k :
  stamp keys t vn !! k = if decide (k ∈ keys) then Some t else vn !! k.
Proof.
  unfold stamp. rewrite lookup_foldl_insert.
  destruct (decide (k ∈ keys)) as [Hk|Hk].
  - by rewrite decide_True by (by apply elem_of_elements).
  - by rewrite decide_False by (by rewrite elem_of_elements).
Qed.

Lemma elem_of_keysWritingTo (key_value : gmap key (option value)) k :
  k ∈ keysWritingTo key_value ↔ is_Some (key_value !! k).
Proof.
  unfold keysWritingTo. rewrite elem_of_list_to_set, list_elem_of_fmap. split.
  - intros ([k' v] & -> & Hin%elem_of_map_to_list). by eexists.
  - intros [v Hv]. exists (k, v). split; [done|]. by apply elem_of_map_to_list.
Qed.

Lemma elem_of_written_entries (subset : gmap key (gset ident)) k s :
  (k, s) ∈ written_entries subset ↔ subset !! k = Some s ∧ s ≠ ∅.
Proof.
  unfold written_entries. rewrite list_elem_of_filter, elem_of_map_to_list.
  simpl. naive_solver.
Qed.

Lemma elem_of_setsWritingTo (set_adds set_removes : gmap key (gset ident)) k :
  k ∈ setsWritingTo set_adds set_removes
  ↔ (∃ s, set_adds !! k = Some s ∧ s ≠ ∅)
    ∨ (∃ s, set_removes !! k = Some s ∧ s ≠ ∅).
Proof.
  unfold setsWritingTo. rewrite elem_of_list_to_set, list_elem_of_fmap. split.
  - intros ([k' s] & -> & [Hin|Hin]%elem_of_app);
      apply elem_of_written_entries in Hin; [left | right]; by exists s.
  - intros [[s Hs]|[s Hs]]; exists (k, s); (split; [done|]);
      apply elem_of_app; [left | right]; by apply elem_of_written_entries.
Qed.

Lemma lookup_drop_empty (d : gmap key (gset ident)) k s :
  drop_empty d !! k = Some s ↔ d !! k = Some s ∧ s ≠ ∅.
Proof. unfold drop_empty. by rewrite map_lookup_filter_Some. Qed.

(** The keys a commit writes to: the keys of [key_value] and the keys of
    the entries of [set_adds] and [set_removes] that are not empty. *)
Lemma elem_of_written_keys key_value set_adds set_removes k :
  k ∈ keysWritingTo key_value
      ∪ setsWritingTo (drop_empty set_adds) (drop_empty set_removes)
  ↔ is_Some (key_value !! k)
    ∨ (∃ s, set_adds !! k = Some s ∧ s ≠ ∅)
    ∨ (∃ s, set_removes !! k = Some s ∧ s ≠ ∅).
Proof.
  rewrite elem_of_union, elem_of_keysWritingTo, elem_of_setsWritingTo.
  setoid_rewrite lookup_drop_empty. naive_solver.
Qed.

(** The version numbers after the stamping of a commit with id [t]. *)
Lemma version_numbers_after_store key_value set_adds set_removes t st k :
  _version_numbers (after_store key_value set_adds set_removes t st) !! k
  = if decide (k ∈ keysWritingTo key_value
                   ∪ setsWritingTo (drop_empty set_adds)
                       (drop_empty set_removes))
    then Some t else _version_numbers st !! k.
Proof.
  unfold after_store. simpl. rewrite !stamp_lookup.
  repeat case_decide; try done; set_solver.
Qed.

(** A call of [_handleNewTransaction] that returns [True] has stamped the
    keys it writes with the new transaction id. *)
Lemma handleNewTransaction_stamps sourceChannel key_value set_adds set_removes
    keys_to_check_versions indices_to_check_versions as_of_version st :
  let call := _handleNewTransaction sourceChannel key_value set_adds
                set_removes keys_to_check_versions
                indices_to_check_versions as_of_version st in
  call.2 = Return true →
  ∀ k, _version_numbers call.1 !! k
       = if decide (k ∈ keysWritingTo key_value
                        ∪ setsWritingTo (drop_empty set_adds)
                            (drop_empty set_removes))
         then Some (_cur_transaction_num st + 1)
         else _version_numbers st !! k.
Proof.
  intros call Htrue k. subst call.
  destruct (handleNewTransaction_cases sourceChannel key_value set_adds
              set_removes keys_to_check_versions indices_to_check_versions
              as_of_version st)
    as [(_ & Hr & _)|[(_ & _ & Hr & _)|(_ & _ & _ & Hexp)]];
    try (rewrite Hr in Htrue; discriminate).
  rewrite (expands_version_numbers _ _ Hexp), version_numbers_after_store.
  by rewrite (expands_version_numbers _ _
                (expands_before_check sourceChannel set_adds st)).
Qed.

(** Whatever a call does, a version number is an old one or the new
    transaction id. *)
Lemma handleNewTransaction_version_numbers sourceChannel key_value set_adds
    set_removes keys_to_check_versions indices_to_check_versions
    as_of_version st k v :
  _version_numbers
    (_handleNewTransaction sourceChannel key_value set_adds set_removes
       keys_to_check_versions indices_to_check_versions as_of_version st).1
  !! k = Some v →
  v = _cur_transaction_num st + 1 ∨ _version_numbers st !! k = Some v.
Proof.
  destruct (handleNewTransaction_cases sourceChannel key_value set_adds
              set_removes keys_to_check_versions indices_to_check_versions
              as_of_version st)
    as [(_ & _ & ->)|[(_ & _ & _ & ->)|(_ & _ & _ & Hexp)]].
  - by right.
  - rewrite (expands_version_numbers _ _
               (expands_before_check sourceChannel set_adds st)). by right.
  - rewrite (expands_version_numbers _ _ Hexp), version_numbers_after_store.
    rewrite (expands_version_numbers _ _
               (expands_before_check sourceChannel set_adds st)). simpl.
    case_decide; [intros [= <-]; by left | by right].
Qed.

Lemma versions_bounded_handleNewTransaction sourceChannel key_value set_adds
    set_removes keys_to_check_versions indices_to_check_versions
    as_of_version st :
  versions_bounded st →
  versions_bounded
    (_handleNewTransaction sourceChannel key_value set_adds set_removes
       keys_to_check_versions indices_to_check_versions as_of_version st).1.
Proof.
  intros Hst k v Hv.
  assert (_cur_transaction_num
            (_handleNewTransaction sourceChannel key_value set_adds
               set_removes keys_to_check_versions indices_to_check_versions
               as_of_version st).1 = _cur_transaction_num st + 1) as ->.
  { destruct (handleNewTransaction_cases sourceChannel key_value set_adds
                set_removes keys_to_check_versions indices_to_check_versions
                as_of_version st)
      as [(_ & _ & ->)|[(_ & _ & _ & ->)|(_ & _ & _ & Hexp)]].
    - done.
    - by rewrite (expands_cur_transaction_num _ _
                    (expands_before_check sourceChannel set_adds st)).
    - rewrite (expands_cur_transaction_num _ _ Hexp). simpl.
      by rewrite (expands_cur_transaction_num _ _
                    (expands_before_check sourceChannel set_adds st)). }
  apply handleNewTransaction_version_numbers in Hv as [->|Hv]; [lia|].
  apply Hst in Hv. lia.
Qed.

Lemma versions_bounded_ext st st' :
  _version_numbers st' = _version_numbers st →
  _cur_transaction_num st' = _cur_transaction_num st →
  versions_bounded st → versions_bounded st'.
Proof. unfold versions_bounded. intros -> ->. done. Qed.

Lemma versions_bounded_handleSubscription c schema_name typename fv st :
  versions_bounded st →
  versions_bounded (_handleSubscription c schema_name typename fv st).1.
Proof.
  intros Hst. rewrite handleSubscription_unfold.
  destruct (definedSchemas (objects st c) !! schema_name) as [definition|];
    [|done].
  pose proof (subscribes_subscribe_types c schema_name definition fv
                (∅, ∅, ∅) (types_to_subscribe definition typename) st) as Hsub.
  destruct typename as [t|], fv as [fv|]; try done.
  all: destruct (subscribe_types _ _ _ _ _ _ _) as [st1 [[[kvs sets] ids]|e]];
    cbn [fst snd] in *;
    (apply (versions_bounded_ext st); [apply Hsub | apply Hsub | done]).
Qed.

Lemma versions_bounded_dropConnection c st :
  consistent st → versions_bounded st →
  versions_bounded (dropConnection c st).1.
Proof.
  intros Hcons Hst. destruct (decide (c ∈ _clientChannels st)) as [Hc|Hc].
  - rewrite (dropConnection_connected c st Hc Hcons), dropConnectionEntry_state.
    apply versions_bounded_handleNewTransaction.
    by apply (versions_bounded_ext st).
  - by rewrite dropConnection_unknown.
Qed.

Lemma versions_bounded_addConnection now identity c st :
  versions_bounded st → versions_bounded (addConnection now identity c st).
Proof.
  intros Hst. unfold addConnection.
  pose proof (createConnectionEntry_state identity st) as Hstate.
  pose proof (versions_bounded_handleNewTransaction None
                {[data_key core_schema_Connection identity " exists"
                  := Some "true"]}
                {[index_key core_schema_Connection " exists" true
                  := {[identity]}]}
                ∅ [] [] (_cur_transaction_num st) st Hst) as Hvb.
  rewrite <- Hstate in Hvb.
  destruct (_createConnectionEntry identity st) as [st1 [co|e]];
    cbn [fst] in *; [|done].
  by apply (versions_bounded_ext st1).
Qed.

Lemma versions_bounded_onClientToServerMessage now c msg st :
  versions_bounded st →
  versions_bounded (onClientToServerMessage now c msg st).1.
Proof.
  intros Hst. destruct msg; simpl.
  1-3: by apply (versions_bounded_ext st).
  - by apply versions_bounded_handleSubscription.
  - pose proof (versions_bounded_handleNewTransaction (Some c) writes
                  (list_to_set <$> filter (λ kv, kv.2 ≠ []) set_adds)
                  (list_to_set <$> filter (λ kv, kv.2 ≠ []) set_removes)
                  key_versions index_versions as_of_version st Hst) as Hvb.
    destruct (_handleNewTransaction _ _ _ _ _ _ _ _) as [st' r]. simpl in *.
    by apply (versions_bounded_ext st').
Qed.

(** The invariants hold in every state the server reaches. *)
Lemma reachable_invariant st :
  reachable st → versions_bounded st ∧ consistent st.
Proof.
  induction 1 as [kv0|st st' _ [Hvb Hcons] Hstep].
  - split.
    + intros k v Hv. simpl in Hv. by rewrite lookup_empty in Hv.
    + split; intros c x; simpl; rewrite bucket_empty; set_solver.
  - destruct Hstep as [st now identity c Hc|st c|st now c msg Hc].
    + split; [by apply versions_bounded_addConnection
             |by apply consistent_addConnection].
    + split; [by apply versions_bounded_dropConnection
             |by apply consistent_dropConnection].
    + split; [by apply versions_bounded_onClientToServerMessage
             |by apply consistent_onClientToServerMessage].
Qed.
End Versions.

(** ** The transactions of the connection registry *)

Section Synthetic.
Context `{KM : KeyMapping} `{KV : KVStore}.
Implicit Types (st : Server) (c : chan).

(** A transaction as of the counter of the server, with nothing to check,
    passes the assertion on its id and the check of the versions: it does
    not return [False] and raises no [AssertionError]. *)
Lemma synthetic_transaction_passes_the_checks sourceChannel key_value
    set_adds set_removes st :
  let call := _handleNewTransaction sourceChannel key_value set_adds
                set_removes [] [] (_cur_transaction_num st) st in
  call.2 = Return true ∨ call.2 = Raise AttributeError.
Proof.
  intros call. subst call.
  destruct (handleNewTransaction_cases sourceChannel key_value set_adds
              set_removes [] [] (_cur_transaction_num st) st)
    as [(Ht & _)|[(_ & Hc & _)|(_ & _ & Hr & _)]].
  - lia.
  - done.
  - done.
Qed.

(** [_dropConnectionEntry] adds to no index, so nothing is expanded and the
    transaction returns [True]. *)
Lemma dropConnectionEntry_returns entry st :
  (_dropConnectionEntry entry st).2 = Return tt.
Proof.
  unfold _dropConnectionEntry, bind at 1, get. unfold bind.
  rewrite handleNewTransaction_unfold. cbv zeta.
  rewrite decide_True by lia. simpl conflict. cbv iota.
  unfold drop_empty at 1 2. rewrite map_filter_empty, map_to_list_empty.
  done.
Qed.

(** [_createConnectionEntry] returns when no channel is subscribed to the
    index of the connections that exist. *)
Lemma createConnectionEntry_returns_without_subscribers identity st :
  _index_to_channel st !! index_key core_schema_Connection " exists" true
  = None →
  (_createConnectionEntry identity st).2 = Return identity.
Proof.
  intros Hnone. unfold _createConnectionEntry, bind at 1, get. unfold bind.
  rewrite handleNewTransaction_unfold. cbv zeta.
  rewrite decide_True by lia. simpl conflict. cbv iota.
  unfold drop_empty at 1 2.
  rewrite map_filter_singleton_True by (simpl; set_solver).
  rewrite map_to_list_singleton. simpl.
  unfold bind, get. simpl. by rewrite Hnone.
Qed.
End Synthetic.

(** ** The buckets of index_key→channels and identity→channels *)

Section Nonempty.
Context `{KM : KeyMapping} `{KV : KVStore}.
Implicit Types (st : Server) (c : chan).

Lemma buckets_nonempty_ext st st' :
  _index_to_channel st' = _index_to_channel st →
  _id_to_channel st' = _id_to_channel st →
  buckets_nonempty st → buckets_nonempty st'.
Proof. unfold buckets_nonempty. by intros -> ->. Qed.

Lemma buckets_nonempty_write c msg st :
  buckets_nonempty st → buckets_nonempty (write c msg st).
Proof. by apply buckets_nonempty_ext. Qed.

Lemma buckets_nonempty_enrol_identity c i st :
  buckets_nonempty st → buckets_nonempty (enrol_identity c i st).
Proof.
  intros [Hk Hi]. split; [done|]. simpl. intros i' s.
  by apply setdefault_add_nonempty.
Qed.

Lemma buckets_nonempty_foldl_enrol_identity c (l : list ident) st :
  buckets_nonempty st →
  buckets_nonempty (foldl (λ st i, enrol_identity c i st) st l).
Proof.
  intros Hst. apply (foldl_invariant buckets_nonempty); [done|].
  intros st' i _. apply buckets_nonempty_enrol_identity.
Qed.

Lemma buckets_nonempty_writer_expansion c set_adds st :
  buckets_nonempty st → buckets_nonempty (writer_expansion c set_adds st).
Proof.
  intros Hst. unfold writer_expansion.
  apply (foldl_invariant buckets_nonempty); [done|].
  intros st' [add_index added_identities] _ [Hk Hi].
  destruct (writer_expansion_entry_cases c st' add_index added_identities)
    as [->|(schema_name & typename & fieldval & Hsplit & Htype)]; [done|].
  rewrite (writer_expansion_entry_qualifies _ _ _ _ _ _ _ Hsplit Htype).
  split; [done|]. simpl.
  apply (foldl_invariant (λ m, ∀ i s, m !! i = Some s → s ≠ ∅)); [done|].
  intros m i _ Hm i' s. by apply setdefault_add_nonempty.
Qed.

Lemma buckets_nonempty_index_expansion index_keys key_value set_adds st :
  buckets_nonempty st →
  buckets_nonempty (index_expansion index_keys key_value set_adds st).1.
Proof.
  revert key_value set_adds st.
  induction index_keys as [|k ks IH]; intros key_value set_adds st Hst; simpl.
  - done.
  - unfold bind, get. simpl.
    destruct (_index_to_channel st !! k) as [channels|]; [|by apply IH].
    assert (buckets_nonempty
              (foldl (expand_channel k (bucket set_adds k)) (st, ∅)
                 (elements channels)).1) as Hfold.
    { apply (foldl_invariant (λ acc, buckets_nonempty acc.1)); [done|].
      intros [st' ids'] c _ Hst'. unfold expand_channel. cbn [fst] in *.
      unfold _broadcastSubscriptionIncrease.
      destruct (split_index_key_full k) as [[[??]?]?].
      by apply buckets_nonempty_write, buckets_nonempty_foldl_enrol_identity. }
    destruct (foldl _ _ _) as [st' ids]. cbn [fst] in Hfold.
    unfold modify. simpl.
    destruct (last (elements channels)) as [channel|]; [|by apply IH].
    case_decide; [|by apply IH].
    destruct (_increaseBroadcastTransactionToInclude _ _ _ _ _ _)
      as [[kv' sa']|e]; simpl; [by apply IH | done].
Qed.

Lemma buckets_nonempty_handleNewTransaction sourceChannel key_value set_adds
    set_removes keys_to_check_versions indices_to_check_versions
    as_of_version st :
  buckets_nonempty st →
  buckets_nonempty
    (_handleNewTransaction sourceChannel key_value set_adds set_removes
       keys_to_check_versions indices_to_check_versions as_of_version st).1.
Proof.
  intros Hst.
  assert (buckets_nonempty (before_check sourceChannel set_adds st)) as Hst2.
  { unfold before_check. destruct sourceChannel as [c|].
    - apply buckets_nonempty_writer_expansion.
      by apply (buckets_nonempty_ext st).
    - by apply (buckets_nonempty_ext st). }
  rewrite handleNewTransaction_unfold. cbv zeta.
  case_decide; [|by apply (buckets_nonempty_ext st)].
  destruct (conflict _ _ _); [done|].
  pose proof (buckets_nonempty_index_expansion
                (map_to_list (drop_empty set_adds)).*1 key_value
                (drop_empty set_adds)
                (after_store key_value set_adds set_removes
                   (_cur_transaction_num st + 1)
                   (before_check sourceChannel set_adds st))) as Hexp.
  destruct (index_expansion _ _ _ _) as [st5 [[kv' sa']|e]]; cbn [fst] in *.
  - eapply buckets_nonempty_ext; [| |apply Hexp].
    + apply (expands_index_to_channel _ _ (expands_broadcast _ _ st5)).
    + unfold broadcast.
      apply (foldl_invariant
               (λ st', _id_to_channel st' = _id_to_channel st5)); done.
    + by apply (buckets_nonempty_ext
                  (before_check sourceChannel set_adds st)).
  - apply Hexp.
    by apply (buckets_nonempty_ext (before_check sourceChannel set_adds st)).
Qed.

Lemma buckets_nonempty_subscribe_fanout c schema_name typename fv identities
    st :
  buckets_nonempty st →
  buckets_nonempty (subscribe_fanout c schema_name typename fv identities st).
Proof.
  intros Hst. unfold subscribe_fanout.
  destruct fv as [[fieldname fieldval]|]; [|by apply (buckets_nonempty_ext st)].
  destruct (buckets_nonempty_foldl_enrol_identity c (elements identities) st
              Hst) as [Hk Hi].
  case_decide; [|by split]. split; [|done]. simpl. intros k s.
  by apply setdefault_add_nonempty.
Qed.

Lemma buckets_nonempty_handleSubscription c schema_name typename fv st :
  buckets_nonempty st →
  buckets_nonempty (_handleSubscription c schema_name typename fv st).1.
Proof.
  intros Hst. rewrite handleSubscription_unfold.
  destruct (definedSchemas (objects st c) !! schema_name) as [definition|];
    [|done].
  assert (∀ types acc st,
            buckets_nonempty st →
            buckets_nonempty
              (subscribe_types c schema_name definition fv acc types st).1)
    as Hsub.
  { clear. induction types as [|t types IH]; intros acc st Hst; simpl.
    - done.
    - unfold bind.
      destruct (subscribe_type_cases c schema_name definition fv acc t st)
        as [(_ & ->)|(_ & Hst1 & kvs & sets & Hr)]; [done|].
      destruct (subscribe_type _ _ _ _ _ _ _) as [st1 r]. simpl in *. subst.
      by apply IH, buckets_nonempty_subscribe_fanout. }
  specialize (Hsub (types_to_subscribe definition typename) (∅, ∅, ∅) st Hst).
  destruct typename as [t|], fv as [fv|]; try done.
  all: destruct (subscribe_types _ _ _ _ _ _ _) as [st1 [[[kvs sets] ids]|e]];
    cbn [fst snd] in *; [by apply buckets_nonempty_write | done].
Qed.

Lemma buckets_nonempty_unsubscribed c st :
  buckets_nonempty st → buckets_nonempty (unsubscribed c st).
Proof.
  intros [Hk Hi]. unfold unsubscribed. split; simpl.
  - by apply foldl_discard_del_nonempty.
  - by apply foldl_discard_del_nonempty.
Qed.

Lemma buckets_nonempty_dropConnection c st :
  consistent st → buckets_nonempty st →
  buckets_nonempty (dropConnection c st).1.
Proof.
  intros Hcons Hst. destruct (decide (c ∈ _clientChannels st)) as [Hc|Hc].
  - rewrite (dropConnection_connected c st Hc Hcons), dropConnectionEntry_state.
    by apply buckets_nonempty_handleNewTransaction,
      buckets_nonempty_unsubscribed.
  - by rewrite dropConnection_unknown.
Qed.

Lemma buckets_nonempty_addConnection now identity c st :
  buckets_nonempty st → buckets_nonempty (addConnection now identity c st).
Proof.
  intros Hst. unfold addConnection.
  pose proof (createConnectionEntry_state identity st) as Hstate.
  pose proof (buckets_nonempty_handleNewTransaction None
                {[data_key core_schema_Connection identity " exists"
                  := Some "true"]}
                {[index_key core_schema_Connection " exists" true
                  := {[identity]}]}
                ∅ [] [] (_cur_transaction_num st) st Hst) as Hne.
  rewrite <- Hstate in Hne.
  destruct (_createConnectionEntry identity st) as [st1 [co|e]];
    cbn [fst] in *; [|done].
  by apply (buckets_nonempty_ext st1).
Qed.

Lemma buckets_nonempty_onClientToServerMessage now c msg st :
  buckets_nonempty st →
  buckets_nonempty (onClientToServerMessage now c msg st).1.
Proof.
  intros Hst. destruct msg; simpl.
  1-3: by apply (buckets_nonempty_ext st).
  - by apply buckets_nonempty_handleSubscription.
  - pose proof (buckets_nonempty_handleNewTransaction (Some c) writes
                  (list_to_set <$> filter (λ kv, kv.2 ≠ []) set_adds)
                  (list_to_set <$> filter (λ kv, kv.2 ≠ []) set_removes)
                  key_versions index_versions as_of_version st Hst) as Hne.
    destruct (_handleNewTransaction _ _ _ _ _ _ _ _) as [st' r]. simpl in *.
    by apply (buckets_nonempty_ext st').
Qed.

(** In every state the server reaches, index_key→channels and
    identity→channels have no empty bucket: the loops of [dropConnection]
    over [subscribedIndexKeys] and [subscribedIds] delete a bucket that
    becomes empty. *)
Lemma reachable_index_and_id_buckets_nonempty st :
  reachable st → buckets_nonempty st.
Proof.
  induction 1 as [kv0|st st' Hreach Hne Hstep].
  - split; intros k s Hs; simpl in Hs; by rewrite lookup_empty in Hs.
  - destruct (reachable_invariant st Hreach) as [_ Hcons].
    destruct Hstep as [st now identity c Hc|st c|st now c msg Hc].
    + by apply buckets_nonempty_addConnection.
    + by apply buckets_nonempty_dropConnection.
    + by apply buckets_nonempty_onClientToServerMessage.
Qed.
End Nonempty.

(** ** The sets of a snapshot *)

Section SnapshotSets.
Context `{KM : KeyMapping} `{KV : KVStore}.
Implicit Types (st : Server) (c : chan).

(** The loop over the values of an index group. *)
Lemma lookup_gather_sets_group st (g : ident → key) (identities : gset ident)
    (l : list ident) (sets : gmap key (gset ident)) k :
  foldl (λ sets iv,
           let index_key_ := g iv in
           let s := getSetMembers (_kvstore st) index_key_ ∩ identities in
           if decide (s = ∅) then delete index_key_ sets
           else <[index_key_ := s]> sets) sets l !! k
  = if decide (k ∈ g <$> l) then set_entry st k identities else sets !! k.
Proof.
  revert sets. induction l as [|iv l IH]; intros sets.
  - by rewrite decide_False by apply not_elem_of_nil.
  - change (foldl ?f ?a (?x :: ?r)) with (foldl f (f a x) r). rewrite IH.
    rewrite fmap_cons. destruct (decide (k ∈ g <$> l)) as [Hl|Hl].
    + by rewrite decide_True by (by right).
    + cbv zeta. destruct (decide (k = g iv)) as [->|Hne].
      * destruct (decide (g iv ∈ g iv :: (g <$> l))) as [_|Hno];
          [|destruct Hno; left].
        unfold set_entry. cbv zeta.
        case_decide; [apply lookup_delete_eq | apply lookup_insert_eq].
      * destruct (decide (k ∈ g iv :: (g <$> l)))
          as [[?|?]%elem_of_cons|_]; [done|done|].
        case_decide; [by rewrite lookup_delete_ne
                     |by rewrite lookup_insert_ne].
Qed.

(** [for fieldname in typedef.indices] for one type: the index keys the
    loop visits are given the set of the store cut down to the
    identities, and the other entries of [sets] are kept. *)
Lemma lookup_gather_sets st schema_name typename typedef identities sets k :
  gather_sets (_kvstore st) schema_name typename typedef identities sets !! k
  = if decide (k ∈ index_keys_of_type st schema_name typename typedef)
    then set_entry st k identities else sets !! k.
Proof.
  unfold gather_sets, index_keys_of_type. revert sets.
  induction (indices typedef) as [|f fs IH]; intros sets.
  - by rewrite decide_False by apply not_elem_of_nil.
  - change (foldl ?g ?a (?x :: ?r)) with (foldl g (g a x) r). rewrite IH.
    clear IH. cbv zeta.
    rewrite (lookup_gather_sets_group st
               (index_group_and_hashval_to_index_key
                  (index_group schema_name typename f))).
    assert (∀ k', k' ∈ (f0 ← f :: fs;
                        iv ← elements (getSetMembers (_kvstore st)
                                         (index_group schema_name typename
                                            f0));
                        [index_group_and_hashval_to_index_key
                           (index_group schema_name typename f0) iv])
                  ↔ k' ∈ index_group_and_hashval_to_index_key
                           (index_group schema_name typename f)
                         <$> elements (getSetMembers (_kvstore st)
                                         (index_group schema_name typename f))
                    ∨ k' ∈ (f0 ← fs;
                            iv ← elements (getSetMembers (_kvstore st)
                                             (index_group schema_name
                                                typename f0));
                            [index_group_and_hashval_to_index_key
                               (index_group schema_name typename f0) iv]))
      as Hcons.
    { intros k'. rewrite bind_cons, elem_of_app.
      rewrite list_elem_of_bind, list_elem_of_fmap.
      setoid_rewrite list_elem_of_singleton. naive_solver. }
    destruct (decide (k ∈ (f0 ← fs; _))) as [Hin|Hin].
    + rewrite decide_True; [done|]. apply Hcons. by right.
    + destruct (decide (k ∈ _ <$> _)) as [Hin'|Hin'].
      * rewrite decide_True; [done|]. apply Hcons. by left.
      * rewrite decide_False; [done|]. rewrite Hcons. by intros [?|?].
Qed.

Lemma visits_app st schema_name definition done_ (types : list string) k t :
  visits st schema_name definition done_ k t →
  visits st schema_name definition (done_ ++ types) k t.
Proof. intros [Ht Hk]. split; [|done]. apply elem_of_app. by left. Qed.

(** The sets of the snapshot, type after type. *)
Lemma subscribe_types_sets c schema_name definition fv types st0 :
  ∀ done_ acc st snap,
    _kvstore st = _kvstore st0 →
    sets_of st0 schema_name definition fv done_ acc.1.2 →
    (subscribe_types c schema_name definition fv acc types st).2
    = Return snap →
    sets_of st0 schema_name definition fv (done_ ++ types) snap.1.2.
Proof.
  induction types as [|t types IH]; intros done_ acc st snap Hkv Hacc.
  - simpl. intros [= <-]. by rewrite app_nil_r.
  - simpl. unfold bind. destruct acc as [[kvs sets] ids0].
    destruct (definition !! t) as [typedef|] eqn:Ht.
    2: { destruct (subscribe_type_cases c schema_name definition fv
                     (kvs, sets, ids0) t st)
           as [(_ & ->)|([? Hsome] & _)]; [done | congruence]. }
    rewrite (subscribe_type_returns _ _ _ _ _ _ _ _ _ _ Ht).
    intros Hsnap. replace (done_ ++ t :: types) with ((done_ ++ [t]) ++ types)
      by (by rewrite <- app_assoc).
    eapply IH; [| |exact Hsnap].
    + by rewrite (subscribes_kvstore _ _
                    (subscribes_fanout c schema_name t fv
                       (matching_identities st schema_name t fv) st)).
    + cbn [fst snd] in *. destruct Hacc as [Hin Hvisited].
      rewrite (matching_identities_ext st0 st) by done.
      assert (∀ k,
                gather_sets (_kvstore st) schema_name t typedef
                  (matching_identities st0 schema_name t fv) sets !! k
                = if decide (k ∈ index_keys_of_type st0 schema_name t typedef)
                  then set_entry st0 k (matching_identities st0 schema_name t fv)
                  else sets !! k) as Hlookup.
      { intros k. rewrite Hkv. apply lookup_gather_sets. }
      assert (∀ k, k ∈ index_keys_of_type st0 schema_name t typedef →
                   visits st0 schema_name definition (done_ ++ [t]) k t)
        as Hnow.
      { intros k Hk. split; [|by exists typedef].
        apply elem_of_app. right. left. }
      split.
      * intros k s. rewrite Hlookup. case_decide as Hk.
        -- intros Hs. exists t. split; [by apply Hnow | done].
        -- intros (t' & Ht' & Hs)%Hin. exists t'.
           split; [by apply visits_app | done].
      * intros k t0 Ht0. rewrite Hlookup. case_decide as Hk.
        -- exists t. split; [by apply Hnow | done].
        -- destruct Ht0 as [Hin0 (typedef0 & Hdef0 & Hk0)].
           apply elem_of_app in Hin0 as [Hin0|Hin0%list_elem_of_singleton].
           ++ destruct (Hvisited k t0) as (t' & Ht' & Hs).
              { split; [done|]. by exists typedef0. }
              exists t'. split; [by apply visits_app | done].
           ++ subst t0. assert (typedef0 = typedef) as -> by congruence.
              done.
Qed.
End SnapshotSets.

(** * The claims *)

Section Claims.
Context `{KM : KeyMapping} `{KV : KVStore}.
Implicit Types (st : Server) (c : chan).

(** C10: every call of [_handleNewTransaction] increments
    [_cur_transaction_num] by exactly one, whatever the call does next:
    it may fail its assertion, return [False] on a conflict of versions,
    raise during the expansion of the subscriptions, or return [True].
    A failed attempt has thus used up a transaction id. *)
Theorem C10_every_call_increments_the_counter sourceChannel key_value
    set_adds set_removes keys_to_check_versions indices_to_check_versions
    as_of_version st :
  _cur_transaction_num
    (_handleNewTransaction sourceChannel key_value set_adds set_removes
       keys_to_check_versions indices_to_check_versions as_of_version st).1
  = _cur_transaction_num st + 1.
Proof.
  destruct (handleNewTransaction_cases sourceChannel key_value set_adds
              set_removes keys_to_check_versions indices_to_check_versions
              as_of_version st)
    as [(_ & _ & ->)|[(_ & _ & _ & ->)|(_ & _ & _ & Hexp)]].
  - done.
  - by rewrite (expands_cur_transaction_num _ _
                  (expands_before_check sourceChannel set_adds st)).
  - rewrite (expands_cur_transaction_num _ _ Hexp). simpl.
    by rewrite (expands_cur_transaction_num _ _
                  (expands_before_check sourceChannel set_adds st)).
Qed.

(** C1, amended: for a call of [_handleNewTransaction] with
    [as_of_version] at most the transaction counter, the call returns
    [False] if and only if some key of [keys_to_check_versions] or
    [indices_to_check_versions] has
    [self._version_numbers.get(key, -1) > as_of_version]: a key without a
    recorded version number counts as version -1.  For an [as_of_version]
    of at least -1 this is: some key has a recorded version number above
    [as_of_version]. *)
Theorem C1_returns_False_iff_a_checked_version_is_above sourceChannel
    key_value set_adds set_removes keys_to_check_versions
    indices_to_check_versions as_of_version st :
  as_of_version ≤ _cur_transaction_num st →
  let returned :=
    (_handleNewTransaction sourceChannel key_value set_adds set_removes
       keys_to_check_versions indices_to_check_versions as_of_version st).2 in
  let checks := keys_to_check_versions ++ indices_to_check_versions in
  (returned = Return false ↔
   ∃ k, k ∈ checks ∧ as_of_version < default (-1) (_version_numbers st !! k))
  ∧ (-1 ≤ as_of_version →
     (returned = Return false ↔
      ∃ k v, k ∈ checks ∧ _version_numbers st !! k = Some v
             ∧ as_of_version < v)).
Proof.
  intros Hle returned checks.
  assert (returned = Return false ↔
          conflict (_version_numbers st) checks as_of_version = true) as Hiff.
  { subst returned checks.
    destruct (handleNewTransaction_cases sourceChannel key_value set_adds
                set_removes keys_to_check_versions indices_to_check_versions
                as_of_version st)
      as [(Ht & _)|[(_ & Hc & -> & _)|(_ & Hc & [-> | ->] & _)]].
    - lia.
    - done.
    - rewrite Hc. split; discriminate.
    - rewrite Hc. split; discriminate. }
  rewrite Hiff, conflict_true. split; [done|].
  intros Hge. split.
  - intros (k & Hin & Hk). destruct (_version_numbers st !! k) as [v|] eqn:Hv.
    + by exists k, v.
    + simpl in Hk. lia.
  - intros (k & v & Hin & Hv & Hk). exists k. by rewrite Hv.
Qed.

(** C7, amended: a [Subscribe] message that passes its assertions is
    answered by exactly one [Subscription] message, whatever the number of
    types it subscribes to.  The message is written to the subscribing
    channel after the loop over the types; it carries the schema, the
    typename and the [fieldname_and_value] of the request, the current
    transaction id, the identities of the slice for a slice subscription
    ([None] for a subscription to a type or to a schema), and the [values]
    and [sets] gathered over all the subscribed types: every value is the
    one the store holds, the cell of every field of every matching identity
    of every subscribed type is among the values, and every set is a part,
    not empty, of the set the store holds under its key.  The sets are
    those of the types: an index key is among them only when a subscribed
    type visits it (it is the key of a value of the index group of an index
    of the type), and an index key that a subscribed type visits has the
    entry left by the round of a subscribed type that visits it, which is
    the set of the store under the key cut down to the matching identities
    of that type, and no entry when nothing is left; for a subscription to
    one type this is the set cut down to the matching identities of the
    type.  A [Subscribe] message that fails an assertion is answered by no
    message. *)
Theorem C7_one_Subscription_message_per_Subscribe c schema_name typename fv st :
  let call := _handleSubscription c schema_name typename fv st in
  (call.2 = Return tt
   ∧ (∃ kvs sets,
        written call.1 c = written st c ++
          [Subscription schema_name typename fv kvs sets
             (_cur_transaction_num st)
             (match fv, typename with
              | Some _, Some t =>
                  Some (elements (matching_identities st schema_name t fv))
              | _, _ => None
              end)]
        ∧ (∀ k v, kvs !! k = Some v → v = kv_get (_kvstore st) k)
        ∧ (∀ definition t typedef f i,
             definedSchemas (objects st c) !! schema_name = Some definition →
             t ∈ types_to_subscribe definition typename →
             definition !! t = Some typedef → f ∈ fields typedef →
             i ∈ matching_identities st schema_name t fv →
             kvs !! data_key_from_names schema_name t i f
             = Some (kv_get (_kvstore st)
                       (data_key_from_names schema_name t i f)))
        ∧ (∀ k s, sets !! k = Some s →
                  s ≠ ∅ ∧ s ⊆ getSetMembers (_kvstore st) k)
        ∧ (∀ definition,
             definedSchemas (objects st c) !! schema_name = Some definition →
             let types := types_to_subscribe definition typename in
             (∀ k s, sets !! k = Some s →
                ∃ t, visits st schema_name definition types k t
                     ∧ set_entry st k (matching_identities st schema_name t fv)
                       = Some s)
             ∧ (∀ k t, visits st schema_name definition types k t →
                  ∃ t', visits st schema_name definition types k t'
                        ∧ sets !! k
                          = set_entry st k
                              (matching_identities st schema_name t' fv))))
   ∧ ∀ c', c' ≠ c → written call.1 c' = written st c')
  ∨ (call.2 = Raise AssertionError ∧ written call.1 = written st).
Proof.
  intros call. subst call. rewrite handleSubscription_unfold.
  destruct (definedSchemas (objects st c) !! schema_name) as [definition|];
    [|by right].
  assert (∀ X Y : Server * result unit,
            match typename, fv with
            | None, Some _ => X
            | _, _ => Y
            end = if decide (typename = None ∧ is_Some fv) then X else Y)
    as Hmatch.
  { intros X Y. destruct typename, fv; case_decide as Hd; try done.
    - by destruct Hd.
    - by destruct Hd as [_ []].
    - destruct Hd. by split.
    - by destruct Hd as [_ []]. }
  rewrite Hmatch. clear Hmatch. case_decide as Hshape; [by right|].
  pose proof (subscribes_subscribe_types c schema_name definition fv (∅, ∅, ∅)
                (types_to_subscribe definition typename) st) as Hsub.
  pose proof (subscribe_types_raises c schema_name definition fv (∅, ∅, ∅)
                (types_to_subscribe definition typename) st) as Hraise.
  pose proof (subscribe_types_snapshot c schema_name definition fv
                (types_to_subscribe definition typename) st [] (∅, ∅, ∅) st)
    as Hsnap.
  pose proof (subscribe_types_sets c schema_name definition fv
                (types_to_subscribe definition typename) st [] (∅, ∅, ∅) st)
    as Hsetsof.
  assert (∀ t, typename = Some t → ∀ snap,
            (subscribe_types c schema_name definition fv (∅, ∅, ∅)
               (types_to_subscribe definition typename) st).2 = Return snap →
            snap.2 = matching_identities st schema_name t fv) as Hone.
  { intros t -> snap Hr.
    by destruct (subscribe_types_singleton c schema_name definition fv
                   (∅, ∅, ∅) t st snap Hr). }
  destruct (subscribe_types _ _ _ _ _ _ _) as [st1 [[[kvs sets] ids]|e]];
    cbn [fst snd] in *.
  - left. split; [done|].
    destruct (Hsnap (kvs, sets, ids)) as (Hsound & Hcomplete & Hsets);
      [done| |done|].
    { split; [|split]; cbn [fst snd]; intros *;
        rewrite ?lookup_empty; try done.
      by intros ?%elem_of_nil. }
    cbn [fst snd] in *. split.
    + exists kvs, sets. split; [|split; [done|split; [|split; [done|]]]].
      * rewrite written_write, decide_True by done.
        rewrite (subscribes_written _ _ Hsub),
          (subscribes_cur_transaction_num _ _ Hsub).
        destruct fv as [fv|], typename as [t|]; try done.
        -- specialize (Hone t eq_refl (kvs, sets, ids) eq_refl).
           cbn [snd] in Hone. by rewrite Hone.
        -- destruct Hshape. by split.
      * intros definition' t typedef f i [= <-]. apply Hcomplete.
      * intros definition' [= <-].
        apply (Hsetsof (kvs, sets, ids)); [done| |done].
        split; cbn [fst snd].
        -- intros k s Hk. by rewrite lookup_empty in Hk.
        -- intros k t [Ht _]. by apply elem_of_nil in Ht.
    + intros c' Hc'. rewrite written_write, decide_False by done.
      by rewrite (subscribes_written _ _ Hsub).
  - right. destruct (Hraise e eq_refl) as [-> _].
    split; [done | apply Hsub].
Qed.

(** C8, amended: whether the field of a slice subscription is among the
    declared indices of the type is not checked.  A [Subscribe] message
    with a type and a [fieldname_and_value] is rejected by an assertion only
    when the channel has not defined the schema or the definition lacks the
    type; with a known schema and type the handler returns normally,
    whatever the field, and for a field other than "_identity" it has
    registered the channel under the index key of the field and the value,
    in [_index_to_channel] and in the [subscribedIndexKeys] of the
    channel. *)
Theorem C8_slice_subscription_does_not_check_the_index c schema_name t
    fieldname fieldval st definition typedef :
  definedSchemas (objects st c) !! schema_name = Some definition →
  definition !! t = Some typedef →
  let call := _handleSubscription c schema_name (Some t)
                (Some (fieldname, fieldval)) st in
  let index_key_ :=
    index_key_from_names_encoded schema_name t fieldname fieldval in
  call.2 = Return tt
  ∧ (fieldname ≠ "_identity" →
     c ∈ bucket (_index_to_channel call.1) index_key_
     ∧ index_key_ ∈ subscribedIndexKeys (objects call.1 c)).
Proof.
  intros Hdef Ht call index_key_. subst call.
  rewrite handleSubscription_unfold, Hdef.
  destruct (subscribe_types_returns c schema_name definition
              (Some (fieldname, fieldval)) (∅, ∅, ∅) [t] st) as [snap Hsnap].
  { intros t' ->%list_elem_of_singleton. by eexists. }
  destruct (subscribe_types_singleton c schema_name definition
              (Some (fieldname, fieldval)) (∅, ∅, ∅) t st snap Hsnap)
    as [_ Hst1].
  unfold types_to_subscribe.
  destruct (subscribe_types _ _ _ _ _ _ _) as [st1 r]. cbn [fst snd] in Hsnap, Hst1.
  subst r st1. destruct snap as [[kvs sets] ids]. split; [done|].
  intros Hfield. unfold subscribe_fanout. rewrite decide_True by done.
  simpl. split.
  - rewrite bucket_setdefault_add, decide_True by done. set_solver.
  - rewrite fn_lookup_insert. simpl. set_solver.
Qed.

(** C2, amended: a commit attempt that aborts with a transaction conflict
    leaves the version-number table, the store, the set of the connected
    channels, the maps type→channels and index_key→channels, and the
    [subscribedTypes], [subscribedIndexKeys] and [definedSchemas] of every
    channel as they were; the transaction counter is one higher.  Without a
    writer channel [_id_to_channel], the [subscribedIds] of every channel and
    what every channel has been written are unchanged too.  With a writer
    channel the only other changes are on the side of the writer: it may
    have been subscribed to more identities, in [_id_to_channel] and in its
    [subscribedIds], and it may have been written [SubscriptionIncrease]
    messages. *)
Theorem C2_conflict_leaves_the_state_but_for_counter_and_writer sourceChannel
    key_value set_adds set_removes keys_to_check_versions
    indices_to_check_versions as_of_version st :
  let call := _handleNewTransaction sourceChannel key_value set_adds
                set_removes keys_to_check_versions
                indices_to_check_versions as_of_version st in
  call.2 = Return false →
  _version_numbers call.1 = _version_numbers st
  ∧ _kvstore call.1 = _kvstore st
  ∧ _clientChannels call.1 = _clientChannels st
  ∧ _type_to_channel call.1 = _type_to_channel st
  ∧ _index_to_channel call.1 = _index_to_channel st
  ∧ _cur_transaction_num call.1 = _cur_transaction_num st + 1
  ∧ (∀ c', subscribedTypes (objects call.1 c') = subscribedTypes (objects st c')
           ∧ subscribedIndexKeys (objects call.1 c')
             = subscribedIndexKeys (objects st c')
           ∧ definedSchemas (objects call.1 c')
             = definedSchemas (objects st c'))
  ∧ match sourceChannel with
    | None =>
        _id_to_channel call.1 = _id_to_channel st
        ∧ objects call.1 = objects st
        ∧ written call.1 = written st
    | Some c =>
        (∀ c', c' ≠ c → objects call.1 c' = objects st c'
                        ∧ written call.1 c' = written st c')
        ∧ (∀ i, bucket (_id_to_channel st) i
                ⊆ bucket (_id_to_channel call.1) i
                ∧ bucket (_id_to_channel call.1) i
                  ⊆ bucket (_id_to_channel st) i ∪ {[c]})
        ∧ subscribedIds (objects st c) ⊆ subscribedIds (objects call.1 c)
        ∧ ∃ l, written call.1 c = written st c ++ l
               ∧ Forall is_SubscriptionIncrease l
    end.
Proof.
  intros call Hfalse. subst call.
  destruct (handleNewTransaction_cases sourceChannel key_value set_adds
              set_removes keys_to_check_versions indices_to_check_versions
              as_of_version st)
    as [(_ & Hr & _)|[(_ & _ & _ & Hst)|(_ & _ & [Hr|Hr] & _)]];
    try (rewrite Hr in Hfalse; discriminate).
  rewrite Hst. clear Hst Hfalse.
  pose proof (expands_before_check sourceChannel set_adds st) as Hexp.
  split; [apply Hexp|]. split; [apply Hexp|]. split; [apply Hexp|].
  split; [apply Hexp|]. split; [apply Hexp|]. split; [apply Hexp|].
  split.
  { intros c'. destruct (expands_objects _ _ Hexp c') as [Heq _].
    simpl in Heq.
    split; [|split];
      [apply (f_equal subscribedTypes) in Heq
      |apply (f_equal subscribedIndexKeys) in Heq
      |apply (f_equal definedSchemas) in Heq]; exact Heq. }
  destruct sourceChannel as [c|]; [|done].
  unfold before_check in *.
  pose proof (writer_only_writer_expansion c (drop_empty set_adds)
                (set_cur_transaction_num (_cur_transaction_num st + 1) st))
    as [Ho Hw Hi Hl].
  split; [by intros c' Hc'; split; [apply Ho | apply Hw]|].
  split; [intros i; split; [apply Hexp | apply Hi]|].
  split; [apply (expands_objects _ _ Hexp c) | exact Hl].
Qed.

(** C6, amended: for a call of [_handleNewTransaction] that passes its
    assertion ([as_of_version] is below the new transaction id) with a
    writer channel, and for every entry of [set_adds] with a set of
    identities that is not empty, whose key is the " exists" index of a
    (schema, type) pair the writer is not subscribed to as a whole type:
    after the call, whatever it returns, the writer is in [_id_to_channel]
    for every added identity, every added identity is in the
    [subscribedIds] of the writer, and the writer has been written, during
    the call, a [SubscriptionIncrease] message for the index with exactly
    the identities of the entry. *)
Theorem C6_writer_is_subscribed_to_the_objects_it_creates c key_value
    set_adds set_removes keys_to_check_versions indices_to_check_versions
    as_of_version st add_index added_identities schema_name typename
    fieldval :
  _cur_transaction_num st + 1 > as_of_version →
  set_adds !! add_index = Some added_identities →
  added_identities ≠ ∅ →
  split_index_key_full add_index
  = (schema_name, typename, " exists", fieldval) →
  (schema_name, typename) ∉ subscribedTypes (objects st c) →
  let call := _handleNewTransaction (Some c) key_value set_adds set_removes
                keys_to_check_versions indices_to_check_versions
                as_of_version st in
  (∀ i, i ∈ added_identities →
        c ∈ bucket (_id_to_channel call.1) i
        ∧ i ∈ subscribedIds (objects call.1 c))
  ∧ ∃ l1 l2,
      written call.1 c
      = written st c ++ l1
        ++ [SubscriptionIncrease schema_name typename (" exists", fieldval)
              (elements added_identities)] ++ l2.
Proof.
  intros Ht Hentry Hne Hsplit Htype call.
  destruct (handleNewTransaction_grows (Some c) key_value set_adds set_removes
              keys_to_check_versions indices_to_check_versions as_of_version
              st) as [_ Hgrows].
  specialize (Hgrows Ht). fold call in Hgrows.
  destruct (writer_expansion_enrols c (map_to_list (drop_empty set_adds))
              (set_cur_transaction_num (_cur_transaction_num st + 1) st)
              add_index added_identities schema_name typename fieldval)
    as (Hids & Hbuckets & l1 & l2 & Hw); [|done|done|].
  { apply elem_of_map_to_list. unfold drop_empty.
    by apply map_lookup_filter_Some. }
  fold (writer_expansion c (drop_empty set_adds)
          (set_cur_transaction_num (_cur_transaction_num st + 1) st))
    in Hids, Hbuckets, Hw.
  change (writer_expansion c (drop_empty set_adds)
            (set_cur_transaction_num (_cur_transaction_num st + 1) st))
    with (before_check (Some c) set_adds st) in Hids, Hbuckets, Hw.
  split.
  - intros i Hi. split.
    + by apply (grows_id_to_channel _ _ Hgrows), Hbuckets.
    + apply (grows_objects _ _ Hgrows c). by apply Hids.
  - destruct (grows_written _ _ Hgrows c) as [l3 Hl3].
    exists l1, (l2 ++ l3). rewrite Hl3, Hw. simpl.
    by rewrite <- !app_assoc.
Qed.
End Claims.

(** C1 as it is stated fails for an [as_of_version] below -1: a key that
    was never written has no recorded version number, and the call returns
    [False] all the same. *)
Lemma C1_counterexample_as_of_version_below_minus_one :
  -2 ≤ _cur_transaction_num fresh_server
  ∧ (_handleNewTransaction (KM:=colon_keys) (KV:=mem_store)
       None ∅ ∅ ∅ ["k"] [] (-2) fresh_server).2 = Return false
  ∧ ¬ ∃ k v, k ∈ ["k"] ++ [] ∧ _version_numbers fresh_server !! k = Some v
             ∧ -2 < v.
Proof.
  split; [done|]. split; [by vm_compute|].
  intros (k & v & _ & Hv & _). simpl in Hv. by rewrite lookup_empty in Hv.
Qed.

Lemma C1_witness :
  let returned :=
    (_handleNewTransaction (KM:=colon_keys) (KV:=mem_store)
       None ∅ ∅ ∅ ["k"] [] 0 fresh_server).2 in
  (returned = Return false ↔
   ∃ k, k ∈ ["k"] ++ []
        ∧ 0 < default (-1) (_version_numbers fresh_server !! k))
  ∧ (-1 ≤ 0 →
     (returned = Return false ↔
      ∃ k v, k ∈ ["k"] ++ [] ∧ _version_numbers fresh_server !! k = Some v
             ∧ 0 < v)).
Proof.
  apply (C1_returns_False_iff_a_checked_version_is_above
           (KM:=colon_keys) (KV:=mem_store)).
  simpl. lia.
Defined.

(** C7 as it is stated fails for a subscription to a schema of two types:
    one [Subscription] message is written, not two. *)
Lemma C7_counterexample_schema_of_two_types :
  let call := onClientToServerMessage (KM:=colon_keys) (KV:=mem_store)
                0 1%nat (Subscribe "S" None None) S_defined in
  definedSchemas (objects S_defined 1%nat) !! "S" = Some schemaS
  ∧ size schemaS = 2%nat
  ∧ call.2 = Return tt
  ∧ written call.1 1%nat =
    written S_defined 1%nat ++ [Subscription "S" None None ∅ ∅ 1 None].
Proof. cbv zeta. split_and!; by vm_compute. Qed.

(** C8 as it is stated fails for the field "name" of type "T", which is a
    field of the type and not one of its indices: the handler returns
    normally and has subscribed the channel. *)
Lemma C8_counterexample_field_that_is_no_index :
  let call := _handleSubscription (KM:=colon_keys) (KV:=mem_store)
                1%nat "S" (Some "T") (Some ("name", "x")) S_defined in
  definedSchemas (objects S_defined 1%nat) !! "S" = Some schemaS
  ∧ schemaS !! "T" = Some typeT
  ∧ ("name" ∉ indices typeT)
  ∧ call.2 = Return tt
  ∧ _index_to_channel S_defined !! "I:S:T:name:x" = None
  ∧ _index_to_channel call.1 !! "I:S:T:name:x" = Some {[1%nat]}.
Proof.
  cbv zeta. split_and!; [by vm_compute | by vm_compute | by_computing | ..];
    by vm_compute.
Qed.

Lemma C8_witness :
  let call := _handleSubscription (KM:=colon_keys) (KV:=mem_store)
                1%nat "S" (Some "T") (Some ("name", "x")) S_defined in
  let index_key_ :=
    index_key_from_names_encoded (KeyMapping:=colon_keys) "S" "T" "name" "x" in
  call.2 = Return tt
  ∧ ("name" ≠ "_identity" →
     1%nat ∈ bucket (_index_to_channel call.1) index_key_
     ∧ index_key_ ∈ subscribedIndexKeys (objects call.1 1%nat)).
Proof.
  apply (C8_slice_subscription_does_not_check_the_index
           (KM:=colon_keys) (KV:=mem_store) 1%nat "S" "T" "name" "x"
           S_defined schemaS typeT).
  - by vm_compute.
  - by vm_compute.
Defined.

(** C2 as it is stated fails for a transaction that conflicts: the counter
    has moved, and the writer has been subscribed to the object it meant to
    create and has been told so. *)
Lemma C2_counterexample_conflict_after_the_writer_is_subscribed :
  conflicting_commit.2 = Return false
  ∧ _cur_transaction_num S_defined = 1
  ∧ _cur_transaction_num conflicting_commit.1 = 2
  ∧ subscribedIds (objects S_defined 1%nat) = ∅
  ∧ subscribedIds (objects conflicting_commit.1 1%nat) = {["id3"]}
  ∧ _id_to_channel S_defined !! "id3" = None
  ∧ _id_to_channel conflicting_commit.1 !! "id3" = Some {[1%nat]}
  ∧ written conflicting_commit.1 1%nat
    = written S_defined 1%nat
      ++ [SubscriptionIncrease "S" "T" (" exists", "True") ["id3"]].
Proof. split_and!; by vm_compute. Qed.

Lemma C2_witness :
  conflicting_commit.2 = Return false
  ∧ _version_numbers conflicting_commit.1 = _version_numbers S_defined
  ∧ _kvstore conflicting_commit.1 = _kvstore S_defined
  ∧ _cur_transaction_num conflicting_commit.1
    = _cur_transaction_num S_defined + 1.
Proof.
  assert (conflicting_commit.2 = Return false) as Hfalse by (by vm_compute).
  split; [exact Hfalse|].
  destruct (C2_conflict_leaves_the_state_but_for_counter_and_writer
              (KM:=colon_keys) (KV:=mem_store) (Some 1%nat)
              {["D:S:T:id3:name" := Some "alice"]}
              {["I:S:T: exists:True" := {["id3"]}]}
              ∅ ["D:core:Connection:idA: exists"] [] 0 S_defined Hfalse)
    as (Hv & Hkv & _ & _ & _ & Hcur & _).
  split; [exact Hv|]. split; [exact Hkv | exact Hcur].
Defined.

(** C6 as it is stated fails for an entry of [set_adds] that adds nothing,
    which [_handleNewTransaction] drops before it looks at the writer: no
    [SubscriptionIncrease] message is written.  It also fails for a call
    that fails its assertion: the writer is not subscribed to the identity
    of the entry. *)
Lemma C6_counterexample_empty_entry_and_failed_assertion :
  split_index_key_full (KeyMapping:=colon_keys) "I:S:T: exists:True"
  = ("S", "T", " exists", "True")
  ∧ (("S", "T") ∉ subscribedTypes (objects S_defined 1%nat))
  ∧ (empty_add_commit.2 = Return true
     ∧ written empty_add_commit.1 1%nat = written S_defined 1%nat)
  ∧ (early_commit.2 = Raise AssertionError
     ∧ ("id3" ∉ subscribedIds (objects early_commit.1 1%nat))
     ∧ _id_to_channel early_commit.1 !! "id3" = None
     ∧ written early_commit.1 1%nat = written S_defined 1%nat).
Proof.
  split_and!;
    [by vm_compute | by_computing | by vm_compute | by vm_compute
    | by vm_compute | by_computing | by vm_compute | by vm_compute].
Qed.

Lemma C6_witness :
  (∀ i, i ∈ ({["id3"]} : gset ident) →
        1%nat ∈ bucket (_id_to_channel creating_commit.1) i
        ∧ i ∈ subscribedIds (objects creating_commit.1 1%nat))
  ∧ ∃ l1 l2,
      written creating_commit.1 1%nat
      = written S_defined 1%nat ++ l1
        ++ [SubscriptionIncrease "S" "T" (" exists", "True")
              (elements ({["id3"]} : gset ident))] ++ l2.
Proof.
  apply (C6_writer_is_subscribed_to_the_objects_it_creates
           (KM:=colon_keys) (KV:=mem_store) 1%nat
           {["D:S:T:id3:name" := Some "alice"]}
           {["I:S:T: exists:True" := {["id3"]}]}
           ∅ [] [] 1 S_defined "I:S:T: exists:True" {["id3"]}
           "S" "T" "True").
  - by vm_compute.
  - by vm_compute.
  - by_computing.
  - by vm_compute.
  - by_computing.
Defined.

Section InvariantClaims.
Context `{KM : KeyMapping} `{KV : KVStore}.
Implicit Types (st : Server) (c : chan).

(** C3: in a state the server reaches, a call of [_handleNewTransaction]
    that returns [True] has been assigned the transaction id [t], the
    counter after its increment; right after the call the version number of
    every key of [key_value] and of every key with an entry that is not
    empty in [set_adds] or [set_removes] is [t], and [t] is above every
    version number the table held before the call. *)
Theorem C3_successful_commit_stamps_its_keys_with_a_new_id sourceChannel
    key_value set_adds set_removes keys_to_check_versions
    indices_to_check_versions as_of_version st :
  reachable st →
  let call := _handleNewTransaction sourceChannel key_value set_adds
                set_removes keys_to_check_versions
                indices_to_check_versions as_of_version st in
  call.2 = Return true →
  let t := _cur_transaction_num call.1 in
  t = _cur_transaction_num st + 1
  ∧ (∀ k, is_Some (key_value !! k) → _version_numbers call.1 !! k = Some t)
  ∧ (∀ k s, set_adds !! k = Some s → s ≠ ∅ →
            _version_numbers call.1 !! k = Some t)
  ∧ (∀ k s, set_removes !! k = Some s → s ≠ ∅ →
            _version_numbers call.1 !! k = Some t)
  ∧ (∀ k v, _version_numbers st !! k = Some v → v < t).
Proof.
  intros Hreach call Htrue t.
  assert (t = _cur_transaction_num st + 1) as Ht.
  { subst t call.
    destruct (handleNewTransaction_cases sourceChannel key_value set_adds
                set_removes keys_to_check_versions indices_to_check_versions
                as_of_version st)
      as [(_ & _ & ->)|[(_ & _ & _ & ->)|(_ & _ & _ & Hexp)]].
    - done.
    - by rewrite (expands_cur_transaction_num _ _
                    (expands_before_check sourceChannel set_adds st)).
    - rewrite (expands_cur_transaction_num _ _ Hexp). simpl.
      by rewrite (expands_cur_transaction_num _ _
                    (expands_before_check sourceChannel set_adds st)). }
  pose proof (handleNewTransaction_stamps sourceChannel key_value set_adds
                set_removes keys_to_check_versions indices_to_check_versions
                as_of_version st Htrue) as Hstamp.
  fold call in Hstamp. rewrite <- Ht in Hstamp.
  split; [done|]. split; [|split; [|split]].
  - intros k Hk. rewrite Hstamp, decide_True; [done|].
    apply elem_of_written_keys. by left.
  - intros k s Hk Hs. rewrite Hstamp, decide_True; [done|].
    apply elem_of_written_keys. right. left. by exists s.
  - intros k s Hk Hs. rewrite Hstamp, decide_True; [done|].
    apply elem_of_written_keys. right. right. by exists s.
  - intros k v Hv. destruct (reachable_invariant st Hreach) as [Hvb _].
    apply Hvb in Hv. lia.
Qed.

(** C4: in every state the server reaches by connections, messages of
    connected channels (among them [Subscribe] and [NewTransaction]) and
    drops of connections, the fan-out maps and the subscription sets of the
    connected channels are inverse to each other: a connected channel has
    identity [i] in its [subscribedIds] if and only if it is in
    [_id_to_channel[i]], and likewise for [subscribedTypes] and
    [_type_to_channel] and for [subscribedIndexKeys] and
    [_index_to_channel]; and the fan-out maps hold connected channels
    only. *)
Theorem C4_fan_out_maps_and_subscription_sets_are_inverse st :
  reachable st →
  (∀ c, c ∈ _clientChannels st →
        (∀ i, i ∈ subscribedIds (objects st c)
              ↔ c ∈ bucket (_id_to_channel st) i)
        ∧ (∀ p, p ∈ subscribedTypes (objects st c)
                ↔ c ∈ bucket (_type_to_channel st) p)
        ∧ (∀ k, k ∈ subscribedIndexKeys (objects st c)
                ↔ c ∈ bucket (_index_to_channel st) k))
  ∧ (∀ c, (∃ i, c ∈ bucket (_id_to_channel st) i)
          ∨ (∃ p, c ∈ bucket (_type_to_channel st) p)
          ∨ (∃ k, c ∈ bucket (_index_to_channel st) k) →
          c ∈ _clientChannels st).
Proof.
  intros Hreach. destruct (reachable_invariant st Hreach) as [_ [Hi Ht Hk]].
  split.
  - intros c Hc. split; [|split].
    + intros i. rewrite Hi. naive_solver.
    + intros p. rewrite Ht. naive_solver.
    + intros k. rewrite Hk. naive_solver.
  - intros c [[i Hc]|[[p Hc]|[k Hc]]].
    + by apply Hi in Hc as [? _].
    + by apply Ht in Hc as [? _].
    + by apply Hk in Hc as [? _].
Qed.
End InvariantClaims.

Lemma reachable_S_defined :
  reachable (KM:=colon_keys) (KV:=mem_store) S_defined.
Proof.
  unfold S_defined, S_connected, fresh_server.
  eapply reachable_step; [|apply step_message; by_computing].
  eapply reachable_step; [|apply step_addConnection; by_computing].
  apply reachable_init.
Qed.

Lemma reachable_S_subscribed :
  reachable (KM:=colon_keys) (KV:=mem_store) S_subscribed.
Proof.
  unfold S_subscribed.
  eapply reachable_step; [|apply step_message; by_computing].
  apply reachable_S_defined.
Qed.

Lemma C3_witness :
  creating_commit.2 = Return true
  ∧ _cur_transaction_num creating_commit.1 = _cur_transaction_num S_defined + 1
  ∧ _version_numbers creating_commit.1 !! "D:S:T:id3:name"
    = Some (_cur_transaction_num creating_commit.1)
  ∧ _version_numbers creating_commit.1 !! "I:S:T: exists:True"
    = Some (_cur_transaction_num creating_commit.1).
Proof.
  assert (creating_commit.2 = Return true) as Htrue by (by vm_compute).
  split; [exact Htrue|].
  destruct (C3_successful_commit_stamps_its_keys_with_a_new_id
              (KM:=colon_keys) (KV:=mem_store) (Some 1%nat)
              {["D:S:T:id3:name" := Some "alice"]}
              {["I:S:T: exists:True" := {["id3"]}]}
              ∅ [] [] 1 S_defined reachable_S_defined Htrue)
    as (Ht & Hkeys & Hadds & _ & _).
  split; [exact Ht|]. split.
  - apply Hkeys. by_computing.
  - apply (Hadds _ {["id3"]}); [by vm_compute | by_computing].
Defined.

Lemma C4_witness :
  (∀ c, c ∈ _clientChannels S_subscribed →
        (∀ i, i ∈ subscribedIds (objects S_subscribed c)
              ↔ c ∈ bucket (_id_to_channel S_subscribed) i)
        ∧ (∀ p, p ∈ subscribedTypes (objects S_subscribed c)
                ↔ c ∈ bucket (_type_to_channel S_subscribed) p)
        ∧ (∀ k, k ∈ subscribedIndexKeys (objects S_subscribed c)
                ↔ c ∈ bucket (_index_to_channel S_subscribed) k))
  ∧ (∀ c, (∃ i, c ∈ bucket (_id_to_channel S_subscribed) i)
          ∨ (∃ p, c ∈ bucket (_type_to_channel S_subscribed) p)
          ∨ (∃ k, c ∈ bucket (_index_to_channel S_subscribed) k) →
          c ∈ _clientChannels S_subscribed).
Proof.
  apply (C4_fan_out_maps_and_subscription_sets_are_inverse
           (KM:=colon_keys) (KV:=mem_store)).
  apply reachable_S_subscribed.
Defined.

(** ** Runs on the store in memory *)


(** C5, on the code: channel 1 is the only subscriber of type "T" of schema
    "S"; after [dropConnection] the bucket of the type is still in
    [_type_to_channel], and it is empty.  The state is one the server
    reaches. *)
Theorem C5_dropConnection_leaves_an_empty_type_bucket :
  reachable (KM:=colon_keys) (KV:=mem_store) S_dropped
  ∧ _type_to_channel S_subscribed !! ("S", "T") = Some {[1%nat]}
  ∧ _type_to_channel S_dropped !! ("S", "T") = Some ∅.
Proof.
  split; [|split].
  - unfold S_dropped. eapply reachable_step; [|apply step_dropConnection].
    apply reachable_S_subscribed.
  - by vm_compute.
  - by vm_compute.
Qed.

Lemma reachable_core_redefined :
  reachable (KM:=colon_keys) (KV:=mem_store) core_redefined.
Proof.
  unfold core_redefined, core_subscribed, core_defined, core_connected,
    fresh_server.
  eapply reachable_step; [|apply step_message; by_computing].
  eapply reachable_step; [|apply step_message; by_computing].
  eapply reachable_step; [|apply step_message; by_computing].
  eapply reachable_step; [|apply step_addConnection; by_computing].
  apply reachable_init.
Qed.

(** C9, on the code: channel 1 is subscribed to the index of the
    connections that exist and has declared schema "core" anew, without
    the type "Connection".  The store answers every call, and yet the
    transaction of [_createConnectionEntry] for a second connection raises
    [AttributeError] in [_increaseBroadcastTransactionToInclude];
    [addConnection] catches it, and channel 2 is neither registered nor
    sent its [Initialize] message. *)
Theorem C9_createConnectionEntry_raises_after_a_schema_is_redefined :
  reachable (KM:=colon_keys) (KV:=mem_store) core_redefined
  ∧ (_createConnectionEntry (KM:=colon_keys) (KV:=mem_store)
       "idB" core_redefined).2 = Raise AttributeError
  ∧ (2%nat ∉ _clientChannels
               (addConnection (KM:=colon_keys) (KV:=mem_store)
                  0 "idB" 2%nat core_redefined))
  ∧ written (addConnection (KM:=colon_keys) (KV:=mem_store)
               0 "idB" 2%nat core_redefined) 2%nat = [].
Proof.
  split; [apply reachable_core_redefined|].
  split; [by vm_compute|]. split; [by_computing | by vm_compute].
Qed.

(** A failed attempt uses up a transaction id: the connection of channel 1
    is transaction 1, the transaction that conflicts takes id 2, and the
    next successful transaction is transaction 3. *)
Example failed_commit_uses_up_a_transaction_id :
  _cur_transaction_num S_defined = 1
  ∧ conflicting_commit.2 = Return false
  ∧ _cur_transaction_num conflicting_commit.1 = 2
  ∧ commit_after_conflict.2 = Return true
  ∧ _cur_transaction_num commit_after_conflict.1 = 3.
Proof. split_and!; by vm_compute. Qed.

(** A subscription to a type whose index holds an object: the
    [Subscription] message carries the cell of the object and the set of
    the index key. *)
Example subscription_carries_the_sets_of_the_type :
  colored_commit.2 = Return true
  ∧ last (written colored_subscribed.1 1%nat)
    = Some (Subscription "S" (Some "T") None
              {["D:S:T:id3:name" := Some "alice"]}
              {["I:S:T:color:red" := {["id3"]}]} 2 None).
Proof. split; by vm_compute. Qed.

(** * Further properties of the server *)

(** ** The counter and the version numbers along a run *)

Section VersionsAlongRuns.
Context `{KM : KeyMapping} `{KV : KVStore}.
Implicit Types (st : Server) (c : chan).

Lemma handleNewTransaction_counter sourceChannel key_value set_adds
    set_removes keys_to_check_versions indices_to_check_versions
    as_of_version st :
  _cur_transaction_num
    (_handleNewTransaction sourceChannel key_value set_adds set_removes
       keys_to_check_versions indices_to_check_versions as_of_version st).1
  = _cur_transaction_num st + 1.
Proof.
  destruct (handleNewTransaction_cases sourceChannel key_value set_adds
              set_removes keys_to_check_versions indices_to_check_versions
              as_of_version st)
    as [(_ & _ & ->)|[(_ & _ & _ & ->)|(_ & _ & _ & Hexp)]].
  - done.
  - by rewrite (expands_cur_transaction_num _ _
                  (expands_before_check sourceChannel set_adds st)).
  - rewrite (expands_cur_transaction_num _ _ Hexp). simpl.
    by rewrite (expands_cur_transaction_num _ _
                  (expands_before_check sourceChannel set_adds st)).
Qed.

Lemma handleNewTransaction_version_of_key sourceChannel key_value set_adds
    set_removes keys_to_check_versions indices_to_check_versions
    as_of_version st k :
  let call := _handleNewTransaction sourceChannel key_value set_adds
                set_removes keys_to_check_versions
                indices_to_check_versions as_of_version st in
  _version_numbers call.1 !! k = _version_numbers st !! k
  ∨ _version_numbers call.1 !! k = Some (_cur_transaction_num st + 1).
Proof.
  intros call. subst call.
  destruct (handleNewTransaction_cases sourceChannel key_value set_adds
              set_removes keys_to_check_versions indices_to_check_versions
              as_of_version st)
    as [(_ & _ & ->)|[(_ & _ & _ & ->)|(_ & _ & _ & Hexp)]].
  - by left.
  - rewrite (expands_version_numbers _ _
               (expands_before_check sourceChannel set_adds st)). by left.
  - rewrite (expands_version_numbers _ _ Hexp), version_numbers_after_store.
    rewrite (expands_version_numbers _ _
               (expands_before_check sourceChannel set_adds st)). simpl.
    case_decide; [by right | by left].
Qed.

Lemma versions_advance_handleNewTransaction sourceChannel key_value set_adds
    set_removes keys_to_check_versions indices_to_check_versions
    as_of_version st :
  versions_advance st
    (_handleNewTransaction sourceChannel key_value set_adds set_removes
       keys_to_check_versions indices_to_check_versions as_of_version st).1.
Proof.
  right. split; [apply handleNewTransaction_counter|].
  intros k. apply handleNewTransaction_version_of_key.
Qed.

Lemma versions_advance_ext st1 st2 st3 :
  _cur_transaction_num st3 = _cur_transaction_num st2 →
  _version_numbers st3 = _version_numbers st2 →
  versions_advance st1 st2 → versions_advance st1 st3.
Proof. unfold versions_advance. by intros -> ->. Qed.

Lemma versions_advance_step st st' :
  consistent st → step st st' → versions_advance st st'.
Proof.
  intros Hcons Hstep. revert Hcons.
  destruct Hstep as [st0 now identity c Hc|st0 c|st0 now c msg Hc];
    intros Hcons.
  - unfold addConnection.
    pose proof (createConnectionEntry_state identity st0) as Hstate.
    pose proof (versions_advance_handleNewTransaction None
                  {[data_key core_schema_Connection identity " exists"
                    := Some "true"]}
                  {[index_key core_schema_Connection " exists" true
                    := {[identity]}]}
                  ∅ [] [] (_cur_transaction_num st0) st0) as Hadv.
    rewrite <- Hstate in Hadv.
    destruct (_createConnectionEntry identity st0) as [st1 [co|e]];
      cbn [fst] in *; [|done].
    by apply (versions_advance_ext _ st1).
  - destruct (decide (c ∈ _clientChannels st0)) as [Hc|Hc].
    + rewrite (dropConnection_connected c st0 Hc Hcons),
        dropConnectionEntry_state.
      pose proof (versions_advance_handleNewTransaction None
                    {[data_key core_schema_Connection
                        (connectionObject (objects st0 c)) " exists" := None]}
                    ∅
                    {[index_key core_schema_Connection " exists" true
                      := {[connectionObject (objects st0 c)]}]}
                    [] [] (_cur_transaction_num (unsubscribed c st0))
                    (unsubscribed c st0)) as Hadv.
      exact Hadv.
    + rewrite dropConnection_unknown by done. by left.
  - destruct msg; simpl.
    1-3: by left.
    + left. rewrite handleSubscription_unfold.
      destruct (definedSchemas (objects st0 c) !! schema) as [definition|];
        [|done].
      pose proof (subscribes_subscribe_types c schema definition
                    fieldname_and_value (∅, ∅, ∅)
                    (types_to_subscribe definition typename) st0) as Hsub.
      destruct typename as [t|], fieldname_and_value as [fv|]; try done.
      all: destruct (subscribe_types _ _ _ _ _ _ _)
             as [st1 [[[kvs sets] ids]|e]];
        cbn [fst snd] in *; split; apply Hsub.
    + pose proof (versions_advance_handleNewTransaction (Some c) writes
                    (list_to_set <$> filter (λ kv, kv.2 ≠ []) set_adds)
                    (list_to_set <$> filter (λ kv, kv.2 ≠ []) set_removes)
                    key_versions index_versions as_of_version st0) as Hadv.
      destruct (_handleNewTransaction _ _ _ _ _ _ _ _) as [st' r].
      simpl in *. by apply (versions_advance_ext _ st').
Qed.

Lemma versions_in_range_advance st st' :
  versions_in_range st → versions_advance st st' → versions_in_range st'.
Proof.
  intros [Hcur Hv] [[Hc Hvn]|[Hc Hvn]].
  - split; [lia|]. intros k v. rewrite Hvn, Hc. apply Hv.
  - split; [lia|]. intros k v Hk. rewrite Hc.
    destruct (Hvn k) as [Heq|Heq]; rewrite Heq in Hk.
    + apply Hv in Hk. lia.
    + injection Hk as <-. lia.
Qed.

(** In every state the server reaches the counter is not negative, and
    every version number is the id of a transaction that has been
    attempted: it lies between 1 and the counter. *)
Theorem reachable_versions_in_range st :
  reachable st → versions_in_range st.
Proof.
  induction 1 as [kv0|st st' Hreach IH Hstep].
  - split; [done|]. intros k v Hk. simpl in Hk. by rewrite lookup_empty in Hk.
  - eapply versions_in_range_advance; [done|].
    apply versions_advance_step; [|done].
    by apply reachable_invariant.
Qed.

(** One operation of the server (a connection, a drop, a message) moves
    the counter up by at most one and never takes a version number back:
    the version number of a key stays, or goes up to the new id. *)
Theorem step_never_lowers_counter_or_versions st st' :
  reachable st → step st st' →
  _cur_transaction_num st ≤ _cur_transaction_num st'
  ≤ _cur_transaction_num st + 1
  ∧ ∀ k v, _version_numbers st !! k = Some v →
           ∃ v', _version_numbers st' !! k = Some v' ∧ v ≤ v'.
Proof.
  intros Hreach Hstep.
  destruct (reachable_invariant st Hreach) as [Hvb Hcons].
  destruct (versions_advance_step st st' Hcons Hstep) as [[Hc Hvn]|[Hc Hvn]].
  - split; [lia|]. intros k v Hk. exists v. rewrite Hvn. split; [done | lia].
  - split; [lia|]. intros k v Hk. destruct (Hvn k) as [Heq|Heq].
    + exists v. rewrite Heq. split; [done | lia].
    + exists (_cur_transaction_num st + 1). split; [done|].
      apply Hvb in Hk. lia.
Qed.
End VersionsAlongRuns.

(** ** The messages of a commit *)

Section Messages.
Context `{KM : KeyMapping} `{KV : KVStore}.
Implicit Types (st : Server) (c : chan).

Lemma announces_refl st : announces st st.
Proof. intros c. exists []. by rewrite app_nil_r. Qed.

Lemma announces_trans st1 st2 st3 :
  announces st1 st2 → announces st2 st3 → announces st1 st3.
Proof.
  intros H12 H23 c.
  destruct (H12 c) as (l1 & E1 & F1), (H23 c) as (l2 & E2 & F2).
  exists (l1 ++ l2). split; [|by apply Forall_app].
  by rewrite E2, E1, <- app_assoc.
Qed.

Lemma announces_ext st st' : written st' = written st → announces st st'.
Proof. intros Hw c. exists []. by rewrite Hw, app_nil_r. Qed.

Lemma announces_broadcastSubscriptionIncrease c k ids st :
  announces st (_broadcastSubscriptionIncrease c k ids st).
Proof.
  unfold _broadcastSubscriptionIncrease.
  destruct (split_index_key_full k) as [[[??]?]?].
  intros c'. rewrite written_write. case_decide; subst.
  - eexists [_]. split; [done|]. by apply Forall_singleton.
  - exists []. by rewrite app_nil_r.
Qed.

Lemma announces_foldl {A} (f : Server → A → Server) (l : list A) st :
  (∀ st a, announces st (f st a)) → announces st (foldl f st l).
Proof.
  intros Hf. apply (foldl_invariant (announces st)); [apply announces_refl|].
  intros st' a _ Hst'. eapply announces_trans; [done | apply Hf].
Qed.

Lemma announces_writer_expansion c set_adds st :
  announces st (writer_expansion c set_adds st).
Proof.
  destruct (writer_only_writer_expansion c set_adds st) as [_ Hw _ Hm].
  intros c'. destruct (decide (c' = c)) as [->|Hc'].
  - done.
  - exists []. by rewrite Hw, app_nil_r.
Qed.

Lemma announces_before_check sourceChannel set_adds st :
  announces st (before_check sourceChannel set_adds st).
Proof.
  unfold before_check. destruct sourceChannel as [c|].
  - eapply announces_trans; [|apply announces_writer_expansion].
    by apply announces_ext.
  - by apply announces_ext.
Qed.

Lemma announces_expand_channel index_key_ adds st ids c :
  announces st (expand_channel index_key_ adds (st, ids) c).1.
Proof.
  unfold expand_channel. simpl.
  eapply announces_trans; [|apply announces_broadcastSubscriptionIncrease].
  apply announces_foldl. intros. by apply announces_ext.
Qed.

Lemma announces_foldl_expand_channel index_key_ adds l st ids :
  announces st (foldl (expand_channel index_key_ adds) (st, ids) l).1.
Proof.
  apply (foldl_invariant (λ acc, announces st acc.1)); [apply announces_refl|].
  intros [st1 ids1] c _ Hst1. eapply announces_trans; [exact Hst1|].
  apply announces_expand_channel.
Qed.

Lemma announces_index_expansion index_keys key_value set_adds st :
  announces st (index_expansion index_keys key_value set_adds st).1.
Proof.
  revert key_value set_adds st.
  induction index_keys as [|k ks IH]; intros key_value set_adds st; simpl.
  - apply announces_refl.
  - unfold bind, get. simpl.
    destruct (_index_to_channel st !! k) as [channels|]; [|apply IH].
    pose proof (announces_foldl_expand_channel k (bucket set_adds k)
                  (elements channels) st ∅) as Hexp.
    destruct (foldl _ _ _) as [st' ids]. simpl in Hexp.
    unfold modify. simpl.
    destruct (last (elements channels)) as [channel|].
    2: { eapply announces_trans; [done | apply IH]. }
    case_decide.
    2: { eapply announces_trans; [done | apply IH]. }
    destruct (_increaseBroadcastTransactionToInclude _ _ _ _ _ _)
      as [[kv' sa']|e]; simpl.
    + eapply announces_trans; [done | apply IH].
    + done.
Qed.

(** [for channel in channelsTriggered: channel.sendTransaction(msg)]
    writes the message once to every channel of the set. *)
Lemma written_foldl_sendTransaction (l : list chan) msg st c :
  NoDup l →
  written (foldl (λ st channel, sendTransaction channel msg st) st l) c
  = written st c ++ (if decide (c ∈ l) then [msg] else []).
Proof.
  revert st. induction l as [|ch l IH]; intros st Hnd.
  - rewrite decide_False by apply not_elem_of_nil. by rewrite app_nil_r.
  - apply NoDup_cons in Hnd as [Hch Hnd].
    change (foldl ?f ?a (?x :: ?t)) with (foldl f (f a x) t).
    rewrite IH by done. unfold sendTransaction at 1. rewrite written_write.
    destruct (decide (c = ch)) as [->|Hne].
    + rewrite (decide_False (P:=ch ∈ l)) by done.
      rewrite decide_True by left. by rewrite app_nil_r.
    + destruct (decide (c ∈ l)) as [Hl|Hl].
      * rewrite decide_True by (by right). done.
      * rewrite decide_False; [done|]. rewrite elem_of_cons. by intros [|].
Qed.

Lemma written_broadcast channels msg st c :
  written (broadcast channels msg st) c
  = written st c ++ (if decide (c ∈ channels) then [msg] else []).
Proof.
  unfold broadcast.
  rewrite written_foldl_sendTransaction by apply NoDup_elements.
  destruct (decide (c ∈ elements channels)) as [Hc|Hc];
    rewrite elem_of_elements in Hc.
  - by rewrite decide_True.
  - by rewrite decide_False.
Qed.

Lemma broadcast_state channels msg st :
  broadcast channels msg st
  = set_written (written (broadcast channels msg st)) st.
Proof.
  unfold broadcast.
  apply (foldl_invariant (λ st', st' = set_written (written st') st)).
  - by destruct st.
  - intros st' ch _ Hst'. rewrite Hst'. reflexivity.
Qed.

Lemma elem_of_channelsTriggered pairs identities st c :
  c ∈ channelsTriggered pairs identities st
  ↔ (∃ p, p ∈ pairs ∧ c ∈ bucket (_type_to_channel st) p)
    ∨ (∃ i, i ∈ identities ∧ c ∈ bucket (_id_to_channel st) i).
Proof.
  unfold channelsTriggered.
  rewrite elem_of_union, !elem_of_union_list. split.
  - intros [(X & HX & Hc)|(X & HX & Hc)];
      apply list_elem_of_fmap in HX as (x & -> & Hx%elem_of_elements); eauto.
  - intros [(p & Hp & Hc)|(i & Hi & Hc)]; [left | right].
    + eexists. split; [|exact Hc]. apply list_elem_of_fmap. exists p.
      by rewrite elem_of_elements.
    + eexists. split; [|exact Hc]. apply list_elem_of_fmap. exists i.
      by rewrite elem_of_elements.
Qed.

Lemma handleNewTransaction_written sourceChannel key_value
    set_adds set_removes keys_to_check_versions indices_to_check_versions
    as_of_version st :
  let call := _handleNewTransaction sourceChannel key_value set_adds
                set_removes keys_to_check_versions
                indices_to_check_versions as_of_version st in
  let sa := drop_empty set_adds in
  let sr := drop_empty set_removes in
  ∃ (recipients : gset chan) (writes : gmap key (option value))
    (adds : gmap key (gset ident)),
    (call.2 = Return true →
     recipients = channelsTriggered (schemaTypePairsWriting key_value sa sr)
                    (identities_mentioned key_value sa sr) call.1)
    ∧ (call.2 ≠ Return true → recipients = ∅)
    ∧ ∀ c, ∃ increases,
        Forall is_SubscriptionIncrease increases
        ∧ written call.1 c
          = written st c ++ increases
            ++ (if decide (c ∈ recipients)
                then [Transaction writes adds sr (_cur_transaction_num st + 1)]
                else []).
Proof.
  intros call sa sr. subst call.
  rewrite handleNewTransaction_unfold. cbv zeta.
  pose proof (announces_before_check sourceChannel set_adds st) as Hbefore.
  destruct (decide (_ > _)) as [Ht|Ht].
  2: { exists ∅, ∅, ∅. split; [done|]. split; [done|]. intros c.
       exists []. split; [done|]. simpl.
       rewrite decide_False by set_solver. by rewrite app_nil_r. }
  destruct (conflict _ _ _).
  { exists ∅, ∅, ∅. split; [done|]. split; [done|]. intros c.
    destruct (Hbefore c) as (l & Hl & HF). exists l. split; [done|].
    simpl. rewrite decide_False by set_solver. by rewrite app_nil_r. }
  pose proof (announces_index_expansion (map_to_list sa).*1 key_value sa
                (after_store key_value set_adds set_removes
                   (_cur_transaction_num st + 1)
                   (before_check sourceChannel set_adds st))) as Hexp.
  fold sa sr.
  destruct (index_expansion _ _ _ _) as [st5 [[kv' sa']|e]]; simpl in *.
  - exists (channelsTriggered (schemaTypePairsWriting key_value sa sr)
              (identities_mentioned key_value sa sr) st5), kv', sa'.
    split; [by rewrite broadcast_state|]. split; [done|]. intros c.
    destruct (Hbefore c) as (l1 & Hl1 & HF1), (Hexp c) as (l2 & Hl2 & HF2).
    exists (l1 ++ l2). split; [by apply Forall_app|].
    rewrite written_broadcast, Hl2. simpl. rewrite Hl1.
    by rewrite <- !app_assoc.
  - exists ∅, ∅, ∅. split; [done|]. split; [done|]. intros c.
    destruct (Hbefore c) as (l1 & Hl1 & HF1), (Hexp c) as (l2 & Hl2 & HF2).
    exists (l1 ++ l2). split; [by apply Forall_app|].
    rewrite Hl2. simpl. rewrite Hl1, decide_False by set_solver.
    by rewrite app_nil_r, <- !app_assoc.
Qed.
(** What a commit writes to the channels.  Every channel is written a run
    of [SubscriptionIncrease] messages, and then the channels the
    transaction triggers are written one [Transaction] message, the same
    for all, with the id of the transaction and the removals of the
    request.  The transaction triggers the channels of [channelsTriggered]
    when the call returns [True], and none when the call returns [False]
    or raises. *)
Theorem commit_writes_increases_then_one_transaction sourceChannel key_value
    set_adds set_removes keys_to_check_versions indices_to_check_versions
    as_of_version st :
  let call := _handleNewTransaction sourceChannel key_value set_adds
                set_removes keys_to_check_versions
                indices_to_check_versions as_of_version st in
  let sa := drop_empty set_adds in
  let sr := drop_empty set_removes in
  ∃ (recipients : gset chan) (writes : gmap key (option value))
    (adds : gmap key (gset ident)),
    (call.2 = Return true →
     recipients = channelsTriggered (schemaTypePairsWriting key_value sa sr)
                    (identities_mentioned key_value sa sr) call.1)
    ∧ (call.2 ≠ Return true → recipients = ∅)
    ∧ ∀ c, ∃ increases,
        Forall is_SubscriptionIncrease increases
        ∧ written call.1 c
          = written st c ++ increases
            ++ (if decide (c ∈ recipients)
                then [Transaction writes adds sr (_cur_transaction_num st + 1)]
                else []).
Proof.
  apply handleNewTransaction_written.
Qed.
End Messages.

(** ** The recipients of a transaction *)

Section Recipients.
Context `{KM : KeyMapping} `{KV : KVStore}.
Implicit Types (st : Server) (c : chan).


Lemma entry_is_mentioned (key_value : gmap key (option value))
    (set_adds set_removes : gmap key (gset ident)) k ids :
  set_adds !! k = Some ids ∨ set_removes !! k = Some ids →
  ids ≠ ∅ →
  split_index_key k ∈ schemaTypePairsWriting key_value set_adds set_removes
  ∧ ids ⊆ identities_mentioned key_value set_adds set_removes.
Proof.
  intros Hk Hids.
  assert ((k, ids) ∈ written_entries set_adds ++ written_entries set_removes)
    as Hin.
  { apply elem_of_app. rewrite !elem_of_written_entries. naive_solver. }
  unfold schemaTypePairsWriting, identities_mentioned. split.
  - apply elem_of_union_r, elem_of_list_to_set, list_elem_of_fmap.
    by exists (k, ids).
  - intros i Hi. apply elem_of_union_r, elem_of_union_list.
    exists ids. split; [|done]. apply list_elem_of_fmap. by exists (k, ids).
Qed.

End Recipients.

(** ** The objects added to a transaction that is broadcast *)

Section IncreaseBroadcast.
Context `{KM : KeyMapping} `{KV : KVStore}.
Implicit Types (st : Server) (c : chan).

Lemma elem_of_keys_of_names {A} (g : ident → A → key) (names : list A)
    (ids : list ident) k :
  k ∈ (name ← names; ident_ ← ids; [g ident_ name])
  ↔ ∃ name ident_, name ∈ names ∧ ident_ ∈ ids ∧ k = g ident_ name.
Proof.
  rewrite list_elem_of_bind. split.
  - intros (name & (i & Hk%list_elem_of_singleton & Hi)%list_elem_of_bind
            & Hname). eauto.
  - intros (name & i & Hname & Hi & ->). exists name. split; [|done].
    apply list_elem_of_bind. exists i. by rewrite list_elem_of_singleton.
Qed.

(** The loop that files the new identities under the index keys of their
    field values. *)
Lemma elem_of_bucket_reverse_fold (m : gmap key (option value))
    (ik : string → value → key) (names : list string) (ids : list ident)
    (set_adds : gmap key (gset ident)) k i :
  i ∈ bucket
        (foldl (λ set_adds index_name,
           foldl (λ set_adds ident_,
             match m !! data_reverse_index_key ident_ index_name with
             | Some (Some fieldval) =>
                 setdefault_add (ik index_name fieldval) ident_ set_adds
             | _ => set_adds
             end) set_adds ids) set_adds names) k
  ↔ i ∈ bucket set_adds k
    ∨ (i ∈ ids
       ∧ ∃ index_name fieldval,
           index_name ∈ names
           ∧ m !! data_reverse_index_key i index_name = Some (Some fieldval)
           ∧ k = ik index_name fieldval).
Proof.
  revert set_adds. induction names as [|n names IH]; intros set_adds.
  - simpl. split; [by left|]. intros [?|(_ & ? & ? & []%elem_of_nil & _)].
    done.
  - change (foldl ?f ?a (?x :: ?r)) with (foldl f (f a x) r). rewrite IH.
    clear IH.
    assert (∀ set_adds,
              i ∈ bucket
                    (foldl (λ set_adds ident_,
                       match m !! data_reverse_index_key ident_ n with
                       | Some (Some fieldval) =>
                           setdefault_add (ik n fieldval) ident_ set_adds
                       | _ => set_adds
                       end) set_adds ids) k
              ↔ i ∈ bucket set_adds k
                ∨ (i ∈ ids
                   ∧ ∃ fieldval,
                       m !! data_reverse_index_key i n = Some (Some fieldval)
                       ∧ k = ik n fieldval)) as Hinner.
    { clear set_adds. induction ids as [|i0 ids IH]; intros set_adds.
      - simpl. split; [by left|]. by intros [?|([]%elem_of_nil & _)].
      - change (foldl ?f ?a (?x :: ?r)) with (foldl f (f a x) r).
        rewrite IH. clear IH. setoid_rewrite elem_of_cons.
        destruct (m !! data_reverse_index_key i0 n) as [[fv|]|] eqn:Hm.
        + rewrite elem_of_bucket_setdefault_add. split.
          * intros [[?|[-> ->]]|?]; [by left| |naive_solver].
            right. split; [by left|]. by exists fv.
          * intros [?|([->|?] & fv' & Hfv & ->)]; [by left; left| |].
            -- rewrite Hm in Hfv. injection Hfv as <-. left. right. done.
            -- right. split; [done|]. by exists fv'.
        + split; [naive_solver|].
          intros [?|([->|?] & fv' & Hfv & ->)]; [by left| |naive_solver].
          by rewrite Hm in Hfv.
        + split; [naive_solver|].
          intros [?|([->|?] & fv' & Hfv & ->)]; [by left| |naive_solver].
          by rewrite Hm in Hfv. }
    rewrite Hinner. setoid_rewrite elem_of_cons. split.
    + intros [[?|(Hi & fv & Hfv & ->)]|(Hi & n' & fv & Hn' & Hfv & ->)].
      * by left.
      * right. split; [done|]. exists n, fv. split; [by left | done].
      * right. split; [done|]. exists n', fv. split; [by right | done].
    + intros [?|(Hi & n' & fv & [->|Hn'] & Hfv & ->)].
      * by left; left.
      * left. right. split; [done|]. by exists fv.
      * right. split; [done|]. by exists n', fv.
Qed.

(** What [_increaseBroadcastTransactionToInclude] does.  It raises when
    the channel has not defined the schema of the index key, or when the
    definition lacks the type.  Otherwise [key_value] is given the value in
    the store of every field of the type for every new identity and keeps
    its other entries, and a new identity is added to [set_adds] under the
    index key of every index of the type for which the store holds a
    reverse pointer of the identity; nothing else is added. *)
Lemma increaseBroadcastTransactionToInclude_cases st channel indexKey
    (newIds : gset ident) (key_value : gmap key (option value))
    (set_adds : gmap key (gset ident)) schema_name typename fieldname
    fieldval :
  split_index_key_full indexKey
  = (schema_name, typename, fieldname, fieldval) →
  match
    match definedSchemas (objects st channel) !! schema_name with
    | Some definition => definition !! typename
    | None => None
    end
  with
  | None =>
      _increaseBroadcastTransactionToInclude st channel indexKey newIds
        key_value set_adds = Raise AttributeError
  | Some typedef =>
      ∃ key_value' set_adds',
        _increaseBroadcastTransactionToInclude st channel indexKey newIds
          key_value set_adds = Return (key_value', set_adds')
        ∧ (∀ field i, field ∈ fields typedef → i ∈ newIds →
             key_value' !! data_key_from_names schema_name typename i field
             = Some (kv_get (_kvstore st)
                       (data_key_from_names schema_name typename i field)))
        ∧ (∀ k, (∀ field i, field ∈ fields typedef → i ∈ newIds →
                   k ≠ data_key_from_names schema_name typename i field) →
                key_value' !! k = key_value !! k)
        ∧ (∀ k i,
             i ∈ bucket set_adds' k
             ↔ i ∈ bucket set_adds k
               ∨ (i ∈ newIds
                  ∧ ∃ index_name val,
                      index_name ∈ indices typedef
                      ∧ kv_get (_kvstore st)
                          (data_reverse_index_key i index_name) = Some val
                      ∧ k = index_key_from_names_encoded schema_name
                              typename index_name val))
  end.
Proof.
  intros Hsplit. unfold _increaseBroadcastTransactionToInclude.
  rewrite Hsplit.
  destruct (definedSchemas (objects st channel) !! schema_name)
    as [definition|]; [|done].
  destruct (definition !! typename) as [typedef|]; [|done].
  eexists _, _. split; [done|]. split; [|split].
  - intros field i Hfield Hi. rewrite lookup_update_zip_getSeveral.
    rewrite decide_True; [done|].
    apply (elem_of_keys_of_names
             (λ i f, data_key_from_names schema_name typename i f)).
    exists field, i. by rewrite elem_of_elements.
  - intros k Hk. rewrite lookup_update_zip_getSeveral.
    rewrite decide_False; [done|].
    intros (field & i & Hfield & Hi & ->)%(elem_of_keys_of_names
             (λ i f, data_key_from_names schema_name typename i f)).
    apply elem_of_elements in Hi. by apply (Hk field i).
  - intros k i.
    rewrite (elem_of_bucket_reverse_fold _
               (index_key_from_names_encoded schema_name typename)).
    rewrite elem_of_elements.
    assert (∀ index_name, index_name ∈ indices typedef → i ∈ newIds →
              data_reverse_index_key i index_name
              ∈ (index_name ← indices typedef; ident_ ← elements newIds;
                 [data_reverse_index_key ident_ index_name])) as Hin.
    { intros n Hn Hi.
      apply (elem_of_keys_of_names (λ i n, data_reverse_index_key i n)).
      exists n, i. by rewrite elem_of_elements. }
    split.
    + intros [?|(Hi & n & val & Hn & Hm & ->)]; [by left|].
      right. split; [done|]. exists n, val. split; [done|].
      rewrite lookup_update_zip_getSeveral in Hm.
      rewrite decide_True in Hm by (by apply Hin). by injection Hm as ->.
    + intros [?|(Hi & n & val & Hn & Hm & ->)]; [by left|].
      right. split; [done|]. exists n, val. split; [done|].
      rewrite lookup_update_zip_getSeveral.
      rewrite decide_True by (by apply Hin). by rewrite Hm.
Qed.

(** What [_increaseBroadcastTransactionToInclude] returns holds the
    entries of [set_adds] it was given. *)
Lemma increaseBroadcastTransactionToInclude_grows st channel indexKey
    newIds key_value set_adds key_value' set_adds' k :
  _increaseBroadcastTransactionToInclude st channel indexKey newIds
    key_value set_adds = Return (key_value', set_adds') →
  bucket set_adds k ⊆ bucket set_adds' k.
Proof.
  intros Hr.
  destruct (split_index_key_full indexKey) as [[[s t] f] v] eqn:Hsplit.
  pose proof (increaseBroadcastTransactionToInclude_cases st channel
                indexKey newIds key_value set_adds s t f v Hsplit) as Hcases.
  destruct (match definedSchemas (objects st channel) !! s with
            | Some definition => definition !! t
            | None => None
            end) as [typedef|].
  - destruct Hcases as (kv' & sa' & Hr' & _ & _ & Hsa).
    rewrite Hr in Hr'. injection Hr' as <- <-.
    intros i Hi. apply Hsa. by left.
  - by rewrite Hr in Hcases.
Qed.

(** [_increaseBroadcastTransactionToInclude] raises [AttributeError] when
    the channel it is given has not defined the schema of the index key or
    when the definition lacks the type.  Otherwise it returns: the
    dictionary of writes then holds the value in the store of every field
    of the type for every new identity, and keeps its other entries; a new
    identity is in [set_adds] under the index key of every index of the
    type for which the store holds a reverse pointer of the identity, and
    nothing else is added to [set_adds]. *)
Theorem increaseBroadcastTransactionToInclude_pulls_the_new_objects st
    channel indexKey (newIds : gset ident)
    (key_value : gmap key (option value))
    (set_adds : gmap key (gset ident)) schema_name typename fieldname
    fieldval :
  split_index_key_full indexKey
  = (schema_name, typename, fieldname, fieldval) →
  match
    match definedSchemas (objects st channel) !! schema_name with
    | Some definition => definition !! typename
    | None => None
    end
  with
  | None =>
      _increaseBroadcastTransactionToInclude st channel indexKey newIds
        key_value set_adds = Raise AttributeError
  | Some typedef =>
      ∃ key_value' set_adds',
        _increaseBroadcastTransactionToInclude st channel indexKey newIds
          key_value set_adds = Return (key_value', set_adds')
        ∧ (∀ field i, field ∈ fields typedef → i ∈ newIds →
             key_value' !! data_key_from_names schema_name typename i field
             = Some (kv_get (_kvstore st)
                       (data_key_from_names schema_name typename i field)))
        ∧ (∀ k, (∀ field i, field ∈ fields typedef → i ∈ newIds →
                   k ≠ data_key_from_names schema_name typename i field) →
                key_value' !! k = key_value !! k)
        ∧ (∀ k i,
             i ∈ bucket set_adds' k
             ↔ i ∈ bucket set_adds k
               ∨ (i ∈ newIds
                  ∧ ∃ index_name val,
                      index_name ∈ indices typedef
                      ∧ kv_get (_kvstore st)
                          (data_reverse_index_key i index_name) = Some val
                      ∧ k = index_key_from_names_encoded schema_name
                              typename index_name val))
  end.
Proof. apply increaseBroadcastTransactionToInclude_cases. Qed.
End IncreaseBroadcast.

(** ** Index subscriptions that a commit extends *)

Section Slices.
Context `{KM : KeyMapping} `{KV : KVStore}.
Implicit Types (st : Server) (c : chan).

Lemma foldl_enrol_identity_subscribes c (l : list ident) st i :
  i ∈ l →
  i ∈ subscribedIds (objects (foldl (λ st i, enrol_identity c i st) st l) c).
Proof.
  revert st. induction l as [|i0 l IH]; intros st Hi.
  - by apply elem_of_nil in Hi.
  - change (foldl ?f ?a (?x :: ?r)) with (foldl f (f a x) r).
    apply elem_of_cons in Hi as [->|Hi]; [|by apply IH].
    pose proof (expands_foldl (λ st i, enrol_identity c i st) l
                  (enrol_identity c i0 st)
                  (λ st i, expands_enrol_identity c i st)) as Hexp.
    apply (expands_objects _ _ Hexp c).
    unfold enrol_identity. rewrite objects_modify_channel.
    rewrite decide_True by done. simpl. set_solver.
Qed.

Lemma written_foldl_enrol_identity c (l : list ident) st :
  written (foldl (λ st i, enrol_identity c i st) st l) = written st.
Proof. by apply (foldl_invariant (λ st', written st' = written st)). Qed.

(** One round of the loop over the channels of an index key: the channel
    is subscribed to the identities added and is sent one
    [SubscriptionIncrease]. *)
Lemma expand_channel_subscribes index_key_ adds st ids c schema_name typename
    fieldname fieldval :
  split_index_key_full index_key_
  = (schema_name, typename, fieldname, fieldval) →
  let st' := (expand_channel index_key_ adds (st, ids) c).1 in
  adds ⊆ subscribedIds (objects st' c)
  ∧ written st' c
    = written st c
      ++ [SubscriptionIncrease schema_name typename (fieldname, fieldval)
            (elements (adds ∖ subscribedIds (objects st c)))].
Proof.
  intros Hsplit st'. split.
  - intros i Hi.
    destruct (decide (i ∈ subscribedIds (objects st c))) as [Hold|Hnew].
    + by apply (expands_objects _ _ (expands_expand_channel index_key_ adds
                                       st ids c) c).
    + subst st'. unfold expand_channel. cbn [fst].
      apply (expands_objects _ _ (expands_broadcastSubscriptionIncrease
                                    c index_key_ _ _) c).
      apply foldl_enrol_identity_subscribes, elem_of_elements. set_solver.
  - subst st'. unfold expand_channel. cbn [fst].
    unfold _broadcastSubscriptionIncrease. rewrite Hsplit.
    rewrite written_write, decide_True by done.
    by rewrite written_foldl_enrol_identity.
Qed.

Lemma foldl_expand_channel_subscribes index_key_ adds (l : list chan) st ids c
    schema_name typename fieldname fieldval :
  split_index_key_full index_key_
  = (schema_name, typename, fieldname, fieldval) →
  c ∈ l →
  let st' := (foldl (expand_channel index_key_ adds) (st, ids) l).1 in
  adds ⊆ subscribedIds (objects st' c)
  ∧ ∃ l1 new l2,
      written st' c
      = written st c ++ l1
        ++ [SubscriptionIncrease schema_name typename (fieldname, fieldval)
              new] ++ l2.
Proof.
  intros Hsplit. revert st ids. induction l as [|ch l IH]; intros st ids Hc.
  - by apply elem_of_nil in Hc.
  - change (foldl ?f ?a (?x :: ?r)) with (foldl f (f a x) r).
    pose proof (expands_expand_channel index_key_ adds st ids ch) as Hfirst.
    destruct (expand_channel index_key_ adds (st, ids) ch) as [st1 ids1]
      eqn:Hstep.
    cbn [fst] in Hfirst.
    apply elem_of_cons in Hc as [->|Hc].
    + pose proof (expand_channel_subscribes index_key_ adds st ids ch _ _ _ _
                    Hsplit) as [Hsub Hw].
      rewrite Hstep in Hsub, Hw. cbn [fst] in Hsub, Hw.
      pose proof (expands_foldl_expand_channel index_key_ adds l st1 ids1)
        as Hrest.
      cbv zeta. split.
      * etrans; [exact Hsub|]. apply (expands_objects _ _ Hrest ch).
      * destruct (expands_written _ _ Hrest ch) as [l2 Hl2].
        exists [], (elements (adds ∖ subscribedIds (objects st ch))), l2.
        by rewrite Hl2, Hw, <- !app_assoc.
    + destruct (IH st1 ids1 Hc) as [Hsub (l1 & new & l2 & Hw)].
      cbv zeta. split; [done|].
      destruct (expands_written _ _ Hfirst c) as [l0 Hl0].
      exists (l0 ++ l1), new, l2. by rewrite Hw, Hl0, <- !app_assoc.
Qed.

(** The loop over the index keys of a commit, when it raises nothing: a
    channel registered for one of the keys is subscribed to the identities
    added under it and is sent a [SubscriptionIncrease] for the key. *)
Lemma index_expansion_subscribes index_keys key_value set_adds st st'
    key_value' set_adds' k c schema_name typename fieldname fieldval :
  index_expansion index_keys key_value set_adds st
  = (st', Return (key_value', set_adds')) →
  split_index_key_full k = (schema_name, typename, fieldname, fieldval) →
  k ∈ index_keys →
  c ∈ bucket (_index_to_channel st) k →
  bucket set_adds k ⊆ subscribedIds (objects st' c)
  ∧ ∃ l1 new l2,
      written st' c
      = written st c ++ l1
        ++ [SubscriptionIncrease schema_name typename (fieldname, fieldval)
              new] ++ l2.
Proof.
  intros Hrun Hsplit. revert key_value set_adds st Hrun.
  induction index_keys as [|k0 ks IH]; intros key_value set_adds st Hrun Hk Hc.
  - by apply elem_of_nil in Hk.
  - simpl in Hrun. unfold bind, get in Hrun. simpl in Hrun.
    destruct (_index_to_channel st !! k0) as [channels|] eqn:Hk0.
    2: { apply elem_of_cons in Hk as [->|Hk]; [|by apply (IH key_value)].
         unfold bucket in Hc. rewrite Hk0 in Hc. set_solver. }
    pose proof (expands_foldl_expand_channel k0 (bucket set_adds k0)
                  (elements channels) st ∅) as Hexp.
    pose proof (λ Hin, foldl_expand_channel_subscribes k (bucket set_adds k)
                  (elements channels) st ∅ c _ _ _ _ Hsplit Hin) as Hhere.
    destruct (foldl (expand_channel k0 (bucket set_adds k0)) (st, ∅)
                (elements channels)) as [st1 ids1] eqn:Hfold.
    cbn [fst] in Hexp. unfold modify in Hrun. simpl in Hrun.
    assert (∃ kv1 sa1,
              index_expansion ks kv1 sa1 st1
              = (st', Return (key_value', set_adds'))
              ∧ ∀ k', bucket set_adds k' ⊆ bucket sa1 k') as
      (kv1 & sa1 & Hrest & Hsa).
    { destruct (last (elements channels)) as [channel|]; [|by eauto].
      case_decide; [|by eauto].
      destruct (_increaseBroadcastTransactionToInclude st1 channel k0 ids1
                  key_value set_adds) as [[kv1 sa1]|e] eqn:Hinc;
        [|discriminate].
      exists kv1, sa1. split; [done|]. intros k'.
      by eapply increaseBroadcastTransactionToInclude_grows. }
    pose proof (expands_index_expansion ks kv1 sa1 st1) as Hexp'.
    rewrite Hrest in Hexp'. cbn [fst] in Hexp'.
    apply elem_of_cons in Hk as [->|Hk].
    + assert (c ∈ elements channels) as Hin.
      { apply elem_of_elements. unfold bucket in Hc. by rewrite Hk0 in Hc. }
      specialize (Hhere Hin). rewrite Hfold in Hhere. cbn [fst] in Hhere.
      destruct Hhere as [Hsub (l1 & new & l2 & Hw)]. split.
      * etrans; [exact Hsub|]. apply (expands_objects _ _ Hexp' c).
      * destruct (expands_written _ _ Hexp' c) as [l3 Hl3].
        exists l1, new, (l2 ++ l3). by rewrite Hl3, Hw, <- !app_assoc.
    + destruct (IH kv1 sa1 st1 Hrest Hk) as [Hsub (l1 & new & l2 & Hw)].
      { by rewrite (expands_index_to_channel _ _ Hexp). }
      split; [by etrans; [apply Hsa|]|].
      destruct (expands_written _ _ Hexp c) as [l0 Hl0].
      exists (l0 ++ l1), new, l2. by rewrite Hw, Hl0, <- !app_assoc.
Qed.

(** The state and the message of a call that returns [True]. *)
Lemma handleNewTransaction_returns_True sourceChannel key_value set_adds
    set_removes keys_to_check_versions indices_to_check_versions
    as_of_version st :
  let call := _handleNewTransaction sourceChannel key_value set_adds
                set_removes keys_to_check_versions
                indices_to_check_versions as_of_version st in
  let t := _cur_transaction_num st + 1 in
  let sa := drop_empty set_adds in
  let sr := drop_empty set_removes in
  call.2 = Return true →
  ∃ st5 key_value' set_adds',
    index_expansion (map_to_list sa).*1 key_value sa
      (after_store key_value set_adds set_removes t
         (before_check sourceChannel set_adds st))
    = (st5, Return (key_value', set_adds'))
    ∧ call.1
      = broadcast
          (channelsTriggered (schemaTypePairsWriting key_value sa sr)
             (identities_mentioned key_value sa sr) st5)
          (Transaction key_value' set_adds' sr t) st5.
Proof.
  intros call t sa sr. subst call.
  rewrite handleNewTransaction_unfold. cbv zeta. fold t sa sr.
  destruct (decide _); [|done]. destruct (conflict _ _ _); [done|].
  destruct (index_expansion _ _ _ _) as [st5 [[kv' sa']|e]]; [|done].
  intros _. by exists st5, kv', sa'.
Qed.

(** A transaction that is committed extends the subscriptions to the
    index keys it adds to.  In a state the server reaches, with a writer
    that is connected (or none), a channel registered for an index key
    under which the transaction adds identities is, after the call,
    subscribed to each of them and registered for each of them; it has been
    written a [SubscriptionIncrease] for the index key, and then, as its
    last message, the [Transaction]. *)
Theorem committed_adds_extend_the_index_subscriptions sourceChannel key_value
    set_adds set_removes keys_to_check_versions indices_to_check_versions
    as_of_version st k ids c schema_name typename fieldname fieldval :
  let call := _handleNewTransaction sourceChannel key_value set_adds
                set_removes keys_to_check_versions
                indices_to_check_versions as_of_version st in
  reachable st →
  (∀ writer, sourceChannel = Some writer → writer ∈ _clientChannels st) →
  call.2 = Return true →
  set_adds !! k = Some ids → ids ≠ ∅ →
  split_index_key_full k = (schema_name, typename, fieldname, fieldval) →
  c ∈ bucket (_index_to_channel st) k →
  ids ⊆ subscribedIds (objects call.1 c)
  ∧ (∀ i, i ∈ ids → c ∈ bucket (_id_to_channel call.1) i)
  ∧ ∃ l1 new l2 writes adds,
      written call.1 c
      = written st c ++ l1
        ++ [SubscriptionIncrease schema_name typename (fieldname, fieldval)
              new]
        ++ l2
        ++ [Transaction writes adds (drop_empty set_removes)
              (_cur_transaction_num st + 1)].
Proof.
  intros call Hreach Hwriter Htrue Hk Hids Hsplit Hc.
  destruct (reachable_invariant st Hreach) as [_ Hcons].
  pose proof (consistent_handleNewTransaction sourceChannel key_value
                set_adds set_removes keys_to_check_versions
                indices_to_check_versions as_of_version st Hwriter Hcons)
    as Hcons'.
  destruct (handleNewTransaction_grows sourceChannel key_value set_adds
              set_removes keys_to_check_versions indices_to_check_versions
              as_of_version st) as [Hgrows _].
  destruct (handleNewTransaction_returns_True sourceChannel key_value
              set_adds set_removes keys_to_check_versions
              indices_to_check_versions as_of_version st Htrue)
    as (st5 & kv' & sa' & Hrun & Hcall).
  fold call in Hcons', Hgrows, Hcall.
  assert (drop_empty set_adds !! k = Some ids) as Hk'
    by (by apply lookup_drop_empty).
  destruct (index_expansion_subscribes _ _ _ _ _ _ _ k c _ _ _ _ Hrun Hsplit)
    as [Hsub (l1 & new & l2 & Hw)].
  { apply list_elem_of_fmap. exists (k, ids).
    by rewrite elem_of_map_to_list. }
  { unfold after_store. simpl.
    by rewrite (grows_index_to_channel _ _
                  (grows_before_check sourceChannel set_adds st)). }
  rewrite (bucket_Some _ _ _ Hk') in Hsub.
  assert (objects call.1 = objects st5) as Hobj
    by (by rewrite Hcall, broadcast_state).
  assert (ids ⊆ subscribedIds (objects call.1 c)) as Hsub'
    by (by rewrite Hobj).
  assert (c ∈ _clientChannels call.1) as Hconn.
  { rewrite (grows_clientChannels _ _ Hgrows).
    by apply (consistent_index_keys _ Hcons c k). }
  assert (∀ i, i ∈ ids → c ∈ bucket (_id_to_channel call.1) i) as Hreg.
  { intros i Hi. apply (consistent_ids _ Hcons'). split; [done|].
    by apply Hsub'. }
  split; [done|]. split; [done|].
  destruct (announces_before_check sourceChannel set_adds st c)
    as (l0 & Hl0 & _).
  exists (l0 ++ l1), new, l2, kv', sa'.
  rewrite Hcall, written_broadcast, Hw. unfold after_store. simpl.
  rewrite Hl0. rewrite decide_True.
  { by rewrite <- !app_assoc. }
  apply elem_of_channelsTriggered. right.
  destruct (set_choose_L ids Hids) as [i Hi]. exists i. split.
  - apply (entry_is_mentioned key_value (drop_empty set_adds)
             (drop_empty set_removes) k ids); [by left | done | done].
  - specialize (Hreg i Hi). by rewrite Hcall, broadcast_state in Hreg.
Qed.
End Slices.

(** ** Dropping a connection *)

Section Drop.
Context `{KM : KeyMapping} `{KV : KVStore}.
Implicit Types (st : Server) (c : chan).

(** The transaction of [_dropConnectionEntry] adds to no index: it
    subscribes no channel to anything. *)
Lemma dropConnectionEntry_objects entry st :
  objects (_dropConnectionEntry entry st).1 = objects st.
Proof.
  rewrite dropConnectionEntry_state, handleNewTransaction_unfold. cbv zeta.
  rewrite decide_True by lia. simpl conflict. cbv iota.
  unfold drop_empty at 1 2. rewrite map_filter_empty, map_to_list_empty.
  simpl. by rewrite broadcast_state.
Qed.

Lemma dropConnection_state c st :
  consistent st →
  let call := dropConnection c st in
  consistent call.1
  ∧ call.2 = Return tt
  ∧ _clientChannels call.1 = _clientChannels st ∖ {[c]}
  ∧ objects call.1 = objects st.
Proof.
  intros Hcons call. subst call.
  split; [by apply consistent_dropConnection|].
  destruct (decide (c ∈ _clientChannels st)) as [Hc|Hc].
  - rewrite (dropConnection_connected c st Hc Hcons).
    split; [apply dropConnectionEntry_returns|].
    split; [|by rewrite dropConnectionEntry_objects].
    rewrite dropConnectionEntry_state.
    destruct (handleNewTransaction_grows None
                {[data_key core_schema_Connection
                    (connectionObject (objects st c)) " exists" := None]}
                ∅
                {[index_key core_schema_Connection " exists" true
                  := {[connectionObject (objects st c)]}]}
                [] [] (_cur_transaction_num (unsubscribed c st))
                (unsubscribed c st)) as [Hgrows _].
    by rewrite (grows_clientChannels _ _ Hgrows).
  - rewrite dropConnection_unknown by done. simpl.
    split; [done|]. split; [set_solver | done].
Qed.

(** In every state the server reaches, [dropConnection] returns for every
    channel: no lookup of its loops raises [KeyError].  Afterwards the
    channel is not connected and is in no bucket of the three fan-out
    maps, and the other channels are registered exactly as before, with
    the subscriptions they had. *)
Theorem dropConnection_returns_and_unsubscribes_the_channel c st :
  reachable st →
  let call := dropConnection c st in
  call.2 = Return tt
  ∧ _clientChannels call.1 = _clientChannels st ∖ {[c]}
  ∧ (∀ p, c ∉ bucket (_type_to_channel call.1) p)
  ∧ (∀ k, c ∉ bucket (_index_to_channel call.1) k)
  ∧ (∀ i, c ∉ bucket (_id_to_channel call.1) i)
  ∧ objects call.1 = objects st
  ∧ ∀ c', c' ≠ c →
      (∀ p, c' ∈ bucket (_type_to_channel call.1) p
            ↔ c' ∈ bucket (_type_to_channel st) p)
      ∧ (∀ k, c' ∈ bucket (_index_to_channel call.1) k
              ↔ c' ∈ bucket (_index_to_channel st) k)
      ∧ (∀ i, c' ∈ bucket (_id_to_channel call.1) i
              ↔ c' ∈ bucket (_id_to_channel st) i).
Proof.
  intros Hreach call.
  destruct (reachable_invariant st Hreach) as [_ Hcons].
  destruct (dropConnection_state c st Hcons) as (Hcons' & Hret & HCC & Hobj).
  fold call in Hcons', Hret, HCC, Hobj.
  destruct Hcons as [Hi Ht Hk], Hcons' as [Hi' Ht' Hk'].
  split; [done|]. split; [done|].
  split; [intros p; rewrite Ht', HCC; set_solver|].
  split; [intros k; rewrite Hk', HCC; set_solver|].
  split; [intros i; rewrite Hi', HCC; set_solver|].
  split; [done|].
  intros c' Hne. split; [|split].
  - intros p. rewrite Ht', Ht, HCC, Hobj. set_solver.
  - intros k. rewrite Hk', Hk, HCC, Hobj. set_solver.
  - intros i. rewrite Hi', Hi, HCC, Hobj. set_solver.
Qed.

(** Dropping a channel a second time does nothing: the second call
    returns at the test on [_clientChannels], takes no transaction id and
    leaves the state of the first call. *)
Theorem dropConnection_twice_is_dropConnection_once c st :
  reachable st →
  dropConnection c (dropConnection c st).1
  = ((dropConnection c st).1, Return tt).
Proof.
  intros Hreach.
  destruct (reachable_invariant st Hreach) as [_ Hcons].
  destruct (dropConnection_state c st Hcons) as (_ & _ & HCC & _).
  apply dropConnection_unknown. rewrite HCC. set_solver.
Qed.

(** In every state the server reaches, the maps index_key→channels and
    identity→channels hold no empty set of channels. *)
Theorem index_and_identity_buckets_are_never_empty st :
  reachable st →
  (∀ k s, _index_to_channel st !! k = Some s → s ≠ ∅)
  ∧ (∀ i s, _id_to_channel st !! i = Some s → s ≠ ∅).
Proof. apply reachable_index_and_id_buckets_nonempty. Qed.
End Drop.

(** ** The channels the server writes to *)

Section Quiet.
Context `{KM : KeyMapping} `{KV : KVStore}.
Implicit Types (st : Server) (c : chan).

Lemma written_expand_channel index_key_ adds st ids ch c :
  c ≠ ch →
  written (expand_channel index_key_ adds (st, ids) ch).1 c = written st c.
Proof.
  intros Hne. unfold expand_channel. cbn [fst].
  unfold _broadcastSubscriptionIncrease.
  destruct (split_index_key_full index_key_) as [[[??]?]?].
  rewrite written_write, decide_False by done.
  by rewrite written_foldl_enrol_identity.
Qed.

Lemma written_foldl_expand_channel index_key_ adds (l : list chan) st ids c :
  c ∉ l →
  written (foldl (expand_channel index_key_ adds) (st, ids) l).1 c
  = written st c.
Proof.
  intros Hl.
  apply (foldl_invariant (λ acc, written acc.1 c = written st c)); [done|].
  intros [st1 ids1] ch Hch Hst1. cbn [fst] in *.
  rewrite written_expand_channel; [done|]. by intros ->.
Qed.

(** The expansion of the index subscriptions writes to channels that
    are connected. *)
Lemma written_index_expansion index_keys key_value set_adds st c :
  consistent st → c ∉ _clientChannels st →
  written (index_expansion index_keys key_value set_adds st).1 c
  = written st c.
Proof.
  revert key_value set_adds st.
  induction index_keys as [|k ks IH]; intros key_value set_adds st Hst Hc;
    simpl.
  - done.
  - unfold bind, get. simpl.
    destruct (_index_to_channel st !! k) as [channels|] eqn:Hk; [|by apply IH].
    assert (∀ ch, ch ∈ elements channels → ch ∈ _clientChannels st) as Hconn.
    { intros ch Hch%elem_of_elements.
      apply (consistent_index_keys _ Hst ch k).
      by rewrite (bucket_Some _ _ _ Hk). }
    pose proof (consistent_foldl_expand_channel k (bucket set_adds k)
                  (elements channels) st ∅ Hconn Hst) as Hcons.
    pose proof (expands_foldl_expand_channel k (bucket set_adds k)
                  (elements channels) st ∅) as Hexp.
    pose proof (written_foldl_expand_channel k (bucket set_adds k)
                  (elements channels) st ∅ c) as Hw.
    destruct (foldl _ _ _) as [st' ids]. cbn [fst] in *.
    rewrite <- Hw by (intros Hin; by apply Hc, Hconn).
    assert (c ∉ _clientChannels st') as Hc'
      by (by rewrite (expands_clientChannels _ _ Hexp)).
    unfold modify. simpl.
    destruct (last (elements channels)) as [channel|]; [|by apply IH].
    case_decide; [|by apply IH].
    destruct (_increaseBroadcastTransactionToInclude _ _ _ _ _ _)
      as [[kv' sa']|e]; simpl; [by apply IH | done].
Qed.

Lemma consistent_before_check sourceChannel set_adds st :
  (∀ c, sourceChannel = Some c → c ∈ _clientChannels st) →
  consistent st → consistent (before_check sourceChannel set_adds st).
Proof.
  intros Hsrc Hst. unfold before_check. destruct sourceChannel as [c|].
  - apply consistent_writer_expansion; [by apply Hsrc|].
    by apply (consistent_ext st).
  - by apply (consistent_ext st).
Qed.

(** A commit writes nothing to a channel that is not connected. *)
Lemma written_handleNewTransaction sourceChannel key_value set_adds
    set_removes keys_to_check_versions indices_to_check_versions
    as_of_version st c :
  (∀ writer, sourceChannel = Some writer → writer ∈ _clientChannels st) →
  consistent st → c ∉ _clientChannels st →
  written (_handleNewTransaction sourceChannel key_value set_adds
             set_removes keys_to_check_versions indices_to_check_versions
             as_of_version st).1 c
  = written st c.
Proof.
  intros Hsrc Hst Hc.
  pose proof (consistent_before_check sourceChannel set_adds st Hsrc Hst)
    as Hst2.
  pose proof (grows_before_check sourceChannel set_adds st) as Hg2.
  assert (written (before_check sourceChannel set_adds st) c = written st c)
    as Hw2.
  { unfold before_check. destruct sourceChannel as [writer|]; [|done].
    rewrite (writer_only_written _ _ _
               (writer_only_writer_expansion writer _ _)); [done|].
    intros ->. by apply Hc, Hsrc. }
  rewrite handleNewTransaction_unfold. cbv zeta.
  case_decide; [|done]. destruct (conflict _ _ _); [done|].
  set (st4 := after_store key_value set_adds set_removes
                (_cur_transaction_num st + 1)
                (before_check sourceChannel set_adds st)).
  assert (consistent st4) as Hst4
    by (by apply (consistent_ext (before_check sourceChannel set_adds st))).
  assert (c ∉ _clientChannels st4) as Hc4.
  { unfold st4, after_store. simpl.
    by rewrite (grows_clientChannels _ _ Hg2). }
  pose proof (consistent_index_expansion
                (map_to_list (drop_empty set_adds)).*1 key_value
                (drop_empty set_adds) st4 Hst4) as Hst5.
  pose proof (expands_index_expansion
                (map_to_list (drop_empty set_adds)).*1 key_value
                (drop_empty set_adds) st4) as Hexp.
  pose proof (written_index_expansion
                (map_to_list (drop_empty set_adds)).*1 key_value
                (drop_empty set_adds) st4 c Hst4 Hc4) as Hw5.
  destruct (index_expansion _ _ _ _) as [st5 [[kv' sa']|e]]; cbn [fst] in *.
  - rewrite written_broadcast, decide_False, app_nil_r; [by rewrite Hw5|].
    intros [(p & _ & Hin)|(i & _ & Hin)]%elem_of_channelsTriggered.
    + apply (consistent_types _ Hst5) in Hin as [Hin _].
      by rewrite (expands_clientChannels _ _ Hexp) in Hin.
    + apply (consistent_ids _ Hst5) in Hin as [Hin _].
      by rewrite (expands_clientChannels _ _ Hexp) in Hin.
  - by rewrite Hw5.
Qed.

Lemma written_handleSubscription subscriber schema_name typename fv st c :
  c ≠ subscriber →
  written (_handleSubscription subscriber schema_name typename fv st).1 c
  = written st c.
Proof.
  intros Hne. rewrite handleSubscription_unfold.
  destruct (definedSchemas (objects st subscriber) !! schema_name)
    as [definition|]; [|done].
  pose proof (subscribes_subscribe_types subscriber schema_name definition
                fv (∅, ∅, ∅) (types_to_subscribe definition typename) st)
    as Hsub.
  destruct typename as [t|], fv as [fv0|]; try done.
  all: destruct (subscribe_types _ _ _ _ _ _ _)
         as [st1 [[[kvs sets] ids]|e]]; cbn [fst snd] in *.
  all: try rewrite written_write, decide_False by done.
  all: by rewrite (subscribes_written _ _ Hsub).
Qed.

Lemma clientChannels_onClientToServerMessage now sender msg st :
  _clientChannels (onClientToServerMessage now sender msg st).1
  = _clientChannels st.
Proof.
  destruct msg; simpl; try done.
  - rewrite handleSubscription_unfold.
    destruct (definedSchemas (objects st sender) !! schema)
      as [definition|]; [|done].
    pose proof (subscribes_subscribe_types sender schema definition
                  fieldname_and_value (∅, ∅, ∅)
                  (types_to_subscribe definition typename) st) as Hsub.
    destruct typename as [t|], fieldname_and_value as [fv0|]; try done.
    all: destruct (subscribe_types _ _ _ _ _ _ _)
           as [st1 [[[kvs sets] ids]|e]]; cbn [fst snd] in *.
    all: by rewrite <- (subscribes_clientChannels _ _ Hsub).
  - destruct (handleNewTransaction_grows (Some sender) writes
                (list_to_set <$> filter (λ kv, kv.2 ≠ []) set_adds)
                (list_to_set <$> filter (λ kv, kv.2 ≠ []) set_removes)
                key_versions index_versions as_of_version st) as [Hg _].
    destruct (_handleNewTransaction _ _ _ _ _ _ _ _) as [st' r].
    simpl in *. by rewrite (grows_clientChannels _ _ Hg).
Qed.

Lemma written_step st st' c :
  consistent st → step st st' → c ∉ _clientChannels st' →
  written st' c = written st c.
Proof.
  intros Hcons Hstep. revert Hcons.
  destruct Hstep as [st now identity ch Hch|st ch|st now sender msg Hsender];
    intros Hcons Hc.
  - unfold addConnection in *.
    pose proof (createConnectionEntry_state identity st) as Hstate.
    pose proof (written_handleNewTransaction None
                  {[data_key core_schema_Connection identity " exists"
                    := Some "true"]}
                  {[index_key core_schema_Connection " exists" true
                    := {[identity]}]}
                  ∅ [] [] (_cur_transaction_num st) st c) as Hw.
    destruct (handleNewTransaction_grows None
                {[data_key core_schema_Connection identity " exists"
                  := Some "true"]}
                {[index_key core_schema_Connection " exists" true
                  := {[identity]}]}
                ∅ [] [] (_cur_transaction_num st) st) as [Hg _].
    rewrite <- Hstate in Hw, Hg.
    destruct (_createConnectionEntry identity st) as [st1 [co|e]];
      cbn [fst] in *.
    + unfold sendInitializationMessage in *. simpl in Hc.
      rewrite written_write, decide_False by set_solver. simpl.
      apply Hw; [done | done |].
      rewrite <- (grows_clientChannels _ _ Hg). set_solver.
    + apply Hw; [done | done |].
      by rewrite <- (grows_clientChannels _ _ Hg).
  - destruct (decide (ch ∈ _clientChannels st)) as [Hch|Hch].
    2: { by rewrite dropConnection_unknown. }
    destruct (dropConnection_state ch st Hcons) as (_ & _ & HCC & _).
    rewrite HCC in Hc.
    rewrite (dropConnection_connected ch st Hch Hcons),
      dropConnectionEntry_state.
    rewrite written_handleNewTransaction; [done | done | |].
    + by apply consistent_unsubscribed.
    + done.
  - rewrite clientChannels_onClientToServerMessage in Hc.
    assert (c ≠ sender) as Hne by (by intros ->).
    destruct msg; unfold onClientToServerMessage, modify; cbn [fst].
    + done.
    + by rewrite written_write, decide_False.
    + done.
    + by apply written_handleSubscription.
    + pose proof (written_handleNewTransaction (Some sender) writes
                    (list_to_set <$> filter (λ kv, kv.2 ≠ []) set_adds)
                    (list_to_set <$> filter (λ kv, kv.2 ≠ []) set_removes)
                    key_versions index_versions as_of_version st c) as Hw.
      destruct (_handleNewTransaction _ _ _ _ _ _ _ _) as [st1 r].
      cbn [fst] in *. unfold sendTransactionSuccess.
      rewrite written_write, decide_False by done.
      apply Hw; [|done|done]. by intros writer [= <-].
Qed.

(** The server writes to connected channels only: an operation (a
    connection, a drop, a message) writes nothing to a channel that is not
    connected when it ends.  In particular a channel that is dropped is
    not sent the transaction that removes its connection object. *)
Theorem nothing_is_written_to_a_channel_that_is_not_connected st st' c :
  reachable st → step st st' → c ∉ _clientChannels st' →
  written st' c = written st c.
Proof.
  intros Hreach. apply written_step. by apply reachable_invariant.
Qed.

(** [addConnection] of a channel that is not connected, when the
    transaction of [_createConnectionEntry] raises nothing: the channel is
    connected with no subscription and is in no bucket of the fan-out
    maps; its first transaction id is the id of the transaction that
    created its connection object, which is the counter after the call; and
    the only message it is written is [Initialize], with that id and the
    identity of the connection object. *)
Theorem addConnection_registers_the_channel_and_initializes_it now identity
    channel st :
  reachable st →
  channel ∉ _clientChannels st →
  (_createConnectionEntry identity st).2 = Return identity →
  let st' := addConnection now identity channel st in
  _clientChannels st' = {[channel]} ∪ _clientChannels st
  ∧ _cur_transaction_num st' = _cur_transaction_num st + 1
  ∧ objects st' channel
    = new_ConnectedChannel now (_cur_transaction_num st + 1) identity
  ∧ written st' channel
    = written st channel ++ [Initialize (_cur_transaction_num st + 1) identity]
  ∧ (∀ p, channel ∉ bucket (_type_to_channel st') p)
  ∧ (∀ k, channel ∉ bucket (_index_to_channel st') k)
  ∧ (∀ i, channel ∉ bucket (_id_to_channel st') i).
Proof.
  intros Hreach Hch Hret st'.
  destruct (reachable_invariant st Hreach) as [_ Hcons].
  pose proof (consistent_addConnection now identity channel st Hch Hcons)
    as Hcons'.
  fold st' in Hcons'. subst st'. unfold addConnection in *.
  pose proof (createConnectionEntry_state identity st) as Hstate.
  pose proof (written_handleNewTransaction None
                {[data_key core_schema_Connection identity " exists"
                  := Some "true"]}
                {[index_key core_schema_Connection " exists" true
                  := {[identity]}]}
                ∅ [] [] (_cur_transaction_num st) st channel) as Hw.
  pose proof (handleNewTransaction_counter None
                {[data_key core_schema_Connection identity " exists"
                  := Some "true"]}
                {[index_key core_schema_Connection " exists" true
                  := {[identity]}]}
                ∅ [] [] (_cur_transaction_num st) st) as Hcur.
  destruct (handleNewTransaction_grows None
              {[data_key core_schema_Connection identity " exists"
                := Some "true"]}
              {[index_key core_schema_Connection " exists" true
                := {[identity]}]}
              ∅ [] [] (_cur_transaction_num st) st) as [Hg _].
  rewrite <- Hstate in Hw, Hcur, Hg.
  destruct (_createConnectionEntry identity st) as [st1 [co|e]];
    cbn [fst snd] in *; [|done].
  injection Hret as ->.
  unfold sendInitializationMessage in *. simpl in *.
  rewrite !fn_lookup_insert.
  split; [by rewrite (grows_clientChannels _ _ Hg)|].
  split; [done|]. split; [by rewrite Hcur|].
  split; [by rewrite Hw, Hcur|].
  destruct Hcons' as [Hi Ht Hk]. simpl in *.
  split; [|split].
  - intros p. rewrite Ht, fn_lookup_insert. simpl. set_solver.
  - intros k. rewrite Hk, fn_lookup_insert. simpl. set_solver.
  - intros i. rewrite Hi, fn_lookup_insert. simpl. set_solver.
Qed.
End Quiet.

(** ** What a subscription changes *)

Section SubscriptionEffects.
Context `{KM : KeyMapping} `{KV : KVStore}.
Implicit Types (st : Server) (c : chan).

(** The loop that enrols a channel on identities. *)
Lemma foldl_enrol_identity_state c (l : list ident) st :
  let st' := foldl (λ st i, enrol_identity c i st) st l in
  subscribedIds (objects st' c) = subscribedIds (objects st c) ∪ list_to_set l
  ∧ (∀ c' i, c' ∈ bucket (_id_to_channel st') i
             ↔ c' ∈ bucket (_id_to_channel st) i ∨ (c' = c ∧ i ∈ l))
  ∧ set_subscribedIds ∅ (objects st' c) = set_subscribedIds ∅ (objects st c)
  ∧ (∀ c', c' ≠ c → objects st' c' = objects st c')
  ∧ _type_to_channel st' = _type_to_channel st
  ∧ _index_to_channel st' = _index_to_channel st.
Proof.
  revert st. induction l as [|i0 l IH]; intros st.
  - simpl. split; [set_solver|]. split; [|done].
    intros c' i. rewrite elem_of_nil. naive_solver.
  - change (foldl ?f ?a (?x :: ?r)) with (foldl f (f a x) r). cbv zeta.
    destruct (IH (enrol_identity c i0 st)) as (Hs & Hb & Ho & Hc & Ht & Hk).
    split; [|split; [|split; [|split; [|split]]]].
    + rewrite Hs. unfold enrol_identity. rewrite objects_modify_channel.
      rewrite decide_True by done. simpl. set_solver.
    + intros c' i. rewrite Hb. unfold enrol_identity at 1. simpl.
      rewrite elem_of_bucket_setdefault_add, elem_of_cons. naive_solver.
    + rewrite Ho. unfold enrol_identity. rewrite objects_modify_channel.
      by rewrite decide_True by done.
    + intros c' Hne. rewrite Hc by done. unfold enrol_identity.
      rewrite objects_modify_channel. by rewrite decide_False by done.
    + by rewrite Ht.
    + by rewrite Hk.
Qed.

Lemma objects_subscribe_fanout c schema_name typename fv identities st c' :
  c' ≠ c →
  objects (subscribe_fanout c schema_name typename fv identities st) c'
  = objects st c'.
Proof.
  intros Hne. unfold subscribe_fanout. destruct fv as [[fieldname fieldval]|].
  - destruct (foldl_enrol_identity_state c (elements identities) st)
      as (_ & _ & _ & Hc & _).
    case_decide; [|by apply Hc].
    rewrite objects_modify_channel, decide_False by done. simpl.
    by apply Hc.
  - by rewrite objects_modify_channel, decide_False by done.
Qed.

Lemma objects_subscribe_types c schema_name definition fv acc types st c' :
  c' ≠ c →
  objects (subscribe_types c schema_name definition fv acc types st).1 c'
  = objects st c'.
Proof.
  intros Hne. revert acc st.
  induction types as [|t types IH]; intros acc st; simpl; [done|].
  unfold bind.
  destruct (subscribe_type_cases c schema_name definition fv acc t st)
    as [(_ & ->)|(_ & Hst & kvs & sets & Hr)]; [done|].
  destruct (subscribe_type _ _ _ _ _ _ _) as [st1 r]. simpl in *. subst.
  rewrite IH. by apply objects_subscribe_fanout.
Qed.

(** The types of a subscription are in the definition, or the
    subscription is to one type. *)
Lemma elem_of_types_to_subscribe (definition : SchemaDefinition) typename t :
  t ∈ types_to_subscribe definition typename
  ↔ match typename with
    | None => is_Some (definition !! t)
    | Some t0 => t = t0
    end.
Proof.
  unfold types_to_subscribe. destruct typename as [t0|].
  - apply list_elem_of_singleton.
  - rewrite list_elem_of_fmap. split.
    + intros ([t' typedef] & -> & Hin%elem_of_map_to_list). by eexists.
    + intros [typedef Ht]. exists (t, typedef).
      by rewrite elem_of_map_to_list.
Qed.

(** A [Subscribe] that fails an assertion fails before anything is
    changed, and [_handleSubscription] raises nothing but
    [AssertionError]. *)
Lemma handleSubscription_raises c schema_name typename fv st e :
  (_handleSubscription c schema_name typename fv st).2 = Raise e →
  e = AssertionError
  ∧ (_handleSubscription c schema_name typename fv st).1 = st.
Proof.
  rewrite handleSubscription_unfold.
  destruct (definedSchemas (objects st c) !! schema_name) as [definition|];
    [|by intros [= <-]].
  destruct typename as [t|], fv as [fv0|]; try by intros [= <-].
  - cbn [types_to_subscribe subscribe_types]. unfold bind.
    destruct (subscribe_type_cases c schema_name definition (Some fv0)
                (∅, ∅, ∅) t st)
      as [(_ & ->)|(_ & Hst & kvs & sets & Hr)]; [by intros [= <-]|].
    destruct (subscribe_type _ _ _ _ _ _ _) as [st1 r]. simpl in *. by subst.
  - cbn [types_to_subscribe subscribe_types]. unfold bind.
    destruct (subscribe_type_cases c schema_name definition None
                (∅, ∅, ∅) t st)
      as [(_ & ->)|(_ & Hst & kvs & sets & Hr)]; [by intros [= <-]|].
    destruct (subscribe_type _ _ _ _ _ _ _) as [st1 r]. simpl in *. by subst.
  - destruct (subscribe_types_returns c schema_name definition None
                (∅, ∅, ∅) (types_to_subscribe definition None) st)
      as [snap Hsnap].
    { intros t Ht. by apply (elem_of_types_to_subscribe definition None). }
    destruct (subscribe_types _ _ _ _ _ _ _) as [st1 [[[kvs sets] ids]|e']];
      simpl in *; [done | discriminate].
Qed.

(** A [Subscribe] reads the store and writes nothing to it: the store,
    the version numbers, the transaction counter and the set of connected
    channels are left as they are, and so are the subscriptions and the
    messages of every other channel.  A [Subscribe] that is rejected
    raises [AssertionError] and leaves the whole state as it was. *)
Theorem Subscribe_reads_only_and_a_rejected_one_changes_nothing c schema_name
    typename fv st :
  let call := _handleSubscription c schema_name typename fv st in
  _kvstore call.1 = _kvstore st
  ∧ _version_numbers call.1 = _version_numbers st
  ∧ _cur_transaction_num call.1 = _cur_transaction_num st
  ∧ _clientChannels call.1 = _clientChannels st
  ∧ (∀ c', c' ≠ c →
       objects call.1 c' = objects st c'
       ∧ written call.1 c' = written st c')
  ∧ (∀ e, call.2 = Raise e → e = AssertionError ∧ call.1 = st).
Proof.
  intros call.
  assert (_kvstore call.1 = _kvstore st
          ∧ _version_numbers call.1 = _version_numbers st
          ∧ _cur_transaction_num call.1 = _cur_transaction_num st
          ∧ _clientChannels call.1 = _clientChannels st
          ∧ ∀ c', c' ≠ c → objects call.1 c' = objects st c')
    as (Hkv & Hvn & Hcur & HCC & Hobj).
  { subst call. rewrite handleSubscription_unfold.
    destruct (definedSchemas (objects st c) !! schema_name)
      as [definition|]; [|done].
    pose proof (subscribes_subscribe_types c schema_name definition fv
                  (∅, ∅, ∅) (types_to_subscribe definition typename) st)
      as Hsub.
    pose proof (λ c' Hne, objects_subscribe_types c schema_name definition fv
                  (∅, ∅, ∅) (types_to_subscribe definition typename) st c'
                  Hne) as Hobj.
    destruct typename as [t|], fv as [fv0|]; try done.
    all: destruct (subscribe_types _ _ _ _ _ _ _)
           as [st1 [[[kvs sets] ids]|e]]; cbn [fst snd] in *.
    all: destruct Hsub as [? ? ? ? ? ?]; by repeat split. }
  repeat (split; [done|]). split.
  - intros c' Hne. split; [by apply Hobj|].
    by apply written_handleSubscription.
  - intros e. apply handleSubscription_raises.
Qed.
End SubscriptionEffects.

(** ** Subscriptions to types and to slices *)

Section SubscriptionKinds.
Context `{KM : KeyMapping} `{KV : KVStore}.
Implicit Types (st : Server) (c : chan).

(** The loop over the types of a subscription without a field. *)
Lemma subscribe_types_whole c schema_name definition acc (types : list string)
    st :
  (∀ t, t ∈ types → is_Some (definition !! t)) →
  let call := subscribe_types c schema_name definition None acc types st in
  (∃ snap, call.2 = Return snap)
  ∧ (∀ c' p, c' ∈ bucket (_type_to_channel call.1) p
             ↔ c' ∈ bucket (_type_to_channel st) p
               ∨ (c' = c ∧ ∃ t, t ∈ types ∧ p = (schema_name, t)))
  ∧ (∀ p, p ∈ subscribedTypes (objects call.1 c)
          ↔ p ∈ subscribedTypes (objects st c)
            ∨ ∃ t, t ∈ types ∧ p = (schema_name, t))
  ∧ _id_to_channel call.1 = _id_to_channel st
  ∧ _index_to_channel call.1 = _index_to_channel st
  ∧ subscribedIds (objects call.1 c) = subscribedIds (objects st c)
  ∧ subscribedIndexKeys (objects call.1 c)
    = subscribedIndexKeys (objects st c).
Proof.
  revert acc st. induction types as [|t0 types IH]; intros acc st Hall.
  - simpl. split; [by eexists|]. split; [|split; [|done]].
    + intros c' p. setoid_rewrite elem_of_nil. naive_solver.
    + intros p. setoid_rewrite elem_of_nil. naive_solver.
  - destruct (Hall t0) as [typedef Ht0]; [left|].
    destruct acc as [[kvs sets] ids0].
    cbv zeta. cbn [subscribe_types]. unfold bind.
    rewrite (subscribe_type_returns _ _ _ _ _ _ _ _ _ _ Ht0).
    cbv beta iota.
    match goal with
    | |- context [subscribe_types c schema_name definition None ?a types ?s] =>
        destruct (IH a s) as (Hret & Hb & Hs & Hi & Hk & Hids & Hkeys)
    end.
    { intros t Ht. apply Hall. by right. }
    split; [done|]. unfold subscribe_fanout in *.
    split; [|split; [|split; [|split; [|split]]]].
    + intros c' p. rewrite Hb. simpl.
      rewrite elem_of_bucket_setdefault_add.
      setoid_rewrite elem_of_cons. naive_solver.
    + intros p. rewrite Hs, objects_modify_channel, decide_True by done.
      simpl. rewrite elem_of_union, elem_of_singleton.
      setoid_rewrite elem_of_cons. naive_solver.
    + by rewrite Hi.
    + by rewrite Hk.
    + by rewrite Hids, objects_modify_channel, decide_True by done.
    + by rewrite Hkeys, objects_modify_channel, decide_True by done.
Qed.

(** A [Subscribe] without a field, to a schema the channel has defined
    and, when it names a type, to a type of the definition: the call
    returns; the channel is registered for the type, or for every type of
    the definition when no type is named, in type→channels and in its
    [subscribedTypes], and for nothing else; no identity and no index key
    is registered. *)
Theorem Subscribe_to_a_type_or_a_schema_registers_its_types c schema_name
    typename definition st :
  definedSchemas (objects st c) !! schema_name = Some definition →
  (∀ t, typename = Some t → is_Some (definition !! t)) →
  let call := _handleSubscription c schema_name typename None st in
  let subscribed t :=
    match typename with
    | None => is_Some (definition !! t)
    | Some t0 => t = t0
    end in
  call.2 = Return tt
  ∧ (∀ c' s t, c' ∈ bucket (_type_to_channel call.1) (s, t)
               ↔ c' ∈ bucket (_type_to_channel st) (s, t)
                 ∨ (c' = c ∧ s = schema_name ∧ subscribed t))
  ∧ (∀ s t, (s, t) ∈ subscribedTypes (objects call.1 c)
            ↔ (s, t) ∈ subscribedTypes (objects st c)
              ∨ (s = schema_name ∧ subscribed t))
  ∧ _id_to_channel call.1 = _id_to_channel st
  ∧ _index_to_channel call.1 = _index_to_channel st
  ∧ subscribedIds (objects call.1 c) = subscribedIds (objects st c)
  ∧ subscribedIndexKeys (objects call.1 c)
    = subscribedIndexKeys (objects st c).
Proof.
  intros Hdef Htype call subscribed.
  assert (∀ t, t ∈ types_to_subscribe definition typename ↔ subscribed t)
    as Htypes by apply elem_of_types_to_subscribe.
  destruct (subscribe_types_whole c schema_name definition (∅, ∅, ∅)
              (types_to_subscribe definition typename) st)
    as ([snap Hret] & Hb & Hs & Hi & Hk & Hids & Hkeys).
  { intros t Ht%Htypes. subst subscribed. simpl in Ht.
    destruct typename as [t0|]; [|done]. subst. by apply Htype. }
  subst call. rewrite handleSubscription_unfold, Hdef.
  assert (match typename, @None (string * string) with
          | None, Some _ => (st, Raise AssertionError)
          | _, _ =>
            match subscribe_types c schema_name definition None (∅, ∅, ∅)
                    (types_to_subscribe definition typename) st with
            | (st1, Return (kvs, sets, identities)) =>
              (write c
                 (Subscription schema_name typename None kvs sets
                    (_cur_transaction_num st1) None) st1,
               Return tt)
            | (st1, Raise e) => (st1, Raise e)
            end
          end
          = match subscribe_types c schema_name definition None (∅, ∅, ∅)
                    (types_to_subscribe definition typename) st with
            | (st1, Return (kvs, sets, identities)) =>
              (write c
                 (Subscription schema_name typename None kvs sets
                    (_cur_transaction_num st1) None) st1,
               Return tt)
            | (st1, Raise e) => (st1, Raise e)
            end) as -> by (by destruct typename).
  destruct (subscribe_types _ _ _ _ _ _ _) as [st1 [[[kvs sets] ids]|e]];
    cbn [fst snd] in *; [|done].
  split; [done|]. split; [|split; [|done]].
  - intros c' s t. change (_type_to_channel (write _ _ st1))
      with (_type_to_channel st1). rewrite Hb. split.
    + intros [?|(-> & t' & Ht'%Htypes & [= -> ->])]; [by left | by right].
    + intros [?|(-> & -> & Ht%Htypes)]; [by left|].
      right. split; [done|]. by exists t.
  - intros s t. change (objects (write _ _ st1)) with (objects st1).
    rewrite Hs. split.
    + intros [?|(t' & Ht'%Htypes & [= -> ->])]; [by left | by right].
    + intros [?|(-> & Ht%Htypes)]; [by left|]. right. by exists t.
Qed.

(** A [Subscribe] to a slice, with a schema and a type the channel has
    defined: the call returns.  The identities of the slice are the value
    itself for the field [_identity], and otherwise the members of the
    index set of (schema, type, field, value) in the store.  The channel is
    enrolled on each of them, in its [subscribedIds] and in
    identity→channels, and on nothing else; type→channels is not
    changed, and for the field [_identity] index_key→channels is not
    changed either.  The last message written to the channel is the
    [Subscription], which carries these identities and the current
    transaction id. *)
Theorem Subscribe_to_a_slice_enrols_the_channel_on_its_identities c
    schema_name typename fieldname fieldval definition st :
  definedSchemas (objects st c) !! schema_name = Some definition →
  is_Some (definition !! typename) →
  let call := _handleSubscription c schema_name (Some typename)
                (Some (fieldname, fieldval)) st in
  let identities : gset ident :=
    if decide (fieldname = "_identity") then {[fieldval]}
    else getSetMembers (_kvstore st)
           (index_key_from_names_encoded schema_name typename fieldname
              fieldval) in
  call.2 = Return tt
  ∧ subscribedIds (objects call.1 c)
    = subscribedIds (objects st c) ∪ identities
  ∧ (∀ c' i, c' ∈ bucket (_id_to_channel call.1) i
             ↔ c' ∈ bucket (_id_to_channel st) i
               ∨ (c' = c ∧ i ∈ identities))
  ∧ _type_to_channel call.1 = _type_to_channel st
  ∧ subscribedTypes (objects call.1 c) = subscribedTypes (objects st c)
  ∧ (fieldname = "_identity" →
     _index_to_channel call.1 = _index_to_channel st
     ∧ subscribedIndexKeys (objects call.1 c)
       = subscribedIndexKeys (objects st c))
  ∧ ∃ kvs sets,
      last (written call.1 c)
      = Some (Subscription schema_name (Some typename)
                (Some (fieldname, fieldval)) kvs sets
                (_cur_transaction_num st) (Some (elements identities))).
Proof.
  intros Hdef [typedef Htype] call identities.
  assert (matching_identities st schema_name typename
            (Some (fieldname, fieldval)) = identities) as Hids by done.
  subst call. rewrite handleSubscription_unfold, Hdef.
  cbn [types_to_subscribe subscribe_types]. unfold bind.
  rewrite (subscribe_type_returns _ _ _ _ _ _ _ _ _ _ Htype), Hids.
  unfold ret. cbn [fst snd].
  destruct (foldl_enrol_identity_state c (elements identities) st)
    as (Hs & Hb & Ho & _ & Ht & Hk).
  assert (subscribedTypes
            (objects (foldl (λ st i, enrol_identity c i st) st
                        (elements identities)) c)
          = subscribedTypes (objects st c)
          ∧ subscribedIndexKeys
              (objects (foldl (λ st i, enrol_identity c i st) st
                          (elements identities)) c)
            = subscribedIndexKeys (objects st c)) as [Hst Hsk].
  { split.
    - by apply (f_equal subscribedTypes) in Ho.
    - by apply (f_equal subscribedIndexKeys) in Ho. }
  rewrite list_to_set_elements_L in Hs.
  setoid_rewrite elem_of_elements in Hb.
  pose proof (expands_cur_transaction_num _ _
                (expands_foldl (λ st i, enrol_identity c i st)
                   (elements identities) st
                   (λ st i, expands_enrol_identity c i st))) as Hcur.
  split; [done|]. unfold subscribe_fanout.
  destruct (decide (fieldname ≠ "_identity")) as [Hf|Hf].
  - split; [|split; [|split; [|split; [|split]]]].
    + simpl. rewrite fn_lookup_insert. exact Hs.
    + exact Hb.
    + exact Ht.
    + simpl. rewrite fn_lookup_insert. exact Hst.
    + done.
    + eexists _, _. rewrite written_write, decide_True by done.
      rewrite last_snoc. simpl. by rewrite Hcur.
  - split; [|split; [|split; [|split; [|split]]]].
    + exact Hs.
    + exact Hb.
    + exact Ht.
    + exact Hst.
    + done.
    + eexists _, _. rewrite written_write, decide_True by done.
      rewrite last_snoc. by rewrite Hcur.
Qed.
End SubscriptionKinds.

(** ** The outcomes of a commit and what follows them *)

Section Outcomes.
Context `{KM : KeyMapping} `{KV : KVStore}.
Implicit Types (st : Server) (c : chan).

Lemma invariant_step st st' :
  consistent st → versions_bounded st → step st st' →
  consistent st' ∧ versions_bounded st'.
Proof.
  intros Hcons Hvb Hstep. revert Hcons Hvb.
  destruct Hstep as [st now identity c Hc|st c|st now c msg Hc];
    intros Hcons Hvb.
  - split; [by apply consistent_addConnection
           |by apply versions_bounded_addConnection].
  - split; [by apply consistent_dropConnection
           |by apply versions_bounded_dropConnection].
  - split; [by apply consistent_onClientToServerMessage
           |by apply versions_bounded_onClientToServerMessage].
Qed.

(** Along a run the invariants are kept and no version number goes
    down. *)
Lemma invariant_steps st st' :
  consistent st → versions_bounded st → rtc step st st' →
  consistent st' ∧ versions_bounded st'
  ∧ ∀ k v, _version_numbers st !! k = Some v →
           ∃ v', _version_numbers st' !! k = Some v' ∧ v ≤ v'.
Proof.
  intros Hcons Hvb Hrun. induction Hrun as [st|st st1 st' Hstep Hrun IH].
  - split; [done|]. split; [done|]. intros k v Hk. exists v. by split.
  - destruct (invariant_step st st1 Hcons Hvb Hstep) as [Hcons1 Hvb1].
    destruct (IH Hcons1 Hvb1) as (Hcons' & Hvb' & Hmono).
    split; [done|]. split; [done|]. intros k v Hk.
    assert (∃ v1, _version_numbers st1 !! k = Some v1 ∧ v ≤ v1)
      as (v1 & Hk1 & Hle1).
    { destruct (versions_advance_step st st1 Hcons Hstep) as [[_ Hvn]|[_ Hvn]].
      - exists v. rewrite Hvn. by split.
      - destruct (Hvn k) as [Heq|Heq].
        + exists v. rewrite Heq. by split.
        + exists (_cur_transaction_num st + 1). split; [done|].
          apply Hvb in Hk. lia. }
    destruct (Hmono k v1 Hk1) as (v' & Hk' & Hle'). exists v'.
    split; [done | lia].
Qed.

(** Optimistic concurrency across a run.  After a transaction that
    returned [True] has written a key (a key of [key_value], or an index
    key with a set of additions or removals that is not empty), every
    transaction that arrives later, after any operations of the server, and
    checks that key as of a version before the writing transaction, is
    rejected: it returns [False]. *)
Theorem a_transaction_that_read_before_a_committed_write_is_rejected
    sourceChannel key_value set_adds set_removes keys_to_check_versions
    indices_to_check_versions as_of_version st st' k
    sourceChannel' key_value' set_adds' set_removes' keys_to_check_versions'
    indices_to_check_versions' as_of_version' :
  let first := _handleNewTransaction sourceChannel key_value set_adds
                 set_removes keys_to_check_versions
                 indices_to_check_versions as_of_version st in
  let later := _handleNewTransaction sourceChannel' key_value' set_adds'
                 set_removes' keys_to_check_versions'
                 indices_to_check_versions' as_of_version' st' in
  reachable st →
  (∀ writer, sourceChannel = Some writer → writer ∈ _clientChannels st) →
  first.2 = Return true →
  is_Some (key_value !! k)
  ∨ (∃ s, set_adds !! k = Some s ∧ s ≠ ∅)
  ∨ (∃ s, set_removes !! k = Some s ∧ s ≠ ∅) →
  rtc step first.1 st' →
  k ∈ keys_to_check_versions' ∨ k ∈ indices_to_check_versions' →
  as_of_version' ≤ _cur_transaction_num st →
  later.2 = Return false.
Proof.
  intros first later Hreach Hwriter Htrue Hk Hrun Hcheck Hasof.
  destruct (reachable_invariant st Hreach) as [Hvb Hcons].
  assert (consistent first.1) as Hcons1
    by (by apply consistent_handleNewTransaction).
  assert (versions_bounded first.1) as Hvb1
    by (by apply versions_bounded_handleNewTransaction).
  assert (_version_numbers first.1 !! k
          = Some (_cur_transaction_num st + 1)) as Hstamp.
  { subst first. rewrite handleNewTransaction_stamps by done.
    rewrite decide_True; [done|]. by apply elem_of_written_keys. }
  destruct (invariant_steps first.1 st' Hcons1 Hvb1 Hrun)
    as (_ & Hvb' & Hmono).
  destruct (Hmono k _ Hstamp) as (v' & Hk' & Hle).
  pose proof (Hvb' k v' Hk') as Hbound.
  subst later.
  destruct (handleNewTransaction_cases sourceChannel' key_value' set_adds'
              set_removes' keys_to_check_versions' indices_to_check_versions'
              as_of_version' st')
    as [(Ht & _)|[(_ & _ & Hr & _)|(_ & Hconflict & _)]].
  - lia.
  - done.
  - assert (conflict (_version_numbers st')
              (keys_to_check_versions' ++ indices_to_check_versions')
              as_of_version' = true) as Hyes.
    { apply conflict_true. exists k. split; [by apply elem_of_app|].
      rewrite Hk'. simpl. lia. }
    congruence.
Qed.

(** What a call that does not commit leaves behind.  A call raises
    nothing but [AssertionError] and [AttributeError].  After
    [AssertionError], and after a conflict ([False]), the store and the
    version numbers are those of before the call.  After
    [AttributeError], which [_increaseBroadcastTransactionToInclude]
    raises, the transaction has been applied: the store has been written,
    the keys of the transaction carry the new transaction id, and the
    channels have been written [SubscriptionIncrease] messages only: the
    transaction is broadcast to nobody. *)
Theorem what_a_failed_commit_leaves_behind sourceChannel key_value set_adds
    set_removes keys_to_check_versions indices_to_check_versions
    as_of_version st :
  let call := _handleNewTransaction sourceChannel key_value set_adds
                set_removes keys_to_check_versions
                indices_to_check_versions as_of_version st in
  (∀ e, call.2 = Raise e → e = AssertionError ∨ e = AttributeError)
  ∧ (call.2 = Return false ∨ call.2 = Raise AssertionError →
     _kvstore call.1 = _kvstore st
     ∧ _version_numbers call.1 = _version_numbers st)
  ∧ (call.2 = Raise AttributeError →
     _kvstore call.1
     = apply_to_kvstore key_value (drop_empty set_adds)
         (drop_empty set_removes) (_kvstore st)
     ∧ (∀ k, is_Some (key_value !! k)
             ∨ (∃ s, set_adds !! k = Some s ∧ s ≠ ∅)
             ∨ (∃ s, set_removes !! k = Some s ∧ s ≠ ∅) →
             _version_numbers call.1 !! k
             = Some (_cur_transaction_num st + 1))
     ∧ ∀ c, ∃ increases,
         written call.1 c = written st c ++ increases
         ∧ Forall is_SubscriptionIncrease increases).
Proof.
  intros call.
  pose proof (expands_before_check sourceChannel set_adds st) as Hbefore.
  destruct (handleNewTransaction_written sourceChannel key_value set_adds
              set_removes keys_to_check_versions indices_to_check_versions
              as_of_version st)
    as (recipients & writes & adds & _ & Hnone & Hwritten).
  fold call in Hnone, Hwritten.
  destruct (handleNewTransaction_cases sourceChannel key_value set_adds
              set_removes keys_to_check_versions indices_to_check_versions
              as_of_version st)
    as [(_ & Hr & Hst)|[(_ & _ & Hr & Hst)|(_ & _ & Hr & Hexp)]];
    fold call in Hr, Hst || fold call in Hr, Hexp.
  - rewrite Hr, Hst. split; [intros e [= <-]; by left|].
    split; [done|]. discriminate.
  - rewrite Hr, Hst. split; [discriminate|]. split; [|discriminate].
    intros _. split.
    + by rewrite (expands_kvstore _ _ Hbefore).
    + by rewrite (expands_version_numbers _ _ Hbefore).
  - split; [|split].
    + destruct Hr as [Hr|Hr]; rewrite Hr; [discriminate|].
      intros e [= <-]. by right.
    + destruct Hr as [Hr|Hr]; rewrite Hr; by intros [|].
    + intros Hraise. split; [|split].
      * rewrite (expands_kvstore _ _ Hexp). unfold after_store. simpl.
        by rewrite (expands_kvstore _ _ Hbefore).
      * intros k Hk. rewrite (expands_version_numbers _ _ Hexp).
        rewrite version_numbers_after_store.
        rewrite decide_True; [done|]. by apply elem_of_written_keys.
      * intros c. destruct (Hwritten c) as (l & HF & Hl). exists l.
        split; [|done]. rewrite Hl, Hnone, decide_False by
          (set_solver || (rewrite Hraise; discriminate)).
        by rewrite app_nil_r.
Qed.

(** The dispatch of the messages.  [Heartbeat], [Flush] and
    [DefineSchema] return.  A [Subscribe] that raises raises
    [AssertionError] and has changed nothing.  A [NewTransaction] always
    returns, whatever [_handleNewTransaction] does: the last message
    written to the sender is its [TransactionResult], with the guid of the
    request, and the result is a success exactly when the commit returned
    [True]; a conflict and an exception are both reported as a failure. *)
Theorem only_a_Subscribe_fails_and_a_NewTransaction_is_always_answered now c
    msg st :
  let call := onClientToServerMessage now c msg st in
  match msg with
  | Subscribe schema_name typename fv =>
      ∀ e, call.2 = Raise e → e = AssertionError ∧ call.1 = st
  | NewTransaction transaction_guid writes set_adds set_removes key_versions
      index_versions as_of_version =>
      let commit :=
        _handleNewTransaction (Some c) writes
          (list_to_set <$> filter (λ kv, kv.2 ≠ []) set_adds)
          (list_to_set <$> filter (λ kv, kv.2 ≠ []) set_removes)
          key_versions index_versions as_of_version st in
      call.2 = Return tt
      ∧ ∃ isOK,
          written call.1 c
          = written commit.1 c ++ [TransactionResult transaction_guid isOK]
          ∧ (isOK = true ↔ commit.2 = Return true)
  | _ => call.2 = Return tt
  end.
Proof.
  intros call. subst call. destruct msg; try done.
  - intros e. apply handleSubscription_raises.
  - cbv zeta. unfold onClientToServerMessage.
    destruct (_handleNewTransaction _ _ _ _ _ _ _ _) as [st1 r].
    cbn [fst snd]. split; [done|].
    exists (match r with Return b => b | Raise _ => false end).
    unfold sendTransactionSuccess.
    rewrite written_write, decide_True by done. split; [done|].
    destruct r as [[]|e]; naive_solver.
Qed.
End Outcomes.

(** ** The reverse pointers a commit writes *)

Section ReverseLookup.
Context `{KM : KeyMapping} `{KV : KVStore}.

Lemma lookup_foldl_insert_with {A} (g : A → key) (v : option value)
    (l : list A) (res : gmap key (option value)) r :
  foldl (λ res a, <[g a := v]> res) res l !! r
  = if decide (r ∈ g <$> l) then Some v else res !! r.
Proof.
  revert res. induction l as [|a l IH]; intros res.
  - by rewrite decide_False by apply not_elem_of_nil.
  - change (foldl ?f ?b (?x :: ?t)) with (foldl f (f b x) t). rewrite IH.
    rewrite fmap_cons. destruct (decide (r ∈ g <$> l)) as [Hl|Hl].
    + by rewrite decide_True by (by right).
    + destruct (decide (r = g a)) as [->|Hne].
      * rewrite decide_True by left. apply lookup_insert_eq.
      * rewrite lookup_insert_ne by done. rewrite decide_False; [done|].
        by intros [?|?]%elem_of_cons.
Qed.

(** One of the two loops of [indexReverseLookupKvs], which writes
    [W valuehash] under the reverse keys of the entries. *)
Lemma lookup_reverse_loop (W : value → option value)
    (entries : list (key * gset ident)) (res0 : gmap key (option value)) r :
  let res :=
    foldl (λ res '(indexKey, identities),
             let '(fieldname, valuehash) :=
               split_index_key_to_fieldname_and_hash indexKey in
             foldl (λ res ident_,
                      <[data_reverse_index_key ident_ fieldname
                        := W valuehash]> res)
                   res (elements identities))
          res0 entries in
  let covers valuehash :=
    ∃ indexKey identities ident_ fieldname,
      (indexKey, identities) ∈ entries
      ∧ ident_ ∈ identities
      ∧ split_index_key_to_fieldname_and_hash indexKey
        = (fieldname, valuehash)
      ∧ r = data_reverse_index_key ident_ fieldname in
  (∀ valuehash, covers valuehash →
     ∃ valuehash', covers valuehash' ∧ res !! r = Some (W valuehash'))
  ∧ ((∀ valuehash, ¬ covers valuehash) → res !! r = res0 !! r).
Proof.
  induction entries as [|[indexKey identities] entries IH] using rev_ind.
  - cbv zeta. split; [|done].
    intros h (? & ? & ? & ? & []%elem_of_nil & _).
  - cbv zeta in *. rewrite foldl_snoc.
    destruct (split_index_key_to_fieldname_and_hash indexKey)
      as [fieldname valuehash] eqn:Hsplit.
    rewrite (lookup_foldl_insert_with
               (λ ident_, data_reverse_index_key ident_ fieldname)).
    destruct IH as [IHyes IHno].
    destruct (decide (r ∈ (λ ident_, data_reverse_index_key ident_ fieldname)
                          <$> elements identities)) as [Hin|Hin].
    + apply list_elem_of_fmap in Hin as (i & -> & Hi%elem_of_elements).
      split.
      * intros _ _. exists valuehash. split; [|done].
        exists indexKey, identities, i, fieldname.
        rewrite elem_of_app, list_elem_of_singleton. naive_solver.
      * intros Hno. destruct (Hno valuehash).
        exists indexKey, identities, i, fieldname.
        rewrite elem_of_app, list_elem_of_singleton. naive_solver.
    + assert (∀ h,
                (∃ indexKey0 identities0 ident_ fieldname0,
                   (indexKey0, identities0) ∈ entries ++ [(indexKey, identities)]
                   ∧ ident_ ∈ identities0
                   ∧ split_index_key_to_fieldname_and_hash indexKey0
                     = (fieldname0, h)
                   ∧ r = data_reverse_index_key ident_ fieldname0)
                ↔ (∃ indexKey0 identities0 ident_ fieldname0,
                     (indexKey0, identities0) ∈ entries
                     ∧ ident_ ∈ identities0
                     ∧ split_index_key_to_fieldname_and_hash indexKey0
                       = (fieldname0, h)
                     ∧ r = data_reverse_index_key ident_ fieldname0))
        as Hsame.
      { intros h. split.
        - intros (k0 & ids0 & i & f0 & Hk0 & Hi & Hs & Hr).
          apply elem_of_app in Hk0 as [Hk0|Hk0%list_elem_of_singleton].
          + by exists k0, ids0, i, f0.
          + injection Hk0 as -> ->. rewrite Hsplit in Hs.
            injection Hs as <- <-. destruct Hin.
            apply list_elem_of_fmap. exists i.
            by rewrite elem_of_elements.
        - intros (k0 & ids0 & i & f0 & Hk0 & Hi & Hs & Hr).
          exists k0, ids0, i, f0. rewrite elem_of_app. naive_solver. }
      split.
      * intros h Hh%Hsame. destruct (IHyes h Hh) as (h' & Hh' & Hres).
        exists h'. split; [by apply Hsame | done].
      * intros Hno. apply IHno. intros h Hh%Hsame. by apply (Hno h).
Qed.

(** The reverse pointers of [indexReverseLookupKvs].  The reverse key of
    an identity and a field that an entry of [adds] covers is given the
    value hash of such an entry, also when an entry of [removes] covers it:
    additions win over removals.  A reverse key that entries of [removes]
    cover, and no entry of [adds], is given [None].  The other keys are
    not in the result. *)
Theorem indexReverseLookupKvs_lets_additions_win (adds removes :
    gmap key (gset ident)) r :
  let res := indexReverseLookupKvs adds removes in
  (∀ valuehash, points_to adds r valuehash →
     ∃ valuehash', points_to adds r valuehash'
                   ∧ res !! r = Some (Some valuehash'))
  ∧ (∀ valuehash, points_to removes r valuehash →
       (∀ valuehash', ¬ points_to adds r valuehash') →
       res !! r = Some None)
  ∧ ((∀ valuehash, ¬ points_to adds r valuehash) →
     (∀ valuehash, ¬ points_to removes r valuehash) →
     res !! r = None).
Proof.
  intros res. subst res. unfold indexReverseLookupKvs. cbv zeta.
  match goal with
  | |- context [foldl ?f (foldl ?g ∅ (map_to_list removes))
                  (map_to_list adds)] =>
      destruct (lookup_reverse_loop Some (map_to_list adds)
                  (foldl g ∅ (map_to_list removes)) r) as [Hadd Hnoadd];
      destruct (lookup_reverse_loop (λ _, None) (map_to_list removes) ∅ r)
        as [Hrem Hnorem]
  end.
  cbv zeta in *. unfold points_to.
  setoid_rewrite elem_of_map_to_list in Hadd.
  setoid_rewrite elem_of_map_to_list in Hnoadd.
  setoid_rewrite elem_of_map_to_list in Hrem.
  setoid_rewrite elem_of_map_to_list in Hnorem.
  split; [exact Hadd|]. split.
  - intros h Hh Hno. rewrite (Hnoadd Hno).
    destruct (Hrem h Hh) as (h' & _ & Hres). exact Hres.
  - intros Hno Hno'. by rewrite (Hnoadd Hno), (Hnorem Hno').
Qed.
End ReverseLookup.

(** ** When the expansion of a commit raises nothing *)

Section Expansion.
Context `{KM : KeyMapping} `{KV : KVStore}.
Implicit Types (st : Server) (c : chan).

(** The expansions of a commit leave the definitions of the channels.
    *)
Lemma expands_definedSchemas st st' c :
  expands st st' →
  definedSchemas (objects st' c) = definedSchemas (objects st c).
Proof.
  intros Hexp. destruct (expands_objects _ _ Hexp c) as [Heq _].
  by apply (f_equal definedSchemas) in Heq.
Qed.

Lemma index_expansion_returns index_keys key_value set_adds st :
  (∀ k c, k ∈ index_keys → c ∈ bucket (_index_to_channel st) k →
          knows_the_type_of st c k) →
  ∃ key_value' set_adds',
    (index_expansion index_keys key_value set_adds st).2
    = Return (key_value', set_adds').
Proof.
  revert key_value set_adds st.
  induction index_keys as [|k ks IH]; intros key_value set_adds st Hknown;
    simpl.
  - by eexists _, _.
  - unfold bind, get. simpl.
    destruct (_index_to_channel st !! k) as [channels|] eqn:Hk.
    2: { apply IH. intros k' c Hk'. apply Hknown. by right. }
    pose proof (expands_foldl_expand_channel k (bucket set_adds k)
                  (elements channels) st ∅) as Hexp.
    destruct (foldl _ _ _) as [st' ids]. cbn [fst] in Hexp.
    assert (∀ k' c, k' ∈ ks → c ∈ bucket (_index_to_channel st') k' →
                    knows_the_type_of st' c k') as Hknown'.
    { intros k' c Hk' Hc. unfold knows_the_type_of.
      rewrite (expands_definedSchemas _ _ c Hexp).
      apply Hknown; [by right|].
      by rewrite <- (expands_index_to_channel _ _ Hexp). }
    unfold modify. simpl.
    destruct (last (elements channels)) as [channel|] eqn:Hlast;
      [|by apply IH].
    case_decide; [|by apply IH].
    assert (knows_the_type_of st' channel k) as Hchannel.
    { unfold knows_the_type_of.
      rewrite (expands_definedSchemas _ _ channel Hexp).
      apply Hknown; [left|]. rewrite (bucket_Some _ _ _ Hk).
      apply elem_of_elements. apply last_Some in Hlast as [l' ->].
      apply elem_of_app. right. left. }
    unfold knows_the_type_of in Hchannel.
    unfold _increaseBroadcastTransactionToInclude.
    destruct (split_index_key_full k) as [[[s t] f] v].
    destruct (definedSchemas (objects st' channel) !! s) as [definition|];
      [|done].
    destruct (definition !! t) as [typedef|]; [|by destruct Hchannel].
    by apply IH.
Qed.

(** A commit raises no [AttributeError] when every channel that is
    registered for an index key the transaction adds to has defined the
    schema and the type of that key: the call then returns [True] or
    [False], or fails the assertion on its transaction id. *)
Theorem commit_raises_no_AttributeError_when_the_subscribers_know_the_type
    sourceChannel key_value set_adds set_removes keys_to_check_versions
    indices_to_check_versions as_of_version st :
  (∀ k ids c, set_adds !! k = Some ids → ids ≠ ∅ →
              c ∈ bucket (_index_to_channel st) k →
              knows_the_type_of st c k) →
  (_handleNewTransaction sourceChannel key_value set_adds set_removes
     keys_to_check_versions indices_to_check_versions as_of_version st).2
  ≠ Raise AttributeError.
Proof.
  intros Hknown. rewrite handleNewTransaction_unfold. cbv zeta.
  case_decide; [|done]. destruct (conflict _ _ _); [done|].
  pose proof (expands_before_check sourceChannel set_adds st) as Hbefore.
  destruct (index_expansion_returns (map_to_list (drop_empty set_adds)).*1
              key_value (drop_empty set_adds)
              (after_store key_value set_adds set_removes
                 (_cur_transaction_num st + 1)
                 (before_check sourceChannel set_adds st)))
    as (kv' & sa' & Hret).
  { intros k c ([k' ids] & -> & Hin%elem_of_map_to_list)%list_elem_of_fmap Hc.
    apply lookup_drop_empty in Hin as [Hin Hne]. simpl in *.
    unfold knows_the_type_of, after_store. simpl.
    rewrite (expands_definedSchemas _ _ c Hbefore). simpl.
    apply (Hknown k' ids c Hin Hne).
    by rewrite (expands_index_to_channel _ _ Hbefore) in Hc. }
  destruct (index_expansion _ _ _ _) as [st5 [[kv1 sa1]|e]]; simpl in *;
    [done | discriminate].
Qed.

(** The loop that files the sets [setSeveral] reports by index group:
    a value is under a group exactly when one of the sets splits into
    the group and the value. *)
Theorem group_by_index_files_every_set_under_its_group (sets : list key)
    index_key_ index_val :
  index_val ∈ bucket (group_by_index sets) index_key_
  ↔ ∃ s, s ∈ sets ∧ split_index_key s = (index_key_, index_val).
Proof.
  unfold group_by_index.
  assert (∀ acc : gmap key (gset ident),
            index_val
            ∈ bucket
                (foldl (λ acc s,
                          let '(index_key_, index_val) := split_index_key s in
                          <[index_key_ := bucket acc index_key_
                                          ∪ {[index_val]}]> acc)
                   acc sets) index_key_
            ↔ index_val ∈ bucket acc index_key_
              ∨ ∃ s, s ∈ sets ∧ split_index_key s = (index_key_, index_val))
    as Hgen.
  { induction sets as [|s0 sets IH]; intros acc.
    - simpl. setoid_rewrite elem_of_nil. naive_solver.
    - change (foldl ?f ?b (?x :: ?t)) with (foldl f (f b x) t). rewrite IH.
      setoid_rewrite elem_of_cons.
      destruct (split_index_key s0) as [g0 v0] eqn:Hs0.
      change (<[g0 := bucket acc g0 ∪ {[v0]}]> acc)
        with (setdefault_add g0 v0 acc).
      rewrite elem_of_bucket_setdefault_add. split.
      + intros [[?|[-> ->]]|(s & Hs & Hsplit)]; [by left| |].
        * right. exists s0. split; [by left | done].
        * right. exists s. split; [by right | done].
      + intros [?|(s & [->|Hs] & Hsplit)]; [by left; left| |].
        * rewrite Hs0 in Hsplit. injection Hsplit as -> ->.
          left. right. done.
        * right. by exists s. }
  rewrite Hgen, bucket_empty. set_solver.
Qed.
End Expansion.

(** ** The transaction that is broadcast *)

Section Content.
Context `{KM : KeyMapping} `{KV : KVStore}.
Implicit Types (st : Server) (c : chan).

Lemma increaseBroadcastTransactionToInclude_values st channel indexKey newIds
    (key_value : gmap key (option value)) (set_adds : gmap key (gset ident))
    key_value' set_adds' k :
  _increaseBroadcastTransactionToInclude st channel indexKey newIds
    key_value set_adds = Return (key_value', set_adds') →
  key_value' !! k = key_value !! k
  ∨ key_value' !! k = Some (kv_get (_kvstore st) k).
Proof.
  unfold _increaseBroadcastTransactionToInclude.
  destruct (split_index_key_full indexKey) as [[[s t] f] v].
  destruct (definedSchemas (objects st channel) !! s) as [definition|];
    [|done].
  destruct (definition !! t) as [typedef|]; [|done].
  intros [= <- _]. rewrite lookup_update_zip_getSeveral.
  case_decide; [by right | by left].
Qed.

(** The dictionaries the loop over the index keys hands to the
    broadcast: an entry of the writes is the one of the transaction or the
    value of the store, and the additions of the transaction are kept. *)
Lemma index_expansion_content index_keys key_value set_adds st st'
    key_value' set_adds' :
  index_expansion index_keys key_value set_adds st
  = (st', Return (key_value', set_adds')) →
  (∀ k, key_value' !! k = key_value !! k
        ∨ key_value' !! k = Some (kv_get (_kvstore st) k))
  ∧ (∀ k, bucket set_adds k ⊆ bucket set_adds' k).
Proof.
  revert key_value set_adds st.
  induction index_keys as [|k0 ks IH]; intros key_value set_adds st Hrun.
  - simpl in Hrun. injection Hrun as <- <- <-. split; [by left | done].
  - simpl in Hrun. unfold bind, get in Hrun. simpl in Hrun.
    destruct (_index_to_channel st !! k0) as [channels|]; [|by apply IH].
    pose proof (expands_foldl_expand_channel k0 (bucket set_adds k0)
                  (elements channels) st ∅) as Hexp.
    destruct (foldl (expand_channel k0 (bucket set_adds k0)) (st, ∅)
                (elements channels)) as [st1 ids1].
    cbn [fst] in Hexp. unfold modify in Hrun. simpl in Hrun.
    assert (∀ kv1 sa1,
              index_expansion ks kv1 sa1 st1
              = (st', Return (key_value', set_adds')) →
              (∀ k, kv1 !! k = key_value !! k
                    ∨ kv1 !! k = Some (kv_get (_kvstore st) k)) →
              (∀ k, bucket set_adds k ⊆ bucket sa1 k) →
              (∀ k, key_value' !! k = key_value !! k
                    ∨ key_value' !! k = Some (kv_get (_kvstore st) k))
              ∧ (∀ k, bucket set_adds k ⊆ bucket set_adds' k)) as Hrest.
    { intros kv1 sa1 Hrun1 Hkv1 Hsa1.
      destruct (IH kv1 sa1 st1 Hrun1) as [Hkv Hsa].
      rewrite (expands_kvstore _ _ Hexp) in Hkv. split.
      - intros k. destruct (Hkv k) as [Heq|Heq]; [|by right].
        rewrite Heq. apply Hkv1.
      - intros k. etrans; [apply Hsa1 | apply Hsa]. }
    destruct (last (elements channels)) as [channel|].
    2: { apply (Hrest key_value set_adds Hrun); [by left | done]. }
    case_decide.
    2: { apply (Hrest key_value set_adds Hrun); [by left | done]. }
    destruct (_increaseBroadcastTransactionToInclude st1 channel k0 ids1
                key_value set_adds) as [[kv1 sa1]|e] eqn:Hinc; [|discriminate].
    apply (Hrest kv1 sa1 Hrun).
    + intros k. rewrite <- (expands_kvstore _ _ Hexp).
      by eapply increaseBroadcastTransactionToInclude_values.
    + intros k. by eapply increaseBroadcastTransactionToInclude_grows.
Qed.

(** The [Transaction] message of a commit.  When the call returns
    [True], the message written to the recipients carries the removals of
    the request, the transaction id, every addition of the request, and
    writes of which each entry is the entry of the request for that key or
    the value the store has for the key after the commit: what the
    expansion of the index subscriptions adds is read from the store. *)
Theorem the_broadcast_transaction_holds_the_request_and_values_of_the_store
    sourceChannel key_value set_adds set_removes keys_to_check_versions
    indices_to_check_versions as_of_version st :
  let call := _handleNewTransaction sourceChannel key_value set_adds
                set_removes keys_to_check_versions
                indices_to_check_versions as_of_version st in
  call.2 = Return true →
  ∃ (recipients : gset chan) (writes : gmap key (option value))
    (adds : gmap key (gset ident)),
    (∀ c, ∃ increases,
       Forall is_SubscriptionIncrease increases
       ∧ written call.1 c
         = written st c ++ increases
           ++ (if decide (c ∈ recipients)
               then [Transaction writes adds (drop_empty set_removes)
                       (_cur_transaction_num st + 1)]
               else []))
    ∧ (∀ k, writes !! k = key_value !! k
            ∨ writes !! k = Some (kv_get (_kvstore call.1) k))
    ∧ (∀ k ids, set_adds !! k = Some ids → ids ⊆ bucket adds k).
Proof.
  intros call Htrue.
  destruct (handleNewTransaction_returns_True sourceChannel key_value
              set_adds set_removes keys_to_check_versions
              indices_to_check_versions as_of_version st Htrue)
    as (st5 & kv' & sa' & Hrun & Hcall).
  fold call in Hcall.
  destruct (index_expansion_content _ _ _ _ _ _ _ Hrun) as [Hkv Hsa].
  pose proof (announces_index_expansion
                (map_to_list (drop_empty set_adds)).*1 key_value
                (drop_empty set_adds)
                (after_store key_value set_adds set_removes
                   (_cur_transaction_num st + 1)
                   (before_check sourceChannel set_adds st))) as Hann.
  pose proof (expands_index_expansion
                (map_to_list (drop_empty set_adds)).*1 key_value
                (drop_empty set_adds)
                (after_store key_value set_adds set_removes
                   (_cur_transaction_num st + 1)
                   (before_check sourceChannel set_adds st))) as Hexp.
  rewrite Hrun in Hann, Hexp. cbn [fst] in Hann, Hexp.
  eexists _, kv', sa'. split; [|split].
  - intros c.
    destruct (announces_before_check sourceChannel set_adds st c)
      as (l1 & Hl1 & HF1).
    destruct (Hann c) as (l2 & Hl2 & HF2).
    exists (l1 ++ l2). split; [by apply Forall_app|].
    rewrite Hcall, written_broadcast, Hl2. unfold after_store. simpl.
    rewrite Hl1. by rewrite <- !app_assoc.
  - intros k. rewrite Hcall, broadcast_state. simpl.
    rewrite (expands_kvstore _ _ Hexp). apply Hkv.
  - intros k ids Hk. destruct (decide (ids = ∅)) as [->|Hne]; [set_solver|].
    etrans; [|apply Hsa].
    by rewrite (bucket_Some _ _ ids) by (by apply lookup_drop_empty).
Qed.

(** A writer hears of the objects it creates.  When a transaction that
    returns [True] adds identities to the index of the objects that exist
    of a type its writer is not subscribed to, the writer is written a
    [SubscriptionIncrease] with these identities, and later the
    [Transaction], which is the last message written to it. *)
Theorem a_writer_receives_the_transaction_that_creates_its_objects writer
    key_value set_adds set_removes keys_to_check_versions
    indices_to_check_versions as_of_version st k ids schema_name typename
    fieldval :
  let call := _handleNewTransaction (Some writer) key_value set_adds
                set_removes keys_to_check_versions
                indices_to_check_versions as_of_version st in
  call.2 = Return true →
  set_adds !! k = Some ids → ids ≠ ∅ →
  split_index_key_full k = (schema_name, typename, " exists", fieldval) →
  (schema_name, typename) ∉ subscribedTypes (objects st writer) →
  ∃ l1 l2 writes adds,
    written call.1 writer
    = written st writer ++ l1
      ++ [SubscriptionIncrease schema_name typename (" exists", fieldval)
            (elements ids)]
      ++ l2
      ++ [Transaction writes adds (drop_empty set_removes)
            (_cur_transaction_num st + 1)].
Proof.
  intros call Htrue Hk Hids Hsplit Htype.
  destruct (handleNewTransaction_returns_True (Some writer) key_value
              set_adds set_removes keys_to_check_versions
              indices_to_check_versions as_of_version st Htrue)
    as (st5 & kv' & sa' & Hrun & Hcall).
  fold call in Hcall.
  assert (drop_empty set_adds !! k = Some ids) as Hk'
    by (by apply lookup_drop_empty).
  destruct (writer_expansion_enrols writer
              (map_to_list (drop_empty set_adds))
              (set_cur_transaction_num (_cur_transaction_num st + 1) st)
              k ids schema_name typename fieldval)
    as (_ & Hreg & l1 & l2 & Hw); [by apply elem_of_map_to_list|done|done|].
  change (foldl (writer_expansion_entry writer)
            (set_cur_transaction_num (_cur_transaction_num st + 1) st)
            (map_to_list (drop_empty set_adds)))
    with (before_check (Some writer) set_adds st) in Hreg, Hw.
  pose proof (announces_index_expansion
                (map_to_list (drop_empty set_adds)).*1 key_value
                (drop_empty set_adds)
                (after_store key_value set_adds set_removes
                   (_cur_transaction_num st + 1)
                   (before_check (Some writer) set_adds st))) as Hann.
  pose proof (expands_index_expansion
                (map_to_list (drop_empty set_adds)).*1 key_value
                (drop_empty set_adds)
                (after_store key_value set_adds set_removes
                   (_cur_transaction_num st + 1)
                   (before_check (Some writer) set_adds st))) as Hexp.
  rewrite Hrun in Hann, Hexp. cbn [fst] in Hann, Hexp.
  destruct (Hann writer) as (l3 & Hl3 & _).
  change (written (after_store key_value set_adds set_removes
                     (_cur_transaction_num st + 1)
                     (before_check (Some writer) set_adds st)) writer)
    with (written (before_check (Some writer) set_adds st) writer) in Hl3.
  change (written (set_cur_transaction_num (_cur_transaction_num st + 1) st)
            writer) with (written st writer) in Hw.
  exists l1, (l2 ++ l3), kv', sa'.
  rewrite Hcall, written_broadcast, Hl3, Hw.
  rewrite decide_True; [by rewrite <- !app_assoc|].
  apply elem_of_channelsTriggered. right.
  destruct (set_choose_L ids Hids) as [i Hi]. exists i. split.
  - apply (entry_is_mentioned key_value (drop_empty set_adds)
             (drop_empty set_removes) k ids); [by left | done | done].
  - apply (expands_id_to_channel _ _ Hexp). unfold after_store. simpl.
    by apply Hreg.
Qed.

Lemma drop_empty_of_empty_sets (d : gmap key (gset ident)) :
  (∀ k s, d !! k = Some s → s = ∅) → drop_empty d = ∅.
Proof.
  intros Hd. apply map_empty. intros k.
  destruct (drop_empty d !! k) as [s|] eqn:Hk; [|done].
  apply lookup_drop_empty in Hk as [Hk Hne]. by apply Hd in Hk.
Qed.

Lemma nothing_written :
  keysWritingTo ∅ = ∅
  ∧ setsWritingTo ∅ ∅ = ∅
  ∧ schemaTypePairsWriting ∅ ∅ ∅ = ∅
  ∧ identities_mentioned ∅ ∅ ∅ = ∅.
Proof.
  unfold keysWritingTo, setsWritingTo, schemaTypePairsWriting,
    identities_mentioned, written_entries.
  rewrite !map_to_list_empty. simpl. split_and!; try done.
  all: apply union_empty_l_L.
Qed.

Lemma channelsTriggered_empty st : channelsTriggered ∅ ∅ st = ∅.
Proof.
  unfold channelsTriggered. rewrite !elements_empty. simpl.
  apply union_empty_l_L.
Qed.

Lemma broadcast_empty msg st : broadcast ∅ msg st = st.
Proof. unfold broadcast. by rewrite elements_empty. Qed.

Lemma stamp_empty t (version_numbers : gmap key Z) :
  stamp ∅ t version_numbers = version_numbers.
Proof. unfold stamp. by rewrite elements_empty. Qed.

(** A transaction that writes nothing.  With no write, and with sets of
    additions and removals that are all empty, a call that passes the
    assertion on its id and the check of the versions returns [True]; it
    takes a transaction id, stamps no key, subscribes nobody and writes to
    no channel: no [Transaction] message is sent for it. *)
Theorem a_transaction_that_writes_nothing_is_sent_to_nobody sourceChannel
    set_adds set_removes keys_to_check_versions indices_to_check_versions
    as_of_version st :
  let call := _handleNewTransaction sourceChannel ∅ set_adds set_removes
                keys_to_check_versions indices_to_check_versions
                as_of_version st in
  (∀ k s, set_adds !! k = Some s → s = ∅) →
  (∀ k s, set_removes !! k = Some s → s = ∅) →
  as_of_version ≤ _cur_transaction_num st →
  (∀ k, k ∈ keys_to_check_versions ++ indices_to_check_versions →
        default (-1) (_version_numbers st !! k) ≤ as_of_version) →
  call.2 = Return true
  ∧ _cur_transaction_num call.1 = _cur_transaction_num st + 1
  ∧ _version_numbers call.1 = _version_numbers st
  ∧ written call.1 = written st
  ∧ objects call.1 = objects st
  ∧ _type_to_channel call.1 = _type_to_channel st
  ∧ _index_to_channel call.1 = _index_to_channel st
  ∧ _id_to_channel call.1 = _id_to_channel st.
Proof.
  intros call Hsa Hsr Hasof Hchecks. subst call.
  rewrite handleNewTransaction_unfold. cbv zeta.
  rewrite decide_True by lia.
  assert (before_check sourceChannel set_adds st
          = set_cur_transaction_num (_cur_transaction_num st + 1) st)
    as Hbefore.
  { unfold before_check. rewrite (drop_empty_of_empty_sets _ Hsa).
    destruct sourceChannel; [|done].
    unfold writer_expansion. by rewrite map_to_list_empty. }
  rewrite Hbefore. simpl _version_numbers.
  destruct (conflict (_version_numbers st)
              (keys_to_check_versions ++ indices_to_check_versions)
              as_of_version) eqn:Hconflict.
  { apply conflict_true in Hconflict as (k & Hk & Hlt).
    apply Hchecks in Hk. lia. }
  unfold after_store.
  rewrite (drop_empty_of_empty_sets _ Hsa), (drop_empty_of_empty_sets _ Hsr).
  destruct nothing_written as (-> & -> & -> & ->).
  rewrite map_to_list_empty. simpl index_expansion. unfold ret.
  cbv beta iota. rewrite channelsTriggered_empty, broadcast_empty.
  by rewrite !stamp_empty.
Qed.
End Content.

(** ** The properties on runs of the server *)

Section ExtraRuns.
#[local] Existing Instances colon_keys mem_store.

Lemma reachable_slice_subscribed :
  reachable (KM:=colon_keys) (KV:=mem_store) slice_subscribed.
Proof.
  unfold slice_subscribed.
  eapply reachable_step; [|apply step_message; by_computing].
  apply reachable_S_defined.
Qed.

Lemma reachable_versions_in_range_witness :
  versions_in_range S_subscribed.
Proof.
  apply (reachable_versions_in_range (KM:=colon_keys) (KV:=mem_store)).
  apply reachable_S_subscribed.
Defined.

Lemma step_never_lowers_counter_or_versions_witness :
  _cur_transaction_num S_defined ≤ _cur_transaction_num S_subscribed
  ≤ _cur_transaction_num S_defined + 1
  ∧ ∀ k v, _version_numbers S_defined !! k = Some v →
           ∃ v', _version_numbers S_subscribed !! k = Some v' ∧ v ≤ v'.
Proof.
  apply (step_never_lowers_counter_or_versions (KM:=colon_keys)
           (KV:=mem_store) S_defined S_subscribed).
  - apply reachable_S_defined.
  - unfold S_subscribed. apply step_message. by_computing.
Defined.


Lemma increaseBroadcastTransactionToInclude_pulls_the_new_objects_witness :
  ∃ key_value' set_adds',
    _increaseBroadcastTransactionToInclude (KM:=colon_keys) (KV:=mem_store)
      S_defined 1%nat "I:S:T:color:red" {["id3"]} ∅ ∅
    = Return (key_value', set_adds')
    ∧ key_value' !! "D:S:T:id3:name"
      = Some (kv_get (_kvstore S_defined) "D:S:T:id3:name").
Proof.
  pose proof (increaseBroadcastTransactionToInclude_pulls_the_new_objects
                (KM:=colon_keys) (KV:=mem_store) S_defined 1%nat
                "I:S:T:color:red" {["id3"]} ∅ ∅ "S" "T" "color" "red"
                eq_refl) as Hspec.
  assert (match definedSchemas (objects S_defined 1%nat) !! "S" with
          | Some definition => definition !! "T"
          | None => None
          end = Some typeT) as Hdef by (by vm_compute).
  rewrite Hdef in Hspec.
  destruct Hspec as (kv' & sa' & Hr & Hfields & _).
  exists kv', sa'. split; [exact Hr|].
  apply (Hfields "name" "id3"); [by_computing | by_computing].
Defined.

Lemma committed_adds_extend_the_index_subscriptions_witness :
  {["id3"]} ⊆ subscribedIds (objects slice_commit.1 1%nat)
  ∧ (∀ i, i ∈ ({["id3"]} : gset ident) →
          1%nat ∈ bucket (_id_to_channel slice_commit.1) i)
  ∧ ∃ l1 new l2 writes adds,
      written slice_commit.1 1%nat
      = written slice_subscribed 1%nat ++ l1
        ++ [SubscriptionIncrease "S" "T" ("color", "red") new]
        ++ l2
        ++ [Transaction writes adds (drop_empty ∅)
              (_cur_transaction_num slice_subscribed + 1)].
Proof.
  apply (committed_adds_extend_the_index_subscriptions
           (KM:=colon_keys) (KV:=mem_store) None ∅
           {["I:S:T:color:red" := {["id3"]}]} ∅ [] [] 1 slice_subscribed
           "I:S:T:color:red" {["id3"]} 1%nat "S" "T" "color" "red").
  - apply reachable_slice_subscribed.
  - done.
  - by vm_compute.
  - by vm_compute.
  - by_computing.
  - reflexivity.
  - by_computing.
Defined.

Lemma dropConnection_returns_and_unsubscribes_the_channel_witness :
  (dropConnection 1%nat S_subscribed).2 = Return tt
  ∧ _clientChannels (dropConnection 1%nat S_subscribed).1
    = _clientChannels S_subscribed ∖ {[1%nat]}
  ∧ (∀ p, 1%nat ∉ bucket
                    (_type_to_channel (dropConnection 1%nat S_subscribed).1)
                    p)
  ∧ (∀ k, 1%nat ∉ bucket
                    (_index_to_channel (dropConnection 1%nat S_subscribed).1)
                    k)
  ∧ (∀ i, 1%nat ∉ bucket
                    (_id_to_channel (dropConnection 1%nat S_subscribed).1) i)
  ∧ objects (dropConnection 1%nat S_subscribed).1 = objects S_subscribed
  ∧ ∀ c', c' ≠ 1%nat →
      (∀ p, c' ∈ bucket
                   (_type_to_channel (dropConnection 1%nat S_subscribed).1) p
            ↔ c' ∈ bucket (_type_to_channel S_subscribed) p)
      ∧ (∀ k, c' ∈ bucket
                     (_index_to_channel (dropConnection 1%nat S_subscribed).1)
                     k
              ↔ c' ∈ bucket (_index_to_channel S_subscribed) k)
      ∧ (∀ i, c' ∈ bucket
                     (_id_to_channel (dropConnection 1%nat S_subscribed).1) i
              ↔ c' ∈ bucket (_id_to_channel S_subscribed) i).
Proof.
  apply (dropConnection_returns_and_unsubscribes_the_channel
           (KM:=colon_keys) (KV:=mem_store) 1%nat S_subscribed).
  apply reachable_S_subscribed.
Defined.

Lemma dropConnection_twice_is_dropConnection_once_witness :
  dropConnection 1%nat (dropConnection 1%nat S_subscribed).1
  = ((dropConnection 1%nat S_subscribed).1, Return tt).
Proof.
  apply (dropConnection_twice_is_dropConnection_once
           (KM:=colon_keys) (KV:=mem_store) 1%nat S_subscribed).
  apply reachable_S_subscribed.
Defined.

Lemma index_and_identity_buckets_are_never_empty_witness :
  (∀ k s, _index_to_channel slice_subscribed !! k = Some s → s ≠ ∅)
  ∧ (∀ i s, _id_to_channel slice_subscribed !! i = Some s → s ≠ ∅).
Proof.
  apply (index_and_identity_buckets_are_never_empty
           (KM:=colon_keys) (KV:=mem_store) slice_subscribed).
  apply reachable_slice_subscribed.
Defined.

Lemma nothing_is_written_to_a_channel_that_is_not_connected_witness :
  written S_dropped 1%nat = written S_subscribed 1%nat.
Proof.
  apply (nothing_is_written_to_a_channel_that_is_not_connected
           (KM:=colon_keys) (KV:=mem_store) S_subscribed S_dropped 1%nat).
  - apply reachable_S_subscribed.
  - unfold S_dropped. apply step_dropConnection.
  - by_computing.
Defined.

Lemma addConnection_registers_the_channel_and_initializes_it_witness :
  _clientChannels S_connected = {[1%nat]} ∪ _clientChannels fresh_server
  ∧ _cur_transaction_num S_connected = _cur_transaction_num fresh_server + 1
  ∧ objects S_connected 1%nat
    = new_ConnectedChannel 0 (_cur_transaction_num fresh_server + 1) "idA"
  ∧ written S_connected 1%nat
    = written fresh_server 1%nat
      ++ [Initialize (_cur_transaction_num fresh_server + 1) "idA"]
  ∧ (∀ p, 1%nat ∉ bucket (_type_to_channel S_connected) p)
  ∧ (∀ k, 1%nat ∉ bucket (_index_to_channel S_connected) k)
  ∧ (∀ i, 1%nat ∉ bucket (_id_to_channel S_connected) i).
Proof.
  apply (addConnection_registers_the_channel_and_initializes_it
           (KM:=colon_keys) (KV:=mem_store) 0 "idA" 1%nat fresh_server).
  - apply reachable_init.
  - by_computing.
  - by vm_compute.
Defined.

Lemma Subscribe_to_a_type_or_a_schema_registers_its_types_witness :
  (_handleSubscription (KM:=colon_keys) (KV:=mem_store) 1%nat "S" None None
     S_defined).2 = Return tt
  ∧ 1%nat ∈ bucket
              (_type_to_channel
                 (_handleSubscription (KM:=colon_keys) (KV:=mem_store)
                    1%nat "S" None None S_defined).1)
              ("S", "U").
Proof.
  destruct (Subscribe_to_a_type_or_a_schema_registers_its_types
              (KM:=colon_keys) (KV:=mem_store) 1%nat "S" None schemaS
              S_defined) as (Hret & Hbucket & _).
  - by vm_compute.
  - done.
  - split; [exact Hret|]. apply Hbucket. right.
    split; [done|]. split; [done|]. by_computing.
Defined.

Lemma Subscribe_to_a_slice_enrols_the_channel_on_its_identities_witness :
  (_handleSubscription (KM:=colon_keys) (KV:=mem_store) 1%nat "S" (Some "T")
     (Some ("_identity", "id7")) S_defined).2 = Return tt
  ∧ subscribedIds
      (objects
         (_handleSubscription (KM:=colon_keys) (KV:=mem_store) 1%nat "S"
            (Some "T") (Some ("_identity", "id7")) S_defined).1 1%nat)
    = subscribedIds (objects S_defined 1%nat) ∪ {["id7"]}.
Proof.
  destruct (Subscribe_to_a_slice_enrols_the_channel_on_its_identities
              (KM:=colon_keys) (KV:=mem_store) 1%nat "S" "T" "_identity"
              "id7" schemaS S_defined) as (Hret & Hids & _).
  - by vm_compute.
  - by_computing.
  - split; [exact Hret | exact Hids].
Defined.

Lemma a_transaction_that_read_before_a_committed_write_is_rejected_witness :
  stale_commit.2 = Return false.
Proof.
  apply (a_transaction_that_read_before_a_committed_write_is_rejected
           (KM:=colon_keys) (KV:=mem_store) (Some 1%nat)
           {["D:S:T:id3:name" := Some "alice"]}
           {["I:S:T: exists:True" := {["id3"]}]}
           ∅ [] [] 1 S_defined creating_commit.1 "D:S:T:id3:name"
           (Some 1%nat) {["D:S:T:id3:name" := Some "bob"]} ∅ ∅
           ["D:S:T:id3:name"] [] 1).
  - apply reachable_S_defined.
  - intros writer [= <-]. by_computing.
  - by vm_compute.
  - left. by_computing.
  - apply rtc_refl.
  - left. by_computing.
  - by vm_compute.
Defined.

Lemma commit_raises_no_AttributeError_witness :
  slice_commit.2 ≠ Raise AttributeError.
Proof.
  apply (commit_raises_no_AttributeError_when_the_subscribers_know_the_type
           (KM:=colon_keys) (KV:=mem_store) None ∅
           {["I:S:T:color:red" := {["id3"]}]} ∅ [] [] 1 slice_subscribed).
  intros k ids c [<- <-]%lookup_singleton_Some _ Hc.
  assert (bucket (_index_to_channel slice_subscribed) "I:S:T:color:red"
          = {[1%nat]}) as Hbucket by (by vm_compute).
  rewrite Hbucket in Hc. apply elem_of_singleton in Hc as ->.
  unfold knows_the_type_of. vm_compute. by eexists.
Defined.

Lemma the_broadcast_transaction_holds_the_request_witness :
  ∃ (recipients : gset chan) (writes : gmap key (option value))
    (adds : gmap key (gset ident)),
    (∀ c, ∃ increases,
       Forall is_SubscriptionIncrease increases
       ∧ written announced_commit.1 c
         = written S_subscribed c ++ increases
           ++ (if decide (c ∈ recipients)
               then [Transaction writes adds (drop_empty ∅)
                       (_cur_transaction_num S_subscribed + 1)]
               else []))
    ∧ (∀ k, writes !! k
            = ({["D:S:T:id3:name" := Some "alice"]}
                 : gmap key (option value)) !! k
            ∨ writes !! k = Some (kv_get (_kvstore announced_commit.1) k))
    ∧ (∀ k ids,
         ({["I:S:T: exists:True" := {["id3"]}]} : gmap key (gset ident)) !! k
         = Some ids →
         ids ⊆ bucket adds k).
Proof.
  apply (the_broadcast_transaction_holds_the_request_and_values_of_the_store
           None {["D:S:T:id3:name" := Some "alice"]}
           {["I:S:T: exists:True" := {["id3"]}]} ∅ [] [] 1 S_subscribed).
  by vm_compute.
Defined.

Lemma a_writer_receives_the_transaction_that_creates_its_objects_witness :
  ∃ l1 l2 writes adds,
    written creating_commit.1 1%nat
    = written S_defined 1%nat ++ l1
      ++ [SubscriptionIncrease "S" "T" (" exists", "True")
            (elements ({["id3"]} : gset ident))]
      ++ l2
      ++ [Transaction writes adds (drop_empty ∅)
            (_cur_transaction_num S_defined + 1)].
Proof.
  apply (a_writer_receives_the_transaction_that_creates_its_objects 1%nat
           {["D:S:T:id3:name" := Some "alice"]}
           {["I:S:T: exists:True" := {["id3"]}]} ∅ [] [] 1 S_defined
           "I:S:T: exists:True" {["id3"]} "S" "T" "True").
  - by vm_compute.
  - by vm_compute.
  - by_computing.
  - reflexivity.
  - by_computing.
Defined.

Lemma a_transaction_that_writes_nothing_is_sent_to_nobody_witness :
  (_handleNewTransaction (Some 1%nat) ∅ {["I:S:T: exists:True" := ∅]} ∅
     [] [] 1 S_subscribed).2 = Return true
  ∧ written
      (_handleNewTransaction (Some 1%nat) ∅ {["I:S:T: exists:True" := ∅]} ∅
         [] [] 1 S_subscribed).1
    = written S_subscribed.
Proof.
  pose proof (a_transaction_that_writes_nothing_is_sent_to_nobody
                (Some 1%nat) {["I:S:T: exists:True" := ∅]} ∅ [] [] 1
                S_subscribed) as Hspec.
  cbv zeta in Hspec.
  assert (∀ (k : key) (s : gset ident),
            ({["I:S:T: exists:True" := ∅]} : gmap key (gset ident)) !! k
            = Some s → s = ∅) as Hadds
    by (by intros k s [_ <-]%lookup_singleton_Some).
  assert (∀ (k : key) (s : gset ident),
            (∅ : gmap key (gset ident)) !! k = Some s → s = ∅) as Hremoves
    by (intros k s Hk; by rewrite lookup_empty in Hk).
  assert (1 ≤ _cur_transaction_num S_subscribed) as Hasof by (by vm_compute).
  assert (∀ k : key, k ∈ ([] : list key) ++ [] →
            default (-1) (_version_numbers S_subscribed !! k) ≤ 1) as Hchecks.
  { intros k Hk. simpl in Hk. apply elem_of_nil in Hk. destruct Hk. }
  destruct (Hspec Hadds Hremoves Hasof Hchecks)
    as (Hret & _ & _ & Hwritten & _).
  split; [exact Hret | exact Hwritten].
Defined.
End ExtraRuns.
